(** * clamdproxy: a filtering proxy for the clamd wire protocol

    A shallow embedding of the proxy engine (package [main]: the command
    reader, the command classifier, the INSTREAM chunk relay, the connection
    error classifier, the client->backend loop and the backend->client loop
    of [Start]) and of the requests of the test client,
    together with the parts of the Go standard library they call ([strings],
    [unicode/utf8], [errors], [io], [bufio], [net], [encoding/binary]), and
    the properties of the specification settled on that embedding.

    Conventions.
    - A Go [byte] is a [Byte.byte]; a [[]byte] is a [list byte]; a Go
      [string] is a [string] and the conversions [string(b)] and [[]byte(s)]
      are [String.string_of_list_byte] and [String.list_byte_of_string].
    - A Go [int] is a 64-bit signed integer, a [Z] with the wrap-around
      written out ([wrap_int]).
    - A Go [error] value is an [option error]: [None] is [nil].
    - A connection is explicit state: what the peer sent and has not been read
      yet, what was written to it, and when writing starts to fail.
    - The two directions of a session run in goroutines of their own; they
      are modelled one at a time, never interleaved.  What is proved of a
      direction is about what that direction does itself.
    - Logging is not modelled, but for the message [Start] ends with. *)

From Stdlib Require Import ZArith Lia Bool.
From Stdlib Require Strings.Byte Ascii String.
From stdpp Require Import base option gmap strings list.
Import (notations) Stdlib.Strings.Ascii.

Abbreviation byte := Init.Byte.byte.

Local Open Scope Z_scope.

(** ** Bytes and machine integers *)

Definition byteZ (b : byte) : Z := Z.of_N (Byte.to_N b).

(** [int] on the 64-bit platforms the proxy is released for. *)
Definition wrap_int (z : Z) : Z := (z + 2 ^ 63) mod 2 ^ 64 - 2 ^ 63.

(** ** Packages [unicode/utf8] and [unicode] (Go standard library) *)

Module utf8.

Definition RuneError : Z := 0xFFFD.
Definition RuneSelf : Z := 0x80.

Definition maskx : Z := 0x3F.
Definition mask2 : Z := 0x1F.
Definition mask3 : Z := 0x0F.
Definition mask4 : Z := 0x07.
Definition locb : Z := 0x80.
Definition hicb : Z := 0xBF.

(** The entries of the table [first]: the low three bits are the length
    of the encoding, the high four bits index [acceptRanges]. *)
Definition xx : Z := 0xF1.
Definition as_ : Z := 0xF0.
Definition s1 : Z := 0x02.
Definition s2 : Z := 0x13.
Definition s3 : Z := 0x03.
Definition s4 : Z := 0x23.
Definition s5 : Z := 0x34.
Definition s6 : Z := 0x04.
Definition s7 : Z := 0x44.

Definition first (b : Z) : Z :=
  if b <? 0x80 then as_
  else if b <? 0xC2 then xx
  else if b <? 0xE0 then s1
  else if b =? 0xE0 then s2
  else if b <? 0xED then s3
  else if b =? 0xED then s4
  else if b <? 0xF0 then s3
  else if b =? 0xF0 then s5
  else if b <? 0xF4 then s6
  else if b =? 0xF4 then s7
  else xx.

Definition acceptRanges (i : Z) : Z * Z :=
  if i =? 0 then (locb, hicb)
  else if i =? 1 then (0xA0, hicb)
  else if i =? 2 then (locb, 0x9F)
  else if i =? 3 then (0x90, hicb)
  else if i =? 4 then (locb, 0x8F)
  else (0, 0).

(** [DecodeRuneInString]: the rune at the head of [p] and its width in
    bytes; an invalid encoding gives [(RuneError, 1)]. *)
Definition DecodeRune (p : list byte) : Z * nat :=
  match p with
  | [] => (RuneError, 0%nat)
  | b0 :: p1 =>
      let c0 := byteZ b0 in
      let x := first c0 in
      if as_ <=? x then ((if Z.testbit x 0 then RuneError else c0), 1%nat)
      else
        let sz := Z.land x 7 in
        let accept := acceptRanges (Z.shiftr x 4) in
        if Z.of_nat (length p) <? sz then (RuneError, 1%nat)
        else
          match p1 with
          | [] => (RuneError, 1%nat)
          | b1 :: p2 =>
              let c1 := byteZ b1 in
              if (c1 <? fst accept) || (snd accept <? c1) then (RuneError, 1%nat)
              else if sz <=? 2
              then (Z.lor (Z.shiftl (Z.land c0 mask2) 6) (Z.land c1 maskx), 2%nat)
              else
                match p2 with
                | [] => (RuneError, 1%nat)
                | b2 :: p3 =>
                    let c2 := byteZ b2 in
                    if (c2 <? locb) || (hicb <? c2) then (RuneError, 1%nat)
                    else if sz <=? 3
                    then (Z.lor (Z.lor (Z.shiftl (Z.land c0 mask3) 12)
                                       (Z.shiftl (Z.land c1 maskx) 6))
                                (Z.land c2 maskx), 3%nat)
                    else
                      match p3 with
                      | [] => (RuneError, 1%nat)
                      | b3 :: _ =>
                          let c3 := byteZ b3 in
                          if (c3 <? locb) || (hicb <? c3) then (RuneError, 1%nat)
                          else (Z.lor (Z.lor (Z.lor (Z.shiftl (Z.land c0 mask4) 18)
                                                    (Z.shiftl (Z.land c1 maskx) 12))
                                             (Z.shiftl (Z.land c2 maskx) 6))
                                      (Z.land c3 maskx), 4%nat)
                      end
                end
          end
  end.

(** [for _, r := range s]: the runes of [p] in order, each with the bytes
    that encode it.  [skip] counts the bytes of the current rune that are
    still to be passed over. *)
Fixpoint runes_from (skip : nat) (p : list byte) : list (Z * list byte) :=
  match p with
  | [] => []
  | _ :: p' =>
      match skip with
      | S k => runes_from k p'
      | O =>
          let '(r, w) := DecodeRune p in
          (r, firstn w p) :: runes_from (w - 1) p'
      end
  end.

Definition runes (p : list byte) : list (Z * list byte) := runes_from 0 p.

End utf8.

Module unicode.

Definition MaxLatin1 : Z := 0xFF.

(** The table [White_Space] above Latin-1. *)
Definition White_Space_above_Latin1 (r : Z) : bool :=
  (r =? 0x1680)
  || ((0x2000 <=? r) && (r <=? 0x200a))
  || ((0x2028 <=? r) && (r <=? 0x2029))
  || (r =? 0x202f)
  || (r =? 0x205f)
  || (r =? 0x3000).

Definition IsSpace (r : Z) : bool :=
  if r <=? MaxLatin1
  then (r =? 0x09) || (r =? 0x0A) || (r =? 0x0B) || (r =? 0x0C) || (r =? 0x0D)
       || (r =? 0x20) || (r =? 0x85) || (r =? 0xA0)
  else White_Space_above_Latin1 r.

End unicode.

(** ** Package [strings] (Go standard library), on [string] *)

Module GoStrings.

(** [s[:n]] *)
Fixpoint take (n : nat) (s : string) : string :=
  match n, s with
  | S n', String a s' => String a (take n' s')
  | _, _ => EmptyString
  end.

(** [s[n:]] *)
Fixpoint drop (n : nat) (s : string) : string :=
  match n, s with
  | S n', String _ s' => drop n' s'
  | _, _ => s
  end.

(** [HasPrefix]: [len(s) >= len(prefix) && s[:len(prefix)] == prefix] *)
Definition HasPrefix (s prefix : string) : bool :=
  (String.length prefix <=? String.length s)%nat
  && String.eqb (take (String.length prefix) s) prefix.

(** [HasSuffix]: [len(s) >= len(suffix) && s[len(s)-len(suffix):] == suffix] *)
Definition HasSuffix (s suffix : string) : bool :=
  (String.length suffix <=? String.length s)%nat
  && String.eqb (drop (String.length s - String.length suffix) s) suffix.


(** [FieldsFunc]: the maximal runs of runes that do not satisfy [f].
    [cur] is the field being collected ([start >= 0] in the library). *)
Fixpoint fields_go (f : Z -> bool) (cur : option (list byte))
         (rs : list (Z * list byte)) : list (list byte) :=
  match rs with
  | [] => match cur with Some w => [w] | None => [] end
  | (r, bs) :: rs' =>
      if f r
      then match cur with
           | Some w => w :: fields_go f None rs'
           | None => fields_go f None rs'
           end
      else fields_go f (Some (default [] cur ++ bs)) rs'
  end.

Definition FieldsFunc (s : string) (f : Z -> bool) : list string :=
  map String.string_of_list_byte
      (fields_go f None (utf8.runes (String.list_byte_of_string s))).

(** [Fields] splits around runs of white space as defined by
    [unicode.IsSpace].  (The library has a second loop for strings of
    ASCII bytes only, which computes the same fields without decoding.) *)
Definition Fields (s : string) : list string := FieldsFunc s unicode.IsSpace.

End GoStrings.

(** ** [isInstreamCommand] *)

Definition isInstreamCommand (cmd : string) : bool :=
  (GoStrings.HasPrefix cmd "z" && GoStrings.HasSuffix cmd "INSTREAM")
  || (GoStrings.HasPrefix cmd "n" && GoStrings.HasSuffix cmd "INSTREAM").

(** ** Protocol constants and the allow-list *)

Definition nullDelimiter : byte := Byte.x00.
Definition newlineDelimiter : byte := Byte.x0a.

Definition allowedCommands : gmap string bool :=
  {[ "PING" := true; "INSTREAM" := true; "VERSION" := true; "VERSIONCOMMANDS" := true ]}.

(** Indexing a Go map with a missing key gives the zero value. *)
Definition map_index (m : gmap string bool) (k : string) : bool :=
  default false (m !! k).

(** ** [isCommandAllowed] *)

Definition isCommandAllowed (cmd : string) : bool :=
  let cmdParts := GoStrings.Fields cmd in
  match cmdParts with
  | [] => false
  | actualCmd :: _ =>
      let actualCmd :=
        if GoStrings.HasPrefix actualCmd "z" || GoStrings.HasPrefix actualCmd "n"
        then GoStrings.drop 1 actualCmd
        else actualCmd in
      map_index allowedCommands actualCmd
  end.

(** ** Go [error] values and package [errors] *)

Inductive error : Type :=
| EOF                                       (* io.EOF *)
| ErrUnexpectedEOF                          (* io.ErrUnexpectedEOF *)
| ErrShortWrite                             (* io.ErrShortWrite *)
| ErrClosed                                 (* net.ErrClosed *)
| ErrDeadlineExceeded                       (* os.ErrDeadlineExceeded *)
| Errno (n : Z)                             (* syscall.Errno(n) *)
| errorString (s : string)                  (* errors.New(s) *)
| OpError (Op : string) (Err : error)       (* &net.OpError{Op: Op, Err: Err} *)
| SyscallError (Syscall : string) (Err : error) (* os.NewSyscallError(Syscall, Err) *)
| wrapError (msg : string) (err : error).   (* fmt.Errorf(msg + ": %w", err) *)

Module syscall.
(** Linux values. *)
Definition EAGAIN : Z := 0xb.
Definition EWOULDBLOCK : Z := EAGAIN.
Definition EPIPE : Z := 0x20.
Definition ECONNRESET : Z := 0x68.
Definition ETIMEDOUT : Z := 0x6e.
End syscall.

Module errors.

(** The [Unwrap() error] method, where the dynamic type has one. *)
Definition Unwrap (e : error) : option error :=
  match e with
  | OpError _ inner => Some inner
  | SyscallError _ inner => Some inner
  | wrapError _ inner => Some inner
  | _ => None
  end.

(** The dynamic types with a [Timeout() bool] method. *)
Definition has_Timeout_method (e : error) : bool :=
  match e with
  | ErrClosed | ErrDeadlineExceeded | Errno _ | OpError _ _ | SyscallError _ _ => true
  | _ => false
  end.

(** The result of [e.Timeout()], for the types with that method.
    [*net.OpError] looks through one [*os.SyscallError]; both ask the
    wrapped error only if it has the method itself. *)
Fixpoint Timeout (e : error) : bool :=
  match e with
  | ErrDeadlineExceeded => true
  | Errno n => (n =? syscall.EAGAIN) || (n =? syscall.EWOULDBLOCK) || (n =? syscall.ETIMEDOUT)
  | OpError _ inner =>
      match inner with
      | SyscallError _ inner' => has_Timeout_method inner' && Timeout inner'
      | _ => has_Timeout_method inner && Timeout inner
      end
  | SyscallError _ inner => has_Timeout_method inner && Timeout inner
  | _ => false
  end.

(** The dynamic types that implement the interface [net.Error]
    ([Error], [Timeout] and [Temporary]). *)
Definition is_net_Error (e : error) : bool :=
  match e with
  | ErrClosed | ErrDeadlineExceeded | Errno _ | OpError _ _ => true
  | _ => false
  end.

Definition is_OpError (e : error) : bool :=
  match e with
  | OpError _ _ => true
  | _ => false
  end.

(** [errors.As(err, &target)] for a target type given by [matches]: the
    first error of the chain of that type. *)
Fixpoint As (matches : error -> bool) (e : error) : option error :=
  if matches e then Some e
  else match e with
       | OpError _ inner => As matches inner
       | SyscallError _ inner => As matches inner
       | wrapError _ inner => As matches inner
       | _ => None
       end.

(** [err == target] on interface values whose target is a sentinel or a
    [syscall.Errno]; values allocated at run time are never equal to one. *)
Definition eq_target (e target : error) : bool :=
  match e, target with
  | EOF, EOF => true
  | ErrUnexpectedEOF, ErrUnexpectedEOF => true
  | ErrShortWrite, ErrShortWrite => true
  | ErrClosed, ErrClosed => true
  | ErrDeadlineExceeded, ErrDeadlineExceeded => true
  | Errno a, Errno b => a =? b
  | _, _ => false
  end.

(** [errors.Is(err, target)]: some error of the chain equals [target]. *)
Fixpoint Is (e target : error) : bool :=
  eq_target e target
  || match e with
     | OpError _ inner => Is inner target
     | SyscallError _ inner => Is inner target
     | wrapError _ inner => Is inner target
     | _ => false
     end.

End errors.

(** ** [isConnectionClosed] *)

Definition isConnectionClosed (err : option error) : bool :=
  match err with
  | None => false
  | Some err =>
      if match errors.As errors.is_net_Error err with
         | Some netErr => errors.Timeout netErr
         | None => false
         end
      then false
      else if bool_decide (is_Some (errors.As errors.is_OpError err))
      then true
      else errors.Is err EOF
           || errors.Is err ErrUnexpectedEOF
           || errors.Is err (Errno syscall.EPIPE)
           || errors.Is err (Errno syscall.ECONNRESET)
  end.

(** ** Connections, [io] and [bufio] *)

Definition len {A} (l : list A) : Z := Z.of_nat (length l).

(** [p[:n]] and [p[n:]] for an [int] index. *)
Definition upto {A} (n : Z) (p : list A) : list A := firstn (Z.to_nat n) p.
Definition from {A} (n : Z) (p : list A) : list A := skipn (Z.to_nat n) p.

(** A [net.Conn], seen from the proxy.
    - [c_in]: the bytes the peer sends that have not been read yet, followed
      by [c_rerr] once they are exhausted ([EOF] for an orderly shutdown);
    - [c_sent]: the bytes written to the connection so far;
    - [c_room]: [None] if writes never fail, [Some k] if the connection takes
      [k] more bytes and then fails every write with [c_werr];
    - [c_closed]: [Close] was called on this side;
    - [c_readerFrom]: the dynamic type has a [ReadFrom] method
      (as [*net.TCPConn] has). *)
Record Conn : Type := mkConn {
  c_in : list byte;
  c_rerr : error;
  c_sent : list byte;
  c_room : option Z;
  c_werr : error;
  c_closed : bool;
  c_readerFrom : bool
}.

Module net.

Definition set_out (c : Conn) (sent : list byte) (room : option Z) : Conn :=
  mkConn (c_in c) (c_rerr c) sent room (c_werr c) (c_closed c) (c_readerFrom c).

(** [c.Write(p)] *)
Definition Write (c : Conn) (p : list byte) : Z * option error * Conn :=
  if c_closed c then (0, Some (OpError "write" ErrClosed), c)
  else match c_room c with
       | None => (len p, None, set_out c (c_sent c ++ p) None)
       | Some k =>
           if len p <=? k
           then (len p, None, set_out c (c_sent c ++ p) (Some (k - len p)))
           else (k, Some (c_werr c), set_out c (c_sent c ++ upto k p) (Some 0))
       end.

(** [c.Close()] *)
Definition Close (c : Conn) : option error * Conn :=
  if c_closed c then (Some (OpError "close" ErrClosed), c)
  else (None, mkConn (c_in c) (c_rerr c) (c_sent c) (c_room c) (c_werr c) true
                     (c_readerFrom c)).

(** [c.ReadFrom(r)] of [*net.TCPConn], for a source that yields [bs] and
    then ends with [srcErr] ([None] for [io.EOF]): a plain copy loop, whose
    error is wrapped in an [OpError]. *)
Definition ReadFrom (c : Conn) (bs : list byte) (srcErr : option error)
  : Z * option error * Conn :=
  let '(n, err, c') :=
    match bs with
    | [] => (0, srcErr, c)
    | _ => let '(n, err, c') := Write c bs in
           (n, match err with Some e => Some e | None => srcErr end, c')
    end in
  (n, match err with Some e => Some (OpError "readfrom" e) | None => None end, c').

Definition set_in (c : Conn) (input : list byte) : Conn :=
  mkConn input (c_rerr c) (c_sent c) (c_room c) (c_werr c) (c_closed c) (c_readerFrom c).

(** [c.Read(buf)] for a buffer of [size] bytes, when [k] of the pending
    bytes have arrived: at least one byte and at most [size] of them; the
    connection's error once nothing is pending; an error at once on a
    connection closed on this side.  Returns the bytes put in [buf], the
    error and the connection. *)
Definition Read (c : Conn) (size : Z) (k : Z) : list byte * option error * Conn :=
  if c_closed c then ([], Some (OpError "read" ErrClosed), c)
  else match c_in c with
       | [] => ([], Some (c_rerr c), c)
       | _ =>
           let n := Z.min size (Z.max 1 (Z.min k (len (c_in c)))) in
           (upto n (c_in c), None, set_in c (from n (c_in c)))
       end.

End net.

(** A [*bufio.Reader] over a connection: the unread bytes and the error that
    follows them. *)
Record Reader : Type := mkReader {
  r_data : list byte;
  r_err : error
}.

(** A [*bufio.Writer]: the bytes buffered ([b.buf[0:b.n]]), the buffer size
    ([len(b.buf)]) and the sticky error ([b.err]).  The connection it writes
    to ([b.wr]) is the proxy's own [Conn], so every operation takes and
    returns that connection. *)
Record Writer : Type := mkWriter {
  w_buf : list byte;
  w_size : Z;
  w_err : option error
}.

Module bufio.

Definition NewReader (c : Conn) : Reader := mkReader (c_in c) (c_rerr c).

Definition defaultBufSize : Z := 4096.

Definition NewWriterSize (size : Z) : Writer :=
  mkWriter [] (if size <=? 0 then defaultBufSize else size) None.

Definition Available (b : Writer) : Z := w_size b - len (w_buf b).
Definition Buffered (b : Writer) : Z := len (w_buf b).

(** [b.ReadByte()] *)
Definition ReadByte (r : Reader) : byte * option error * Reader :=
  match r_data r with
  | [] => (Byte.x00, Some (r_err r), r)
  | b :: rest => (b, None, mkReader rest (r_err r))
  end.

(** [b.Flush()] *)
Definition Flush (b : Writer) (wr : Conn) : option error * Writer * Conn :=
  match w_err b with
  | Some e => (Some e, b, wr)
  | None =>
      if Buffered b =? 0 then (None, b, wr)
      else
        let '(n, err, wr') := net.Write wr (w_buf b) in
        let err := match err with
                   | None => if n <? Buffered b then Some ErrShortWrite else None
                   | Some e => Some e
                   end in
        match err with
        | Some e => (Some e, mkWriter (from n (w_buf b)) (w_size b) (Some e), wr')
        | None => (None, mkWriter [] (w_size b) None, wr')
        end
  end.

(** The loop of [b.Write(p)] and of [b.WriteString(s)]:
    [for len(p) > b.Available() && b.err == nil].  [direct] says whether a
    large write on an empty buffer goes to the connection without copying
    (always for [Write]; for [WriteString] only if the connection has a
    [WriteString] method).  Returns the writer, the connection, the rest of
    [p] and the count [nn]. *)
Fixpoint write_loop (direct : bool) (fuel : nat) (b : Writer) (wr : Conn)
         (p : list byte) (nn : Z) : Writer * Conn * list byte * Z :=
  match fuel with
  | O => (b, wr, p, nn)
  | S fuel' =>
      if (Available b <? len p) && bool_decide (w_err b = None) then
        if (Buffered b =? 0) && direct then
          let '(n, err, wr') := net.Write wr p in
          write_loop direct fuel' (mkWriter (w_buf b) (w_size b) err) wr' (from n p) (nn + n)
        else
          let n := Z.min (Available b) (len p) in
          let '(_, b', wr') := Flush (mkWriter (w_buf b ++ upto n p) (w_size b) (w_err b)) wr in
          write_loop direct fuel' b' wr' (from n p) (nn + n)
      else (b, wr, p, nn)
  end.

Definition write_with (direct : bool) (b : Writer) (wr : Conn) (p : list byte)
  : Z * option error * Writer * Conn :=
  let '(b', wr', p', nn) := write_loop direct (2 + length p) b wr p 0 in
  match w_err b' with
  | Some e => (nn, Some e, b', wr')
  | None =>
      let n := Z.min (Available b') (len p') in
      (nn + n, None, mkWriter (w_buf b' ++ upto n p') (w_size b') None, wr')
  end.

(** [b.Write(p)] *)
Definition Write (b : Writer) (wr : Conn) (p : list byte) :=
  write_with true b wr p.

(** [b.WriteString(s)]; a [net.Conn] has no [WriteString] method. *)
Definition WriteString (b : Writer) (wr : Conn) (s : string) :=
  write_with false b wr (String.list_byte_of_string s).

(** The loop of [b.ReadFrom(r)], for a source that yields [bs] and then
    ends with [srcErr] ([None] for [io.EOF]).  The source is read in pieces
    that fit the free part of the buffer; what the loop does between two
    reads depends on the buffer being full or empty only, so the pieces are
    taken one byte long.  Returns the count, the error, the writer, the
    connection and the bytes of [bs] not read. *)
Fixpoint readFrom_loop (b : Writer) (wr : Conn) (bs : list byte)
         (srcErr : option error) (n : Z)
  : Z * option error * Writer * Conn * list byte :=
  let '(err1, b1, wr1) :=
    if Available b =? 0 then Flush b wr else (None, b, wr) in
  match err1 with
  | Some e => (n, Some e, b1, wr1, bs)
  | None =>
      if c_readerFrom wr1 && (Buffered b1 =? 0) then
        let '(nn, err, wr2) := net.ReadFrom wr1 bs srcErr in
        (n + nn, err, mkWriter (w_buf b1) (w_size b1) err, wr2, [])
      else
        match bs with
        | [] =>
            match srcErr with
            | Some e => (n, Some e, b1, wr1, [])
            | None =>
                if Available b1 =? 0
                then let '(err, b2, wr2) := Flush b1 wr1 in (n, err, b2, wr2, [])
                else (n, None, b1, wr1, [])
            end
        | c :: bs' =>
            readFrom_loop (mkWriter (w_buf b1 ++ [c]) (w_size b1) (w_err b1)) wr1 bs' srcErr (n + 1)
        end
  end.

(** [b.ReadFrom(r)] *)
Definition ReadFrom (b : Writer) (wr : Conn) (bs : list byte) (srcErr : option error)
  : Z * option error * Writer * Conn * list byte :=
  match w_err b with
  | Some e => (0, Some e, b, wr, bs)
  | None => readFrom_loop b wr bs srcErr 0
  end.

End bufio.

Module io.

(** [io.ReadFull(r, buf)]: returns the count, the error, the new contents
    of [buf] and the reader. *)
Definition ReadFull (r : Reader) (buf : list byte)
  : Z * option error * list byte * Reader :=
  let got := firstn (length buf) (r_data r) in
  if (length got =? length buf)%nat
  then (len got, None, got, mkReader (skipn (length buf) (r_data r)) (r_err r))
  else
    let err := match r_err r with
               | EOF => if 0 <? len got then ErrUnexpectedEOF else EOF
               | e => e
               end in
    (len got, Some err, got ++ skipn (length got) buf, mkReader [] (r_err r)).

(** [io.CopyN(dst, src, n)] for a [*bufio.Writer] destination: [io.Copy]
    from a [LimitedReader] hands over to [dst.ReadFrom]. *)
Definition CopyN (dst : Writer) (wr : Conn) (src : Reader) (n : Z)
  : Z * option error * Writer * Conn * Reader :=
  let bs := upto n (r_data src) in
  let srcErr := if len bs <? n
                then match r_err src with EOF => None | e => Some e end
                else None in
  let '(written, err, dst', wr', unread) := bufio.ReadFrom dst wr bs srcErr in
  let src' := mkReader (unread ++ from n (r_data src)) (r_err src) in
  if written =? n then (n, None, dst', wr', src')
  else
    let err := match err with
               | None => if written <? n then Some EOF else None
               | Some e => Some e
               end in
    (written, err, dst', wr', src').

End io.

(** ** Buffer pools *)

(** A [sync.Pool] of byte slices: the idle buffers, each with the contents
    its last user left in it.  [Get] takes an idle buffer if there is one and
    calls [New] otherwise; [Put] makes a buffer idle. *)
Record Pools : Type := mkPools {
  cmdBufPool : list (list byte);
  chunkBufPool : list (list byte)
}.

Module pool.

Definition Get (New : list byte) (idle : list (list byte)) : list byte * list (list byte) :=
  match idle with
  | buf :: idle' => (buf, idle')
  | [] => (New, [])
  end.

Definition Put (buf : list byte) (idle : list (list byte)) : list (list byte) :=
  buf :: idle.

(** [make([]byte, 0, 256)] *)
Definition cmdBuf_New : list byte := [].

(** [make([]byte, 32*1024)] *)
Definition chunkBuf_New : list byte := repeat Byte.x00 (Z.to_nat (32 * 1024)).

End pool.

(** ** [readCommand] *)

(** The loop of [readCommand].  [cmdBytes] is the slice being appended to
    and [buf] the slice stored behind [bufPtr], which is what goes back to the
    pool.  Returns the command, the delimiter, the error, the unread input
    and [*bufPtr]. *)
Fixpoint readCommand_loop (r_err : error) (data : list byte) (cmdBytes buf : list byte)
  : string * byte * option error * list byte * list byte :=
  match data with
  | [] => (EmptyString, Byte.x00, Some r_err, [], buf)
  | b :: data' =>
      if Byte.eqb b nullDelimiter || Byte.eqb b newlineDelimiter
      then (String.string_of_list_byte cmdBytes, b, None, data', buf)
      else
        let cmdBytes := cmdBytes ++ [b] in
        readCommand_loop r_err data' cmdBytes cmdBytes
  end.

Definition readCommand (reader : Reader) (pools : Pools)
  : string * byte * option error * Reader * Pools :=
  let '(bufPtr, idle) := pool.Get pool.cmdBuf_New (cmdBufPool pools) in
  let cmdBytes := firstn 0 bufPtr in
  let '(cmd, delim, err, rest, bufPtr') :=
    readCommand_loop (r_err reader) (r_data reader) cmdBytes bufPtr in
  (cmd, delim, err, mkReader rest (r_err reader),
   mkPools (pool.Put bufPtr' idle) (chunkBufPool pools)).

(** ** The proxy session *)

Record ClamdProxy : Type := mkProxy {
  client : Conn;
  backend : Conn;
  backendBuf : Writer;
  clientBuf : Writer
}.

Definition NewClamdProxy (client backend : Conn) : ClamdProxy :=
  mkProxy client backend
          (bufio.NewWriterSize (64 * 1024)) (bufio.NewWriterSize (64 * 1024)).

Definition set_backend (p : ClamdProxy) (b : Writer) (wr : Conn) : ClamdProxy :=
  mkProxy (client p) wr b (clientBuf p).

Definition set_client (p : ClamdProxy) (b : Writer) (wr : Conn) : ClamdProxy :=
  mkProxy wr (backend p) (backendBuf p) b.

(** ** [handleInstream] *)

(** [int(sizeBytes[0])<<24 | int(sizeBytes[1])<<16 | int(sizeBytes[2])<<8 | int(sizeBytes[3])] *)
Definition chunk_size (sizeBytes : list byte) : Z :=
  let at_ (i : nat) := byteZ (nth i sizeBytes Byte.x00) in
  Z.lor (Z.lor (Z.lor (wrap_int (Z.shiftl (at_ 0%nat) 24))
                      (wrap_int (Z.shiftl (at_ 1%nat) 16)))
               (wrap_int (Z.shiftl (at_ 2%nat) 8)))
        (at_ 3%nat).

(** The state of the chunk loop: the session, the client reader, the pools,
    the local [sizeBytes] and the counter [chunks].  ([totalBytes] is only
    logged.) *)
Record InstreamState : Type := mkInstream {
  is_proxy : ClamdProxy;
  is_reader : Reader;
  is_pools : Pools;
  is_sizeBytes : list byte;
  is_chunks : Z
}.

(** One pass through the body of the chunk loop: [inl] when the function
    returns from inside the loop or leaves it by [break] (with the error
    returned, [None] standing for the [break]), [inr] when the loop goes
    round again. *)
Definition handleInstream_body (st : InstreamState)
  : (option error * InstreamState) + InstreamState :=
  let p := is_proxy st in
  let pools := is_pools st in
  let chunks := is_chunks st in
  (* io.ReadFull(reader, sizeBytes) *)
  let '(_, err, sizeBytes, reader) := io.ReadFull (is_reader st) (is_sizeBytes st) in
  match err with
  | Some e =>
      inl (Some (wrapError "failed to read chunk size" e),
           mkInstream p reader pools sizeBytes chunks)
  | None =>
      (* p.backendBuf.Write(sizeBytes) *)
      let '(_, err, b, wr) := bufio.Write (backendBuf p) (backend p) sizeBytes in
      let p := set_backend p b wr in
      match err with
      | Some e =>
          inl (Some (wrapError "failed to forward chunk size" e),
               mkInstream p reader pools sizeBytes chunks)
      | None =>
          let size := chunk_size sizeBytes in
          if size =? 0 then inl (None, mkInstream p reader pools sizeBytes chunks)
          else
            let after_chunk (p : ClamdProxy) (reader : Reader) (pools : Pools) :=
              let chunks := wrap_int (chunks + 1) in
              if Z.rem chunks 10 =? 0 then
                let '(err, b, wr) := bufio.Flush (backendBuf p) (backend p) in
                let p := set_backend p b wr in
                match err with
                | Some e =>
                    inl (Some (wrapError "failed to flush data" e),
                         mkInstream p reader pools sizeBytes chunks)
                | None => inr (mkInstream p reader pools sizeBytes chunks)
                end
              else inr (mkInstream p reader pools sizeBytes chunks) in
            if size <=? 32 * 1024 then
              let '(chunk, idle) := pool.Get pool.chunkBuf_New (chunkBufPool pools) in
              (* io.ReadFull(reader, chunk[:size]) writes into the pooled buffer *)
              let '(_, err, filled, reader) := io.ReadFull reader (upto size chunk) in
              let chunk := filled ++ from size chunk in
              let pools' := mkPools (cmdBufPool pools) (pool.Put chunk idle) in
              match err with
              | Some e =>
                  inl (Some (wrapError "failed to read chunk data" e),
                       mkInstream p reader pools' sizeBytes chunks)
              | None =>
                  let '(_, err, b, wr) :=
                    bufio.Write (backendBuf p) (backend p) (upto size chunk) in
                  let p := set_backend p b wr in
                  match err with
                  | Some e =>
                      inl (Some (wrapError "failed to forward chunk data" e),
                           mkInstream p reader pools' sizeBytes chunks)
                  | None => after_chunk p reader pools'
                  end
              end
            else
              let '(_, err, b, wr, reader) :=
                io.CopyN (backendBuf p) (backend p) reader size in
              let p := set_backend p b wr in
              match err with
              | Some e =>
                  inl (Some (wrapError "failed to copy chunk data" e),
                       mkInstream p reader pools sizeBytes chunks)
              | None => after_chunk p reader pools
              end
      end
  end.

(** The chunk loop; [None] when [fuel] passes through the body are not
    enough to leave it. *)
Fixpoint handleInstream_loop (fuel : nat) (st : InstreamState)
  : option (option error * InstreamState) :=
  match fuel with
  | O => None
  | S fuel' =>
      match handleInstream_body st with
      | inl (Some e, st') => Some (Some e, st')
      | inl (None, st') =>
          (* after the loop: the final flush *)
          let p := is_proxy st' in
          let '(err, b, wr) := bufio.Flush (backendBuf p) (backend p) in
          let st'' := mkInstream (set_backend p b wr) (is_reader st') (is_pools st')
                                 (is_sizeBytes st') (is_chunks st') in
          match err with
          | Some e => Some (Some (wrapError "failed to flush final data" e), st'')
          | None => Some (None, st'')
          end
      | inr st' => handleInstream_loop fuel' st'
      end
  end.

(** [p.handleInstream(reader)].  Every pass through the loop reads four
    bytes or returns, so one pass more than there are unread bytes always
    suffices ([handleInstream_total]). *)
Definition handleInstream (p : ClamdProxy) (reader : Reader) (pools : Pools)
  : option (option error * ClamdProxy * Reader * Pools) :=
  let st := mkInstream p reader pools (repeat Byte.x00 4) 0 in
  match handleInstream_loop (S (length (r_data reader))) st with
  | Some (err, st') => Some (err, is_proxy st', is_reader st', is_pools st')
  | None => None
  end.

(** ** [handleClientToBackend] *)

(** The rejection sent to the client. *)
Definition response : string :=
  String.append "ERROR: Command not allowed" (String (Ascii.ascii_of_byte Byte.x0a) EmptyString).

(** The statement that ended the loop.  The function returns nothing; each of
    these exits logs a message of its own. *)
Inductive exit : Type :=
| ReadCommandFailed (err : error)       (* "Client disconnected" / "Client connection closed" / "Error reading command" *)
| ForwardCommandFailed (err : error)    (* "Error forwarding command" *)
| FlushCommandFailed (err : error)      (* "Error flushing command" *)
| InstreamFailed (err : error)          (* "Error handling INSTREAM data" *)
| SendResponseFailed (err : error)      (* "Error sending error response" *)
| FlushResponseFailed (err : error)     (* "Error flushing error response" *)
| StillRunning.                         (* the passes allowed did not end the loop *)

Record Session : Type := mkSession {
  s_proxy : ClamdProxy;
  s_reader : Reader;
  s_pools : Pools
}.

(** One pass through the body of the loop of [handleClientToBackend]: [inl]
    when the loop is left, [inr] when it goes round again. *)
Definition handleClientToBackend_body (s : Session) : (exit * Session) + Session :=
  let p := s_proxy s in
  let '(cmd, delim, err, reader, pools) := readCommand (s_reader s) (s_pools s) in
  match err with
  | Some e =>
      (* Close the backend connection to signal we're done *)
      let '(_, wr) := net.Close (backend p) in
      inl (ReadCommandFailed e, mkSession (set_backend p (backendBuf p) wr) reader pools)
  | None =>
      if isCommandAllowed cmd then
        let '(_, err, b, wr) :=
          bufio.Write (backendBuf p) (backend p) (String.list_byte_of_string cmd ++ [delim]) in
        let p := set_backend p b wr in
        match err with
        | Some e => inl (ForwardCommandFailed e, mkSession p reader pools)
        | None =>
            let '(err, b, wr) := bufio.Flush (backendBuf p) (backend p) in
            let p := set_backend p b wr in
            match err with
            | Some e => inl (FlushCommandFailed e, mkSession p reader pools)
            | None =>
                if isInstreamCommand cmd then
                  match handleInstream p reader pools with
                  | None => inl (StillRunning, mkSession p reader pools)
                  | Some (Some e, p, reader, pools) =>
                      inl (InstreamFailed e, mkSession p reader pools)
                  | Some (None, p, reader, pools) => inr (mkSession p reader pools)
                  end
                else inr (mkSession p reader pools)
            end
        end
      else
        let '(_, err, b, wr) := bufio.WriteString (clientBuf p) (client p) response in
        let p := set_client p b wr in
        match err with
        | Some e => inl (SendResponseFailed e, mkSession p reader pools)
        | None =>
            let '(err, b, wr) := bufio.Flush (clientBuf p) (client p) in
            let p := set_client p b wr in
            match err with
            | Some e => inl (FlushResponseFailed e, mkSession p reader pools)
            | None => inr (mkSession p reader pools)
            end
        end
  end.

Fixpoint handleClientToBackend_loop (fuel : nat) (s : Session) : exit * Session :=
  match fuel with
  | O => (StillRunning, s)
  | S fuel' =>
      match handleClientToBackend_body s with
      | inl r => r
      | inr s' => handleClientToBackend_loop fuel' s'
      end
  end.

(** [p.handleClientToBackend()].  Every pass through the loop reads at least
    the delimiter of a command or leaves the loop, so one pass more than
    there are unread bytes always suffices ([handleClientToBackend_total]). *)
Definition handleClientToBackend (p : ClamdProxy) (pools : Pools) : exit * Session :=
  let reader := bufio.NewReader (client p) in
  handleClientToBackend_loop (S (length (r_data reader))) (mkSession p reader pools).

(** ** [Start] *)

(** The message [Start] logs when its loop is over. *)
Inductive start_log : Type :=
| BackendConnectionClosed (err : error)   (* "Backend connection closed" *)
| ErrorCopying (err : error)              (* "Error copying from backend to client" *)
| ProxyCompleted (bytesTransferred : Z).  (* "Proxy completed" *)

(** One pass through the body of the backend->client loop of [Start], for a
    read that finds [k] bytes arrived: [inl] when the loop is left by
    [break], with the value of [err], [inr] when it goes round again. *)
Definition Start_body (k : Z) (p : ClamdProxy) (bytesWritten : Z)
  : (option error * ClamdProxy * Z) + (ClamdProxy * Z) :=
  (* nr, er := p.backend.Read(buf) *)
  let '(buf, er, bk) := net.Read (backend p) (64 * 1024) k in
  let p := set_backend p (backendBuf p) bk in
  let nr := len buf in
  let '(err, p, bytesWritten) :=
    if 0 <? nr then
      (* nw, ew := p.clientBuf.Write(buf[0:nr]) *)
      let '(nw, ew, b, wr) := bufio.Write (clientBuf p) (client p) buf in
      let p := set_client p b wr in
      let bytesWritten := if 0 <? nw then wrap_int (bytesWritten + nw) else bytesWritten in
      match ew with
      | Some e => (Some e, p, bytesWritten)
      | None =>
          if negb (nr =? nw) then (Some ErrShortWrite, p, bytesWritten)
          else (None, p, bytesWritten)
      end
    else (None, p, bytesWritten) in
  match err with
  | Some e => inl (Some e, p, bytesWritten)
  | None =>
      match er with
      | Some e =>
          (* if er != io.EOF { err = er } *)
          inl (if errors.eq_target e EOF then None else Some e, p, bytesWritten)
      | None =>
          if 32 * 1024 <? bufio.Buffered (clientBuf p) then
            (* the error of this flush is only logged *)
            let '(_, b, wr) := bufio.Flush (clientBuf p) (client p) in
            inr (set_client p b wr, bytesWritten)
          else inr (p, bytesWritten)
      end
  end.

(** The loop; [arrived i] is the number of bytes the read of pass [i]
    finds.  [None] when [fuel] passes are not enough to leave the loop. *)
Fixpoint Start_loop (fuel : nat) (arrived : nat -> Z) (pass : nat)
         (p : ClamdProxy) (bytesWritten : Z)
  : option (option error * ClamdProxy * Z) :=
  match fuel with
  | O => None
  | S fuel' =>
      match Start_body (arrived pass) p bytesWritten with
      | inl r => Some r
      | inr (p', bytesWritten') => Start_loop fuel' arrived (S pass) p' bytesWritten'
      end
  end.

(** What [p.Start()] does in the calling goroutine, the backend->client
    direction: the loop, the final flush, whose error is only logged, and
    the message logged.  The statement [go p.handleClientToBackend()] is not
    part of it: the client->backend direction, which [Start] leaves to a
    goroutine of its own, is [handleClientToBackend] above, and the two are
    run apart here.  So this says what the calling goroutine reads, writes
    and logs, not what the connections hold once the other goroutine has
    run as well.  Every pass through the loop takes at least one byte from
    the backend or leaves the loop, so one pass more than there are pending
    bytes always suffices. *)
Definition Start (arrived : nat -> Z) (p : ClamdProxy) : option (start_log * ClamdProxy) :=
  match Start_loop (S (length (c_in (backend p)))) arrived 0 p 0 with
  | None => None
  | Some (err, p, bytesWritten) =>
      let '(_, b, wr) := bufio.Flush (clientBuf p) (client p) in
      let p := set_client p b wr in
      Some (match err with
            | Some e =>
                if isConnectionClosed (Some e) then BackendConnectionClosed e
                else ErrorCopying e
            | None => ProxyCompleted bytesWritten
            end, p)
  end.

(** ** The test client *)

Module binary.

(** The conversion [byte(x)] of an unsigned integer. *)
Definition to_byte (x : Z) : byte :=
  match Byte.of_N (Z.to_N (x mod 256)) with
  | Some b => b
  | None => Byte.x00
  end.

(** [binary.BigEndian.PutUint32(b, v)] for a slice [b] of four bytes:
    [b[0] = byte(v >> 24)], [b[1] = byte(v >> 16)], [b[2] = byte(v >> 8)],
    [b[3] = byte(v)]. *)
Definition PutUint32 (v : Z) : list byte :=
  [to_byte (Z.shiftr v 24); to_byte (Z.shiftr v 16); to_byte (Z.shiftr v 8); to_byte v].

End binary.


Module test_client.

(** [fullCmd] in [testCommand]: the command with the terminator of its
    protocol variant. *)
Definition fullCmd (cmd : string) : string :=
  if GoStrings.HasPrefix cmd "z"
  then String.append cmd (String (Ascii.ascii_of_byte Byte.x00) EmptyString)
  else if GoStrings.HasPrefix cmd "n"
       then String.append cmd (String (Ascii.ascii_of_byte Byte.x0a) EmptyString)
       else String.append cmd (String (Ascii.ascii_of_byte Byte.x0a) EmptyString).


End test_client.

(** ** The specification's own notions, and invariants of the model *)

(** Definitions that follow the words of the specification, to be compared
    with the definitions above, which follow the code. *)
Module Spec.

Fixpoint skip_while {A} (f : A -> bool) (l : list A) : list A :=
  match l with
  | x :: l' => if f x then skip_while f l' else l
  | [] => []
  end.

Fixpoint take_while {A} (f : A -> bool) (l : list A) : list A :=
  match l with
  | x :: l' => if f x then x :: take_while f l' else []
  | [] => []
  end.

Definition is_space (r : Z * list byte) : bool := unicode.IsSpace (fst r).

(** "the first whitespace-separated token": what lies between the leading
    white space and the next white space, if anything does. *)
Definition first_token (cmd : string) : option string :=
  let rs := skip_while is_space (utf8.runes (String.list_byte_of_string cmd)) in
  match take_while (fun r => negb (is_space r)) rs with
  | [] => None
  | tok => Some (String.string_of_list_byte (concat (map snd tok)))
  end.

(** "after stripping a single leading 'z' or 'n' character if present" *)
Definition strip_variant (tok : string) : string :=
  match tok with
  | String a rest => if (a =? "z")%char || (a =? "n")%char then rest else tok
  | EmptyString => tok
  end.

Definition allowed_names : list string :=
  ["PING"; "VERSION"; "VERSIONCOMMANDS"; "INSTREAM"].

(** A byte of a plain token: ASCII and not white space. *)
Definition plain (b : byte) : Prop :=
  byteZ b < 0x80 /\ unicode.IsSpace (byteZ b) = false.

(** "empty or whitespace-only input" *)
Definition blank (cmd : string) : bool :=
  forallb is_space (utf8.runes (String.list_byte_of_string cmd)).

(** The errors of the chain of [e]: [e] itself and what [Unwrap] gives,
    repeatedly. *)
Inductive in_chain : error -> error -> Prop :=
| in_chain_here (e : error) : in_chain e e
| in_chain_next (e e' x : error) :
    errors.Unwrap e = Some e' -> in_chain e' x -> in_chain e x.

(** The first error of the chain of [e] of a type given by [P]. *)
Inductive first_in_chain (P : error -> bool) : error -> error -> Prop :=
| first_here (e : error) : P e = true -> first_in_chain P e e
| first_next (e e' x : error) :
    P e = false -> errors.Unwrap e = Some e' ->
    first_in_chain P e' x -> first_in_chain P e x.

(** "a timeout error": seen as a [net.Error], the error reports a timeout. *)
Definition timeout_error (e : error) : Prop :=
  exists netErr, first_in_chain errors.is_net_Error e netErr
                 /\ errors.Timeout netErr = true.

(** "a wrapped operational network error" *)
Definition operational_error (e : error) : Prop :=
  exists Op Err, in_chain e (OpError Op Err).

(** "end-of-stream, unexpected-end-of-stream, broken-pipe, and
    connection-reset errors" *)
Definition closure_signal (e : error) : Prop :=
  in_chain e EOF \/ in_chain e ErrUnexpectedEOF
  \/ in_chain e (Errno syscall.EPIPE) \/ in_chain e (Errno syscall.ECONNRESET).

(** A target of [errors.Is] that only itself equals, as the sentinels and
    the [syscall.Errno] values that [isConnectionClosed] looks for. *)
Definition sentinel (t : error) : Prop :=
  forall x, errors.eq_target x t = true <-> x = t.

(** "4-byte big-endian length": the unsigned number the four bytes spell. *)
Definition be32 (hdr : list byte) : Z :=
  match hdr with
  | [b0; b1; b2; b3] => ((byteZ b0 * 256 + byteZ b1) * 256 + byteZ b2) * 256 + byteZ b3
  | _ => 0
  end.

(** "a sequence of (4-byte big-endian length N, N payload bytes) pairs ending
    with a 4-byte zero length" *)
Inductive chunk_stream : list byte -> Prop :=
| stream_end : chunk_stream [Byte.x00; Byte.x00; Byte.x00; Byte.x00]
| stream_chunk (hdr payload rest : list byte) :
    length hdr = 4%nat -> be32 hdr = len payload -> 0 < len payload ->
    chunk_stream rest ->
    chunk_stream (hdr ++ payload ++ rest).

(** A connection that takes every write: not closed, no failure ahead. *)
Definition accepts_writes (c : Conn) : Prop :=
  c_closed c = false /\ c_room c = None.

(** A buffered writer in working order: no sticky error, a buffer of
    positive size holding no more than its size. *)
Definition in_order (b : Writer) : Prop :=
  w_err b = None /\ 0 < w_size b /\ len (w_buf b) <= w_size b.

(** The connection after it has taken the bytes [p]. *)
Definition received (c : Conn) (p : list byte) : Conn :=
  net.set_out c (c_sent c ++ p) (c_room c).

(** The bytes given to the backend so far, in order: those the connection
    has taken and those still in the buffer. *)
Definition forwarded (p : ClamdProxy) : list byte :=
  c_sent (backend p) ++ w_buf (backendBuf p).

(** The same for the client side. *)
Definition answered (p : ClamdProxy) : list byte :=
  c_sent (client p) ++ w_buf (clientBuf p).

(** Every idle chunk buffer has the size it was made with. *)
Definition chunk_buffers_sized (pools : Pools) : Prop :=
  Forall (fun buf => len buf = 32 * 1024) (chunkBufPool pools).

(** The invariant of the chunk loop on a working backend. *)
Definition relay_ok (st : InstreamState) : Prop :=
  in_order (backendBuf (is_proxy st))
  /\ accepts_writes (backend (is_proxy st))
  /\ length (is_sizeBytes st) = 4%nat
  /\ chunk_buffers_sized (is_pools st).

(** "a NUL (0x00) or LF (0x0A) byte" *)
Definition delimiter (b : byte) : Prop := b = Byte.x00 \/ b = Byte.x0a.

(** A buffered writer as [bufio] makes them: a buffer of positive size
    holding no more than its size. *)
Definition well_formed (b : Writer) : Prop :=
  0 < w_size b /\ len (w_buf b) <= w_size b.

(** The bytes a writer and its connection hold between them, in order. *)
Definition stream (b : Writer) (wr : Conn) : list byte := c_sent wr ++ w_buf b.

(** What a pass through the chunk loop does to the session, whatever the
    input and whatever the state of the backend connection. *)
Definition pass_invariant (st st' : InstreamState) : Prop :=
  well_formed (backendBuf (is_proxy st'))
  /\ chunk_buffers_sized (is_pools st')
  /\ cmdBufPool (is_pools st') = cmdBufPool (is_pools st)
  /\ client (is_proxy st') = client (is_proxy st)
  /\ clientBuf (is_proxy st') = clientBuf (is_proxy st).



(** Everything the client->backend direction can have done with an input,
    whatever the connections did: the bytes it gave to the backend and the
    bytes it gave to the client.  A command that is not allowed gives the
    backend nothing and the client the rejection, or a part of it when the
    write failed; an allowed command is given to the backend with its
    delimiter, or a part of it; after a streaming command the bytes that
    follow are given to the backend, a whole chunk stream when the relay
    succeeds, else some of them; the loop can stop anywhere. *)
Inductive relayed : list byte -> list byte -> list byte -> Prop :=
| relayed_stop (input : list byte) :
    relayed input [] []
| relayed_rejected (cmd rest out ans : list byte) (d : byte) :
    Forall (fun b => ~ delimiter b) cmd -> delimiter d ->
    isCommandAllowed (String.string_of_list_byte cmd) = false ->
    relayed rest out ans ->
    relayed (cmd ++ d :: rest) out (String.list_byte_of_string response ++ ans)
| relayed_rejected_cut (cmd rest q : list byte) (d : byte) :
    Forall (fun b => ~ delimiter b) cmd -> delimiter d ->
    isCommandAllowed (String.string_of_list_byte cmd) = false ->
    q `prefix_of` String.list_byte_of_string response ->
    relayed (cmd ++ d :: rest) [] q
| relayed_forwarded (cmd rest out ans : list byte) (d : byte) :
    Forall (fun b => ~ delimiter b) cmd -> delimiter d ->
    isCommandAllowed (String.string_of_list_byte cmd) = true ->
    isInstreamCommand (String.string_of_list_byte cmd) = false ->
    relayed rest out ans ->
    relayed (cmd ++ d :: rest) (cmd ++ d :: out) ans
| relayed_forwarded_cut (cmd rest q : list byte) (d : byte) :
    Forall (fun b => ~ delimiter b) cmd -> delimiter d ->
    isCommandAllowed (String.string_of_list_byte cmd) = true ->
    q `prefix_of` cmd ++ [d] ->
    relayed (cmd ++ d :: rest) q []
| relayed_streamed (cmd data rest out ans : list byte) (d : byte) :
    Forall (fun b => ~ delimiter b) cmd -> delimiter d ->
    isCommandAllowed (String.string_of_list_byte cmd) = true ->
    isInstreamCommand (String.string_of_list_byte cmd) = true ->
    chunk_stream data ->
    relayed rest out ans ->
    relayed (cmd ++ d :: data ++ rest) (cmd ++ d :: data ++ out) ans
| relayed_streamed_cut (cmd rest q : list byte) (d : byte) :
    Forall (fun b => ~ delimiter b) cmd -> delimiter d ->
    isCommandAllowed (String.string_of_list_byte cmd) = true ->
    isInstreamCommand (String.string_of_list_byte cmd) = true ->
    q `prefix_of` rest ->
    relayed (cmd ++ d :: rest) (cmd ++ d :: q) [].

End Spec.

(** ** Sample sessions, for the tests and examples below *)

(** A TCP connection on which the peer sends [input] and then closes, and
    which takes every write. *)
Definition sample_conn (input : list byte) : Conn :=
  mkConn input EOF [] None
         (OpError "write" (SyscallError "write" (Errno syscall.EPIPE))) false true.

(** A fresh session whose client sends [input]. *)
Definition sample_proxy (input : list byte) : ClamdProxy :=
  NewClamdProxy (sample_conn input) (sample_conn []).

(** The same with a backend that has gone away: every write fails. *)
Definition sample_proxy_backend_down (input : list byte) : ClamdProxy :=
  NewClamdProxy (sample_conn input)
                (mkConn [] EOF [] (Some 0)
                        (OpError "write" (SyscallError "write" (Errno syscall.EPIPE)))
                        false true).

Definition no_pools : Pools := mkPools [] [].

(** * Properties *)

(** Linear arithmetic on buffer lengths, and equations between result tuples
    that differ in such arithmetic only. *)
Ltac len_lia :=
  unfold bufio.Available, bufio.Buffered in *; unfold len in *; simpl in *; lia.
Ltac tuple_eq :=
  repeat (match goal with |- (_, _) = (_, _) => f_equal end); len_lia.

(** ** Strings *)

Module GoStringsFacts.
Import GoStrings.

Lemma str_app_nil_l (t : string) : "" +:+ t = t.
Proof. reflexivity. Qed.

Lemma str_app_cons (a : Ascii.ascii) (s t : string) :
  String a s +:+ t = String a (s +:+ t).
Proof. reflexivity. Qed.

Lemma str_length_app (s t : string) :
  String.length (s +:+ t) = (String.length s + String.length t)%nat.
Proof.
  induction s as [|a s IH]; rewrite ?str_app_nil_l, ?str_app_cons; simpl;
    [reflexivity | now rewrite IH].
Qed.

Lemma str_app_assoc (s t u : string) : (s +:+ t) +:+ u = s +:+ (t +:+ u).
Proof.
  induction s as [|a s IH]; rewrite ?str_app_nil_l, ?str_app_cons;
    [reflexivity | now rewrite IH].
Qed.

Lemma str_app_empty_r (s : string) : s +:+ "" = s.
Proof.
  induction s as [|a s IH]; rewrite ?str_app_nil_l, ?str_app_cons;
    [reflexivity | now rewrite IH].
Qed.

Lemma take_drop (n : nat) (s : string) : take n s +:+ drop n s = s.
Proof.
  revert s; induction n as [|n IH]; intros [|a s]; simpl;
    rewrite ?str_app_nil_l, ?str_app_cons; try reflexivity.
  now rewrite IH.
Qed.

Lemma take_app (p t : string) : take (String.length p) (p +:+ t) = p.
Proof.
  induction p as [|a p IH]; rewrite ?str_app_nil_l, ?str_app_cons; simpl.
  - now destruct t.
  - now rewrite IH.
Qed.

Lemma drop_app (p t : string) : drop (String.length p) (p +:+ t) = t.
Proof.
  induction p as [|a p IH]; rewrite ?str_app_nil_l, ?str_app_cons; simpl;
    [now destruct t | exact IH].
Qed.

Lemma HasPrefix_iff (s prefix : string) :
  HasPrefix s prefix = true <-> exists t, s = prefix +:+ t.
Proof.
  unfold HasPrefix. rewrite andb_true_iff, Nat.leb_le, String.eqb_eq. split.
  - intros [_ H]. exists (drop (String.length prefix) s).
    rewrite <- H at 1. symmetry. apply take_drop.
  - intros [t ->]. rewrite str_length_app, take_app. split; [lia | reflexivity].
Qed.

Lemma HasSuffix_iff (s suffix : string) :
  HasSuffix s suffix = true <-> exists t, s = t +:+ suffix.
Proof.
  unfold HasSuffix. rewrite andb_true_iff, Nat.leb_le, String.eqb_eq. split.
  - intros [_ H]. exists (take (String.length s - String.length suffix) s).
    rewrite <- H at 2. symmetry. apply take_drop.
  - intros [t ->]. rewrite str_length_app. split; [lia |].
    replace (String.length t + String.length suffix - String.length suffix)%nat
      with (String.length t) by lia.
    apply drop_app.
Qed.

(** A one-character prefix is the first character. *)
Lemma HasPrefix_char (s : string) (a : Ascii.ascii) :
  HasPrefix s (String a "") = true <-> exists t, s = String a t.
Proof. rewrite HasPrefix_iff. reflexivity. Qed.

End GoStringsFacts.

(** ** The streaming classifier *)

Section Instream.
Import GoStrings GoStringsFacts.

Lemma prefixed_INSTREAM (a : Ascii.ascii) (cmd : string) :
  a <> Ascii.ascii_of_byte Byte.x49 ->
  HasPrefix cmd (String a "") && HasSuffix cmd "INSTREAM" = true
  <-> exists mid, cmd = String a (mid +:+ "INSTREAM").
Proof.
  intros Ha. rewrite andb_true_iff, HasPrefix_char, HasSuffix_iff. split.
  - intros [[t ->] [u Hu]]. destruct u as [|b u].
    + rewrite str_app_nil_l in Hu. injection Hu as -> _. now destruct Ha.
    + rewrite str_app_cons in Hu. injection Hu as <- ->. now exists u.
  - intros [mid ->]. split; [now eexists | now exists (String a mid)].
Qed.

End Instream.

(** The table of [TestIsInstreamCommand]. *)
Example isInstreamCommand_test_table :
  map isInstreamCommand ["INSTREAM"; "zINSTREAM"; "nINSTREAM"; "PING"; "zPING"; "nVERSION"]
  = [false; true; true; false; false; false].
Proof. reflexivity. Qed.

(** The classifier compares a prefix and a suffix, not the whole string, so
    it is not true of zINSTREAM and nINSTREAM only: a string with anything
    between the variant character and INSTREAM is classified as streaming. *)
Lemma isInstreamCommand_not_only_exact :
  ~ (forall cmd : string,
        isInstreamCommand cmd = true -> cmd = "zINSTREAM" \/ cmd = "nINSTREAM").
Proof.
  intros H. destruct (H "zXINSTREAM" eq_refl) as [E | E]; discriminate E.
Qed.

(** Such a string can pass the allow-list as well: the first token decides
    there, the last characters here. *)
Example allowed_and_streaming :
  isCommandAllowed "zPING xINSTREAM" = true /\ isInstreamCommand "zPING xINSTREAM" = true.
Proof. split; vm_compute; reflexivity. Qed.

(** C1: the code does not do what its comment, its test table and the
    specification say.  [isInstreamCommand] is to be true of the two
    commands zINSTREAM and nINSTREAM only; it is true of zXINSTREAM, and of
    [zPING xINSTREAM], which the allow-list lets pass as a PING with an
    argument.  The failing input: the client sends that command and, framed
    as one chunk, the line SHUTDOWN.  The proxy takes what follows the
    command for a chunk stream and gives every byte of it to the backend,
    which was sent no streaming command, and the client is told nothing. *)
Theorem isInstreamCommand_streams_other_commands :
  isInstreamCommand "zXINSTREAM" = true
  /\ isCommandAllowed "zPING xINSTREAM" = true
  /\ isInstreamCommand "zPING xINSTREAM" = true
  /\ (let '(ex, s) :=
        handleClientToBackend
          (sample_proxy (String.list_byte_of_string "zPING xINSTREAM" ++ [Byte.x00]
                         ++ [Byte.x00; Byte.x00; Byte.x00; Byte.x09]
                         ++ String.list_byte_of_string "SHUTDOWN" ++ [Byte.x0a]
                         ++ [Byte.x00; Byte.x00; Byte.x00; Byte.x00]))
          no_pools in
      (ex, c_sent (backend (s_proxy s)), c_sent (client (s_proxy s))))
     = (ReadCommandFailed EOF,
        String.list_byte_of_string "zPING xINSTREAM" ++ [Byte.x00]
        ++ [Byte.x00; Byte.x00; Byte.x00; Byte.x09]
        ++ String.list_byte_of_string "SHUTDOWN" ++ [Byte.x0a]
        ++ [Byte.x00; Byte.x00; Byte.x00; Byte.x00],
        []).
Proof. split_and!; vm_compute; reflexivity. Qed.

(** What the code computes instead: [isInstreamCommand] is true exactly for
    the strings that start with 'z' or 'n' and end with INSTREAM, with any
    (possibly empty) middle part. *)
Lemma isInstreamCommand_prefix_suffix :
  (forall cmd : string,
      isInstreamCommand cmd = true
      <-> exists mid : string,
          cmd = "z" +:+ mid +:+ "INSTREAM" \/ cmd = "n" +:+ mid +:+ "INSTREAM")
  /\ isInstreamCommand "zINSTREAM" = true
  /\ isInstreamCommand "nINSTREAM" = true
  /\ isInstreamCommand "INSTREAM" = false
  /\ (forall cmd : string,
         GoStrings.HasSuffix cmd "INSTREAM" = false -> isInstreamCommand cmd = false).
Proof.
  split; [| repeat split; try reflexivity].
  - intros cmd. unfold isInstreamCommand. rewrite orb_true_iff.
    rewrite !prefixed_INSTREAM by discriminate. split.
    + intros [[mid ->] | [mid ->]]; exists mid; [left | right]; reflexivity.
    + intros [mid [-> | ->]]; [left | right]; exists mid; reflexivity.
  - intros cmd H. unfold isInstreamCommand. rewrite H, !andb_false_r. reflexivity.
Qed.

(** ** The allow-list *)

Section Allowed.
Import GoStrings GoStringsFacts Spec.

Lemma map_index_allowedCommands (k : string) :
  map_index allowedCommands k = true <-> In k allowed_names.
Proof.
  unfold map_index, allowedCommands, allowed_names. simpl.
  destruct (decide (k = "PING")) as [-> | H1]; [split; [tauto | reflexivity] |].
  rewrite lookup_insert_ne by congruence.
  destruct (decide (k = "INSTREAM")) as [-> | H2]; [split; [tauto | reflexivity] |].
  rewrite lookup_insert_ne by congruence.
  destruct (decide (k = "VERSION")) as [-> | H3]; [split; [tauto | reflexivity] |].
  rewrite lookup_insert_ne by congruence.
  destruct (decide (k = "VERSIONCOMMANDS")) as [-> | H4]; [split; [tauto | reflexivity] |].
  rewrite lookup_singleton_ne by congruence. simpl.
  split; [discriminate | intros [?|[?|[?|[?|[]]]]]; congruence].
Qed.

Lemma strip_prefix_code (tok : string) :
  (if HasPrefix tok "z" || HasPrefix tok "n" then drop 1 tok else tok)
  = strip_variant tok.
Proof.
  destruct tok as [|a rest]; [reflexivity |].
  unfold HasPrefix, strip_variant. simpl.
  destruct (a =? "z")%char, (a =? "n")%char; reflexivity.
Qed.

Lemma head_fields_go (f : Z * list byte -> bool) (g : Z -> bool)
      (rs : list (Z * list byte)) :
  (forall r, f r = g (fst r)) ->
  (forall w, head (fields_go g (Some w) rs)
             = Some (w ++ concat (map snd (take_while (fun r => negb (f r)) rs))))
  /\ head (fields_go g None rs)
     = match take_while (fun r => negb (f r)) (skip_while f rs) with
       | [] => None
       | tok => Some (concat (map snd tok))
       end.
Proof.
  intros Hf. induction rs as [|[r bs] rs [IHs IHn]]; simpl.
  - split; [intros w; now rewrite app_nil_r | reflexivity].
  - rewrite (Hf (r, bs)); simpl. destruct (g r) eqn:Hg; simpl.
    + split; [intros w; now rewrite app_nil_r | exact IHn].
    + rewrite (Hf (r, bs)); simpl. rewrite Hg; simpl. split.
      * intros w. rewrite IHs. now rewrite <- app_assoc.
      * rewrite IHs. reflexivity.
Qed.

Lemma head_Fields (cmd : string) : head (Fields cmd) = first_token cmd.
Proof.
  unfold Fields, FieldsFunc, first_token.
  destruct (head_fields_go is_space unicode.IsSpace
              (utf8.runes (String.list_byte_of_string cmd)) (fun r => eq_refl)) as [_ H].
  destruct (fields_go _ _ _) as [|w ws] eqn:E; simpl in *.
  - destruct (take_while _ _); [reflexivity | discriminate].
  - destruct (take_while _ _); [discriminate |]. now injection H as ->.
Qed.

Lemma isCommandAllowed_first_token (cmd : string) :
  isCommandAllowed cmd
  = match first_token cmd with
    | Some tok => map_index allowedCommands (strip_variant tok)
    | None => false
    end.
Proof.
  rewrite <- head_Fields. unfold isCommandAllowed.
  destruct (Fields cmd) as [|tok ?]; simpl; [reflexivity |].
  now rewrite strip_prefix_code.
Qed.

Lemma blank_first_token (cmd : string) :
  blank cmd = true -> first_token cmd = None.
Proof.
  unfold blank, first_token.
  induction (utf8.runes _) as [|r rs IH]; simpl; [reflexivity |].
  intros [Hr Hrs]%andb_true_iff. rewrite Hr. now apply IH.
Qed.

(** *** Arguments after an ASCII token *)

Lemma list_byte_of_string_app (s t : string) :
  String.list_byte_of_string (s +:+ t)
  = String.list_byte_of_string s ++ String.list_byte_of_string t.
Proof.
  induction s as [|a s IH]; rewrite ?str_app_nil_l, ?str_app_cons; [reflexivity |].
  unfold String.list_byte_of_string in *. simpl. now rewrite IH.
Qed.

Lemma DecodeRune_ascii (b : byte) (l : list byte) :
  byteZ b < 0x80 -> utf8.DecodeRune (b :: l) = (byteZ b, 1%nat).
Proof.
  intros H. unfold utf8.DecodeRune, utf8.first.
  destruct (byteZ b <? 128) eqn:E; [reflexivity | apply Z.ltb_ge in E; lia].
Qed.

Lemma runes_ascii_prefix (pre rest : list byte) :
  Forall (fun b => byteZ b < 0x80) pre ->
  utf8.runes (pre ++ rest) = map (fun b => (byteZ b, [b])) pre ++ utf8.runes rest.
Proof.
  unfold utf8.runes. induction 1 as [|b pre Hb _ IH]; [reflexivity |].
  rewrite <- app_comm_cons. cbn [utf8.runes_from].
  rewrite (DecodeRune_ascii b (pre ++ rest) Hb). cbn [map app firstn Nat.sub].
  now rewrite IH.
Qed.

Lemma first_token_plain (tok : list byte) (rest : list (Z * list byte)) :
  tok <> [] -> Forall plain tok ->
  match rest with
  | [] => True
  | r :: _ => is_space r = true
  end ->
  match take_while (fun r => negb (is_space r))
                   (skip_while is_space (map (fun b => (byteZ b, [b])) tok ++ rest)) with
  | [] => None
  | t => Some (String.string_of_list_byte (concat (map snd t)))
  end = Some (String.string_of_list_byte tok).
Proof.
  intros Hne Htok Hrest.
  assert (Htake : take_while (fun r => negb (is_space r))
                             (map (fun b => (byteZ b, [b])) tok ++ rest)
                  = map (fun b => (byteZ b, [b])) tok).
  { clear Hne. induction Htok as [|b tok [_ Hb] _ IH]; cbn [map app take_while].
    - destruct rest as [|r rest]; [reflexivity |]. cbn [take_while]. now rewrite Hrest.
    - assert (Hsp : is_space (byteZ b, [b]) = false) by exact Hb.
      rewrite Hsp. cbn [negb]. now rewrite IH. }
  destruct tok as [|b tok]; [congruence |].
  inversion Htok as [|? ? [_ Hb] Htok']; subst.
  assert (Hsp : is_space (byteZ b, [b]) = false) by exact Hb.
  cbn [map app skip_while]. rewrite Hsp.
  change ((byteZ b, [b]) :: map (fun b0 => (byteZ b0, [b0])) tok ++ rest)
    with (map (fun b0 => (byteZ b0, [b0])) (b :: tok) ++ rest).
  rewrite Htake. cbn [map]. f_equal. f_equal. cbn [concat snd app]. f_equal.
  clear. induction tok as [|c tok IH]; [reflexivity |]. simpl. now rewrite IH.
Qed.

(** Arguments that follow an ASCII token after a space do not change the
    decision. *)
Lemma isCommandAllowed_ignores_arguments (tok args : string) :
  tok <> EmptyString -> Forall plain (String.list_byte_of_string tok) ->
  isCommandAllowed (tok +:+ " " +:+ args) = isCommandAllowed tok.
Proof.
  intros Hne Htok.
  assert (Hbytes : String.list_byte_of_string tok <> []).
  { intros H. apply Hne. rewrite <- (String.string_of_list_byte_of_string tok), H.
    reflexivity. }
  assert (Hascii : Forall (fun b => byteZ b < 0x80) (String.list_byte_of_string tok)).
  { eapply List.Forall_impl; [| exact Htok]. intros b [H _]. exact H. }
  assert (H1 : first_token (tok +:+ " " +:+ args) = Some tok).
  { unfold first_token.
    rewrite !list_byte_of_string_app, runes_ascii_prefix by exact Hascii.
    change (String.list_byte_of_string " ") with [Byte.x20].
    rewrite (runes_ascii_prefix [Byte.x20]) by (repeat constructor).
    rewrite first_token_plain; try assumption; try reflexivity.
    now rewrite String.string_of_list_byte_of_string. }
  assert (H2 : first_token tok = Some tok).
  { unfold first_token.
    rewrite <- (app_nil_r (String.list_byte_of_string tok)).
    rewrite runes_ascii_prefix by exact Hascii.
    rewrite first_token_plain; try assumption; try exact I.
    now rewrite String.string_of_list_byte_of_string. }
  now rewrite !isCommandAllowed_first_token, H1, H2.
Qed.

End Allowed.

Example isCommandAllowed_ignores_arguments_example :
  isCommandAllowed ("zINSTREAM" +:+ " " +:+ "/etc/passwd") = isCommandAllowed "zINSTREAM".
Proof.
  apply isCommandAllowed_ignores_arguments; [discriminate |].
  repeat constructor.
Qed.

(** White space is Unicode white space in valid UTF-8: a no-break space
    (C2 A0) ends the token, a stray A0 byte does not. *)
Example Fields_unicode :
  GoStrings.Fields (String.string_of_list_byte
            [Byte.x50; Byte.x49; Byte.x4e; Byte.x47; Byte.xc2; Byte.xa0; Byte.x78])
  = ["PING"; "x"]
  /\ isCommandAllowed (String.string_of_list_byte
                         [Byte.x50; Byte.x49; Byte.x4e; Byte.x47; Byte.xa0; Byte.x78])
     = false.
Proof. split; vm_compute; reflexivity. Qed.

(** The tables of [TestIsCommandAllowed]. *)
Example isCommandAllowed_test_allowed :
  forallb isCommandAllowed
    ["PING"; "VERSION"; "VERSIONCOMMANDS"; "INSTREAM";
     "zPING"; "zVERSION"; "zVERSIONCOMMANDS"; "zINSTREAM";
     "nPING"; "nVERSION"; "nVERSIONCOMMANDS"; "nINSTREAM"] = true.
Proof. vm_compute. reflexivity. Qed.

Example isCommandAllowed_test_blocked :
  existsb isCommandAllowed
    ["SCAN /etc/passwd"; "RELOAD"; "SHUTDOWN"; "CONTSCAN /etc"; "MULTISCAN /var";
     "STATS"; "zSTATS"; "nSTATS"; ""; "UNKNOWN"] = false.
Proof. vm_compute. reflexivity. Qed.

(** Only one variant character is stripped, and arguments after the first
    token are not looked at. *)
Example isCommandAllowed_more :
  map isCommandAllowed ["zzPING"; "z"; "n"; "   "; "  PING"; "PING /etc/passwd"; "zINSTREAM x y"]
  = [false; false; false; false; true; true; true].
Proof. vm_compute. reflexivity. Qed.

(** C5: [isCommandAllowed cmd] is true exactly when the first
    whitespace-separated token of [cmd], with one leading 'z' or 'n' stripped
    if present, is one of PING, VERSION, VERSIONCOMMANDS, INSTREAM; it is
    false for empty or whitespace-only input; and two inputs with the same
    first token get the same decision, whatever follows the token. *)
Theorem isCommandAllowed_first_token_allowed :
  (forall cmd : string,
      isCommandAllowed cmd = true
      <-> exists tok : string,
          Spec.first_token cmd = Some tok
          /\ In (Spec.strip_variant tok) ["PING"; "VERSION"; "VERSIONCOMMANDS"; "INSTREAM"])
  /\ isCommandAllowed "" = false
  /\ (forall cmd : string, Spec.blank cmd = true -> isCommandAllowed cmd = false)
  /\ (forall cmd cmd' : string,
         Spec.first_token cmd = Spec.first_token cmd' ->
         isCommandAllowed cmd = isCommandAllowed cmd').
Proof.
  repeat split.
  - rewrite isCommandAllowed_first_token.
    destruct (Spec.first_token cmd) as [tok|]; [| discriminate].
    intros H. exists tok. split; [reflexivity |].
    now apply map_index_allowedCommands.
  - intros (tok & Htok & Hin). rewrite isCommandAllowed_first_token, Htok.
    now apply map_index_allowedCommands.
  - intros cmd Hb. rewrite isCommandAllowed_first_token.
    now rewrite (blank_first_token cmd Hb).
  - intros cmd cmd' H. now rewrite !isCommandAllowed_first_token, H.
Qed.

Lemma isCommandAllowed_first_token_allowed_witness :
  isCommandAllowed "   " = false
  /\ isCommandAllowed "SCAN /etc/passwd" = isCommandAllowed "SCAN /tmp".
Proof.
  destruct isCommandAllowed_first_token_allowed as (_ & _ & Hblank & Hsame).
  split.
  - apply Hblank. vm_compute. reflexivity.
  - apply Hsame. vm_compute. reflexivity.
Defined.

(** ** The command reader *)

Section ReadCommand.
Import Spec.

Lemma delimiter_eqb (b : byte) :
  Byte.eqb b nullDelimiter || Byte.eqb b newlineDelimiter = true <-> delimiter b.
Proof.
  unfold delimiter, nullDelimiter, newlineDelimiter. rewrite orb_true_iff. split.
  - intros [H | H]; apply Byte.byte_dec_bl in H; auto.
  - intros [-> | ->]; auto.
Qed.

Lemma not_delimiter_eqb (b : byte) :
  Byte.eqb b nullDelimiter || Byte.eqb b newlineDelimiter = false <-> ~ delimiter b.
Proof. rewrite <- delimiter_eqb. now destruct (_ || _). Qed.

(** The loop stops at the first delimiter. *)
Lemma readCommand_loop_delimited (e : error) (pre post acc buf : list byte) (d : byte) :
  Forall (fun b => ~ delimiter b) pre -> delimiter d ->
  exists buf',
    readCommand_loop e (pre ++ d :: post) acc buf
    = (String.string_of_list_byte (acc ++ pre), d, None, post, buf').
Proof.
  intros Hpre Hd. revert acc buf.
  induction Hpre as [|b pre Hb _ IH]; intros acc buf; simpl.
  - apply delimiter_eqb in Hd. rewrite Hd, app_nil_r. now exists buf.
  - apply not_delimiter_eqb in Hb. rewrite Hb.
    destruct (IH (acc ++ [b]) (acc ++ [b])) as [buf' ->].
    exists buf'. now rewrite <- List.app_assoc.
Qed.

(** Without a delimiter the loop ends with the reader's error. *)
Lemma readCommand_loop_undelimited (e : error) (data acc buf : list byte) :
  Forall (fun b => ~ delimiter b) data ->
  exists buf',
    readCommand_loop e data acc buf = (EmptyString, Byte.x00, Some e, [], buf').
Proof.
  intros Hdata. revert acc buf.
  induction Hdata as [|b data Hb _ IH]; intros acc buf; simpl.
  - now exists buf.
  - apply not_delimiter_eqb in Hb. rewrite Hb. apply IH.
Qed.

(** What the loop returns, for any input. *)
Lemma readCommand_loop_result (e : error) (data acc buf : list byte) :
  Forall (fun b => ~ delimiter b) acc ->
  match readCommand_loop e data acc buf with
  | (cmd, delim, None, _, _) =>
      Forall (fun b => ~ delimiter b) (String.list_byte_of_string cmd) /\ delimiter delim
  | (cmd, delim, Some e', _, _) => cmd = EmptyString /\ delim = Byte.x00 /\ e' = e
  end.
Proof.
  revert acc buf. induction data as [|b data IH]; intros acc buf Hacc; simpl.
  - auto.
  - destruct (Byte.eqb b nullDelimiter || Byte.eqb b newlineDelimiter) eqn:Hb.
    + rewrite String.list_byte_of_string_of_list_byte.
      split; [exact Hacc | now apply delimiter_eqb].
    + apply IH. apply Forall_app. split; [exact Hacc |].
      constructor; [now apply not_delimiter_eqb | constructor].
Qed.

End ReadCommand.

(** The table of [TestReadCommand]. *)
Example readCommand_test_table :
  map (fun input =>
         let '(cmd, delim, err, _, _) :=
           readCommand (mkReader (String.list_byte_of_string input) EOF) (mkPools [] []) in
         (cmd, delim, err))
      ["PING" +:+ String "000" ""; "VERSION" +:+ String "010" "";
       "zVERSIONCOMMANDS" +:+ String "000" ""; String "010" ""; "PING"]
  = [("PING", Byte.x00, None); ("VERSION", Byte.x0a, None);
     ("zVERSIONCOMMANDS", Byte.x00, None); ("", Byte.x0a, None);
     ("", Byte.x00, Some EOF)].
Proof. vm_compute. reflexivity. Qed.

(** C4: on an input with a NUL or LF byte, [readCommand] returns the bytes
    before the first such byte as the command and that byte as the delimiter,
    and leaves what follows unread (an immediate delimiter gives the empty
    command); on an input that ends before any NUL or LF it returns the
    reader's error, whatever was read. *)
Theorem readCommand_delimited_or_error :
  (forall (pre post : list byte) (d : byte) (e : error) (pools : Pools),
      Forall (fun b => ~ Spec.delimiter b) pre -> Spec.delimiter d ->
      exists pools',
        readCommand (mkReader (pre ++ d :: post) e) pools
        = (String.string_of_list_byte pre, d, None, mkReader post e, pools'))
  /\ (forall (data : list byte) (e : error) (pools : Pools),
         Forall (fun b => ~ Spec.delimiter b) data ->
         exists cmd delim reader' pools',
           readCommand (mkReader data e) pools = (cmd, delim, Some e, reader', pools')).
Proof.
  split.
  - intros pre post d e pools Hpre Hd. unfold readCommand.
    destruct (pool.Get _ _) as [bufPtr idle]. simpl. rewrite take_0.
    destruct (readCommand_loop_delimited e pre post [] bufPtr d Hpre Hd) as [buf' ->].
    eexists. reflexivity.
  - intros data e pools Hdata. unfold readCommand.
    destruct (pool.Get _ _) as [bufPtr idle]. simpl. rewrite take_0.
    destruct (readCommand_loop_undelimited e data [] bufPtr Hdata) as [buf' ->].
    repeat eexists.
Qed.

Lemma readCommand_delimited_or_error_witness :
  (exists pools',
      readCommand (mkReader ([Byte.x50; Byte.x49] ++ Byte.x0a :: [Byte.x51]) EOF) (mkPools [] [])
      = (String.string_of_list_byte [Byte.x50; Byte.x49], Byte.x0a, None,
         mkReader [Byte.x51] EOF, pools'))
  /\ (exists cmd delim reader' pools',
         readCommand (mkReader [Byte.x50; Byte.x49] EOF) (mkPools [] [])
         = (cmd, delim, Some EOF, reader', pools')).
Proof.
  split.
  - apply (proj1 readCommand_delimited_or_error).
    + repeat constructor; intros [H | H]; discriminate H.
    + right. reflexivity.
  - apply (proj2 readCommand_delimited_or_error).
    repeat constructor; intros [H | H]; discriminate H.
Defined.

(** C10: when [readCommand] succeeds the command holds no NUL and no LF
    byte; when it fails it returns the empty string and a zero delimiter. *)
Theorem readCommand_result_shape (reader : Reader) (pools : Pools) :
  forall cmd delim err reader' pools',
    readCommand reader pools = (cmd, delim, err, reader', pools') ->
    (err = None ->
     forall b, In b (String.list_byte_of_string cmd) -> b <> Byte.x00 /\ b <> Byte.x0a)
    /\ (err <> None -> cmd = EmptyString /\ delim = Byte.x00).
Proof.
  intros cmd delim err reader' pools'. unfold readCommand.
  destruct (pool.Get _ _) as [bufPtr idle]. simpl. rewrite take_0.
  pose proof (readCommand_loop_result (r_err reader) (r_data reader) [] bufPtr
                (List.Forall_nil _)) as H.
  destruct (readCommand_loop _ _ _ _) as [[[[c d] e] rest] buf'].
  intros [= <- <- <- _ _]. destruct e as [e|].
  - destruct H as (-> & -> & _). split; [discriminate | auto].
  - destruct H as [H _]. split; [| congruence].
    intros _ b Hb. rewrite List.Forall_forall in H. specialize (H b Hb).
    unfold Spec.delimiter in H. tauto.
Qed.

Lemma readCommand_result_shape_witness :
  (@None error = None ->
   forall b, In b (String.list_byte_of_string "PI") -> b <> Byte.x00 /\ b <> Byte.x0a)
  /\ (@None error <> None -> "PI" = EmptyString /\ Byte.x0a = Byte.x00).
Proof.
  apply (readCommand_result_shape
           (mkReader [Byte.x50; Byte.x49; Byte.x0a; Byte.x51] EOF) (mkPools [] [])
           "PI" Byte.x0a None (mkReader [Byte.x51] EOF) (mkPools [[Byte.x50; Byte.x49]] [])).
  vm_compute. reflexivity.
Defined.

(** ** The connection error classifier *)

Section ErrorChains.
Import Spec.

Lemma As_unfold (P : error -> bool) (e : error) :
  errors.As P e
  = if P e then Some e
    else match errors.Unwrap e with
         | Some inner => errors.As P inner
         | None => None
         end.
Proof. destruct e; reflexivity. Qed.

Lemma Is_unfold (e t : error) :
  errors.Is e t
  = errors.eq_target e t
    || match errors.Unwrap e with
       | Some inner => errors.Is inner t
       | None => false
       end.
Proof. destruct e; reflexivity. Qed.

(** Induction along the chain. *)
Lemma chain_ind (Q : error -> Prop) :
  (forall e, (forall e', errors.Unwrap e = Some e' -> Q e') -> Q e) ->
  forall e, Q e.
Proof.
  intros H. induction e; apply H; simpl; intros e' HU;
    try discriminate HU; injection HU as <-; assumption.
Qed.

Lemma As_first (P : error -> bool) (e x : error) :
  errors.As P e = Some x <-> first_in_chain P e x.
Proof.
  split.
  - revert x. induction e as [e IH] using chain_ind. intros x.
    rewrite As_unfold. destruct (P e) eqn:HP.
    + intros [= <-]. now apply first_here.
    + destruct (errors.Unwrap e) as [e'|] eqn:HU; [| discriminate].
      intros H. eapply first_next; eauto.
  - induction 1 as [e HP | e e' x HP HU _ IH]; rewrite As_unfold, HP;
      [reflexivity | now rewrite HU].
Qed.

Lemma As_none (P : error -> bool) (e : error) :
  errors.As P e = None <-> forall x, in_chain e x -> P x = false.
Proof.
  split.
  - intros H x Hx. induction Hx as [e | e e' x HU _ IH];
      rewrite As_unfold in H; destruct (P e) eqn:HP; try discriminate H;
      [reflexivity |].
    apply IH. now rewrite HU in H.
  - induction e as [e IH] using chain_ind. intros H.
    rewrite As_unfold, (H e (in_chain_here e)).
    destruct (errors.Unwrap e) as [e'|] eqn:HU; [| reflexivity].
    apply (IH e' eq_refl). intros x Hx. apply H. eapply in_chain_next; eauto.
Qed.

Lemma sentinel_EOF : sentinel EOF.
Proof. intros x. destruct x; simpl; split; congruence. Qed.

Lemma sentinel_ErrUnexpectedEOF : sentinel ErrUnexpectedEOF.
Proof. intros x. destruct x; simpl; split; congruence. Qed.

Lemma sentinel_Errno (n : Z) : sentinel (Errno n).
Proof.
  intros x. destruct x; simpl; split; try congruence.
  - intros H%Z.eqb_eq. congruence.
  - intros [= ->]. apply Z.eqb_refl.
Qed.

Lemma Is_in_chain (e t : error) :
  sentinel t -> errors.Is e t = true <-> in_chain e t.
Proof.
  intros Ht. split.
  - induction e as [e IH] using chain_ind.
    rewrite Is_unfold, orb_true_iff. intros [H | H].
    + apply Ht in H. rewrite H. apply in_chain_here.
    + destruct (errors.Unwrap e) as [e'|] eqn:HU; [| discriminate].
      eapply in_chain_next; eauto.
  - induction 1 as [e | e e' x HU _ IH]; rewrite Is_unfold, orb_true_iff.
    + left. now apply Ht.
    + right. rewrite HU. auto.
Qed.

Lemma timeout_error_code (e : error) :
  match errors.As errors.is_net_Error e with
  | Some netErr => errors.Timeout netErr
  | None => false
  end = true <-> timeout_error e.
Proof.
  unfold timeout_error. split.
  - destruct (errors.As _ e) as [ne|] eqn:E; [| discriminate].
    intros H. exists ne. split; [now apply As_first | exact H].
  - intros (ne & Hne%As_first & Ht). now rewrite Hne.
Qed.

Lemma operational_error_code (e : error) :
  is_Some (errors.As errors.is_OpError e) <-> operational_error e.
Proof.
  unfold operational_error. split.
  - intros [x Hx]. apply As_first in Hx.
    induction Hx as [e He | e e' x _ HU _ IH].
    + destruct e; try discriminate He. do 2 eexists. apply in_chain_here.
    + destruct IH as (Op & Err & IH). exists Op, Err. eapply in_chain_next; eauto.
  - intros (Op & Err & H).
    destruct (errors.As errors.is_OpError e) eqn:E; [eauto |].
    rewrite As_none in E. specialize (E _ H). discriminate E.
Qed.

Lemma closure_signal_code (e : error) :
  errors.Is e EOF || errors.Is e ErrUnexpectedEOF
  || errors.Is e (Errno syscall.EPIPE) || errors.Is e (Errno syscall.ECONNRESET) = true
  <-> closure_signal e.
Proof.
  unfold closure_signal. rewrite !orb_true_iff.
  rewrite (Is_in_chain e EOF sentinel_EOF),
    (Is_in_chain e ErrUnexpectedEOF sentinel_ErrUnexpectedEOF),
    !(Is_in_chain e (Errno _) (sentinel_Errno _)).
  tauto.
Qed.

End ErrorChains.

(** The table of [TestIsConnectionClosed], and the errors a broken
    connection gives in practice. *)
Example isConnectionClosed_test_table :
  map isConnectionClosed [None; Some EOF; Some ErrUnexpectedEOF] = [false; true; true].
Proof. reflexivity. Qed.

Example isConnectionClosed_more :
  map isConnectionClosed
      [Some (Errno syscall.EPIPE);
       Some (Errno syscall.ECONNRESET);
       Some (wrapError "failed to read chunk size" ErrUnexpectedEOF);
       Some (OpError "read" (SyscallError "read" (Errno syscall.ECONNRESET)));
       Some (OpError "read" ErrDeadlineExceeded);
       Some (wrapError "failed to copy chunk data" (OpError "read" (Errno syscall.ETIMEDOUT)));
       Some ErrDeadlineExceeded;
       Some (errorString "boom");
       Some ErrShortWrite]
  = [true; true; true; true; false; false; false; false; false].
Proof. reflexivity. Qed.

(** C7: [isConnectionClosed] decides in this order: nil is not closed; a
    timeout error is not closed, also when it is an operational network
    error; otherwise a (wrapped) operational network error is closed;
    otherwise end-of-stream, unexpected-end-of-stream, broken-pipe and
    connection-reset are closed; every other error is not closed. *)
Theorem isConnectionClosed_order :
  isConnectionClosed None = false
  /\ (forall e, Spec.timeout_error e -> isConnectionClosed (Some e) = false)
  /\ (forall e, ~ Spec.timeout_error e -> Spec.operational_error e ->
                isConnectionClosed (Some e) = true)
  /\ (forall e, ~ Spec.timeout_error e -> Spec.closure_signal e ->
                isConnectionClosed (Some e) = true)
  /\ (forall e, ~ Spec.timeout_error e -> ~ Spec.operational_error e ->
                ~ Spec.closure_signal e -> isConnectionClosed (Some e) = false).
Proof.
  split; [reflexivity |].
  assert (Hcode : forall e,
             isConnectionClosed (Some e)
             = if match errors.As errors.is_net_Error e with
                  | Some netErr => errors.Timeout netErr
                  | None => false
                  end
               then false
               else if bool_decide (is_Some (errors.As errors.is_OpError e))
                    then true
                    else errors.Is e EOF || errors.Is e ErrUnexpectedEOF
                         || errors.Is e (Errno syscall.EPIPE)
                         || errors.Is e (Errno syscall.ECONNRESET))
    by reflexivity.
  repeat split; intros e.
  - intros Ht%timeout_error_code. now rewrite Hcode, Ht.
  - intros Ht Hop. rewrite Hcode.
    destruct (match errors.As errors.is_net_Error e with Some _ => _ | None => _ end) eqn:E.
    + now apply timeout_error_code in E.
    + apply operational_error_code in Hop. now rewrite (bool_decide_eq_true_2 _ Hop).
  - intros Ht Hc. rewrite Hcode.
    destruct (match errors.As errors.is_net_Error e with Some _ => _ | None => _ end) eqn:E.
    + now apply timeout_error_code in E.
    + destruct (bool_decide _); [reflexivity | now apply closure_signal_code].
  - intros Ht Hop Hc. rewrite Hcode.
    destruct (match errors.As errors.is_net_Error e with Some _ => _ | None => _ end) eqn:E;
      [reflexivity |].
    rewrite bool_decide_eq_false_2 by (now rewrite operational_error_code).
    rewrite <- closure_signal_code in Hc. now destruct (_ || _).
Qed.

Lemma isConnectionClosed_order_witness :
  isConnectionClosed (Some (OpError "read" ErrDeadlineExceeded)) = false
  /\ isConnectionClosed (Some (OpError "read" (SyscallError "read" (Errno syscall.ECONNRESET))))
     = true
  /\ isConnectionClosed (Some (wrapError "failed to read chunk size" ErrUnexpectedEOF)) = true
  /\ isConnectionClosed (Some ErrShortWrite) = false.
Proof.
  destruct isConnectionClosed_order as (_ & Htimeout & Hop & Hsignal & Hother).
  split_and!.
  - apply Htimeout. exists (OpError "read" ErrDeadlineExceeded).
    split; [apply Spec.first_here |]; reflexivity.
  - apply Hop.
    + rewrite <- timeout_error_code. vm_compute. discriminate.
    + rewrite <- operational_error_code. vm_compute. eauto.
  - apply Hsignal.
    + rewrite <- timeout_error_code. vm_compute. discriminate.
    + rewrite <- closure_signal_code. vm_compute. reflexivity.
  - apply Hother.
    + rewrite <- timeout_error_code. vm_compute. discriminate.
    + rewrite <- operational_error_code. vm_compute. intros [x Hx]. discriminate Hx.
    + rewrite <- closure_signal_code. vm_compute. discriminate.
Defined.

(** ** Buffered output on a working connection *)

Section Output.
Import Spec.

Lemma len_app {A} (l k : list A) : len (l ++ k) = len l + len k.
Proof. unfold len. rewrite length_app. lia. Qed.

Lemma len_nonneg {A} (l : list A) : 0 <= len l.
Proof. unfold len. lia. Qed.

Lemma len_nil {A} : len (@nil A) = 0.
Proof. reflexivity. Qed.

Lemma upto_all {A} (n : Z) (p : list A) : len p <= n -> upto n p = p.
Proof. unfold upto, len. intros H. apply firstn_all2. lia. Qed.

Lemma from_all {A} (n : Z) (p : list A) : len p <= n -> from n p = [].
Proof. unfold from, len. intros H. apply skipn_all2. lia. Qed.

Lemma upto_from {A} (n : Z) (p : list A) : upto n p ++ from n p = p.
Proof. apply firstn_skipn. Qed.

Lemma len_upto {A} (n : Z) (p : list A) : 0 <= n <= len p -> len (upto n p) = n.
Proof. unfold upto, len. intros H. rewrite length_take. lia. Qed.

Lemma len_from {A} (n : Z) (p : list A) : 0 <= n <= len p -> len (from n p) = len p - n.
Proof. unfold from, len. intros H. rewrite length_drop. lia. Qed.

Lemma received_nil (c : Conn) : received c [] = c.
Proof. destruct c. unfold received, net.set_out. simpl. now rewrite app_nil_r. Qed.

Lemma received_app (c : Conn) (p q : list byte) :
  received (received c p) q = received c (p ++ q).
Proof. unfold received, net.set_out. simpl. now rewrite List.app_assoc. Qed.

Lemma received_accepts (c : Conn) (p : list byte) :
  accepts_writes c -> accepts_writes (received c p).
Proof. intros [? ?]. split; assumption. Qed.

Lemma net_Write_accepted (c : Conn) (p : list byte) :
  accepts_writes c -> net.Write c p = (len p, None, received c p).
Proof.
  intros [Hc Hr]. unfold net.Write, received. now rewrite Hc, Hr.
Qed.

Lemma Flush_in_order (b : Writer) (wr : Conn) :
  in_order b -> accepts_writes wr ->
  bufio.Flush b wr = (None, mkWriter [] (w_size b) None, received wr (w_buf b)).
Proof.
  intros (He & Hs & Hl) Hwr. unfold bufio.Flush, bufio.Buffered. rewrite He.
  destruct (len (w_buf b) =? 0) eqn:E.
  - apply Z.eqb_eq in E. destruct b as [buf size err]; simpl in *.
    destruct buf; [| discriminate E]. subst err. now rewrite received_nil.
  - rewrite net_Write_accepted by assumption. now rewrite Z.ltb_irrefl.
Qed.

Lemma write_loop_in_order (direct : bool) (fuel : nat) :
  forall (b : Writer) (wr : Conn) (p : list byte) (nn : Z),
    in_order b -> accepts_writes wr ->
    (length p + (if (bufio.Available b =? 0)%Z then 2 else 1) <= fuel)%nat ->
    exists b' d p',
      bufio.write_loop direct fuel b wr p nn
      = (b', received wr d, p', nn + len p - len p')
      /\ in_order b' /\ w_size b' = w_size b
      /\ len p' <= bufio.Available b'
      /\ d ++ w_buf b' ++ p' = w_buf b ++ p.
Proof.
  induction fuel as [|fuel IH]; intros b wr p nn Hb Hwr Hfuel.
  - destruct (bufio.Available b =? 0); lia.
  - pose proof Hb as (He & Hs & Hl). simpl.
    rewrite (bool_decide_eq_true_2 _ He), andb_true_r.
    destruct (bufio.Available b <? len p) eqn:Hguard.
    2:{ apply Z.ltb_ge in Hguard. exists b, [], p.
        rewrite received_nil. split_and!; try assumption; try reflexivity.
        all: try (f_equal; lia). all: try (unfold bufio.Available; lia). }
    apply Z.ltb_lt in Hguard. unfold bufio.Available in Hguard.
    destruct ((bufio.Buffered b =? 0) && direct) eqn:Hdirect.
    + apply andb_true_iff in Hdirect as [Hempty%Z.eqb_eq _].
      unfold bufio.Buffered in Hempty.
      assert (Hnil : w_buf b = []) by (destruct (w_buf b); [reflexivity | discriminate]).
      rewrite net_Write_accepted by assumption.
      rewrite from_all by lia.
      destruct (IH (mkWriter (w_buf b) (w_size b) None) (received wr p) [] (nn + len p))
        as (b' & d & p' & -> & Hb' & Hsz & Hfit & Hcat).
      { repeat split; assumption. }
      { now apply received_accepts. }
      { unfold bufio.Available; simpl. rewrite Hnil, len_nil.
        destruct (w_size b - 0 =? 0) eqn:E; [apply Z.eqb_eq in E; lia |].
        destruct (bufio.Available b =? 0); unfold len in *; simpl; lia. }
      simpl in Hcat, Hsz. rewrite Hnil in Hcat. simpl in Hcat.
      apply app_eq_nil in Hcat as [-> [Hb'nil ->]%app_eq_nil].
      exists b', p, []. rewrite received_app, app_nil_r, len_nil.
      split_and!; try assumption.
      * f_equal. lia.
      * rewrite Hb'nil, Hnil. now rewrite !app_nil_r.
    + rewrite Z.min_l by (unfold bufio.Available; lia).
      set (n := bufio.Available b). assert (Hn : 0 <= n < len p) by (unfold n, bufio.Available; lia).
      rewrite Flush_in_order; [| | assumption].
      2:{ repeat split; simpl; [assumption.. |].
          rewrite len_app, len_upto by lia. unfold n, bufio.Available. lia. }
      simpl.
      destruct (IH (mkWriter [] (w_size b) None) (received wr (w_buf b ++ upto n p))
                   (from n p) (nn + n))
        as (b' & d & p' & -> & Hb' & Hsz & Hfit & Hcat).
      { repeat split; simpl; [assumption | rewrite len_nil; lia]. }
      { now apply received_accepts. }
      { unfold bufio.Available at 1; simpl. rewrite len_nil.
        destruct (w_size b - 0 =? 0) eqn:E; [apply Z.eqb_eq in E; lia |].
        pose proof (len_from n p ltac:(lia)) as Hlf. fold n in Hfuel.
        destruct (n =? 0) eqn:En; unfold len in *; lia. }
      simpl in Hcat, Hsz.
      exists b', ((w_buf b ++ upto n p) ++ d), p'. rewrite received_app.
      split_and!; try assumption.
      * f_equal. rewrite (len_from n p) by lia. lia.
      * rewrite <- !List.app_assoc. rewrite Hcat. now rewrite upto_from.
Qed.

(** On a working connection [Write] and [WriteString] take all of [p]: the
    bytes handed to the connection ([d]) followed by the bytes buffered are
    what was buffered before followed by [p]. *)
Lemma write_with_in_order (direct : bool) (b : Writer) (wr : Conn) (p : list byte) :
  in_order b -> accepts_writes wr ->
  exists b' d,
    bufio.write_with direct b wr p = (len p, None, b', received wr d)
    /\ in_order b' /\ w_size b' = w_size b
    /\ d ++ w_buf b' = w_buf b ++ p.
Proof.
  intros Hb Hwr. unfold bufio.write_with.
  destruct (write_loop_in_order direct (2 + length p) b wr p 0 Hb Hwr)
    as (b' & d & p' & -> & (He & Hs & Hl) & Hsz & Hfit & Hcat).
  { destruct (bufio.Available b =? 0); lia. }
  rewrite He. rewrite Z.min_r by lia. rewrite upto_all by lia.
  exists (mkWriter (w_buf b' ++ p') (w_size b') None), d.
  split_and!; simpl; try assumption.
  - do 3 f_equal. lia.
  - split_and!; simpl; [reflexivity | assumption |].
    rewrite len_app. unfold bufio.Available in Hfit. lia.
Qed.

Lemma flush_if_full (b : Writer) (wr : Conn) :
  in_order b -> accepts_writes wr ->
  exists b1 d1,
    (if bufio.Available b =? 0 then bufio.Flush b wr else (None, b, wr))
    = (None, b1, received wr d1)
    /\ in_order b1 /\ w_size b1 = w_size b
    /\ 0 < bufio.Available b1
    /\ d1 ++ w_buf b1 = w_buf b.
Proof.
  intros Hb Hwr. pose proof Hb as (He & Hs & Hl).
  destruct (bufio.Available b =? 0) eqn:E.
  - rewrite Flush_in_order by assumption.
    exists (mkWriter [] (w_size b) None), (w_buf b).
    split_and!; simpl; try reflexivity.
    + split_and!; simpl; [reflexivity | assumption | unfold len; simpl; lia].
    + unfold bufio.Available, len; simpl. lia.
    + apply app_nil_r.
  - apply Z.eqb_neq in E. exists b, []. rewrite received_nil.
    split_and!; try assumption; try reflexivity.
    unfold bufio.Available in *. lia.
Qed.


Lemma readFrom_loop_in_order (bs : list byte) :
  forall (b : Writer) (wr : Conn) (n : Z),
    in_order b -> accepts_writes wr ->
    exists b' d,
      bufio.readFrom_loop b wr bs None n = (n + len bs, None, b', received wr d, [])
      /\ in_order b' /\ w_size b' = w_size b
      /\ d ++ w_buf b' = w_buf b ++ bs.
Proof.
  induction bs as [|c bs IH]; intros b wr n Hb Hwr;
    destruct (flush_if_full b wr Hb Hwr) as (b1 & d1 & Hstep & Hb1 & Hsz1 & Hav & Hcat1);
    pose proof Hb1 as (He1 & Hs1 & Hl1);
    pose proof (received_accepts wr d1 Hwr) as Hwr1.
  - simpl. rewrite Hstep.
    destruct (c_readerFrom (received wr d1) && (bufio.Buffered b1 =? 0)) eqn:Hd.
    + simpl. exists (mkWriter (w_buf b1) (w_size b1) None), d1.
      split_and!; simpl; try assumption; try tuple_eq.
      * split_and!; simpl; [reflexivity | assumption..].
      * now rewrite app_nil_r.
    + destruct (bufio.Available b1 =? 0) eqn:E; [apply Z.eqb_eq in E; lia |].
      exists b1, d1. split_and!; try assumption; try tuple_eq.
      now rewrite app_nil_r.
  - cbn [bufio.readFrom_loop]. rewrite Hstep.
    destruct (c_readerFrom (received wr d1) && (bufio.Buffered b1 =? 0)) eqn:Hd.
    + apply andb_true_iff in Hd as [_ Hempty%Z.eqb_eq]. unfold bufio.Buffered in Hempty.
      assert (Hnil : w_buf b1 = []) by (destruct (w_buf b1); [reflexivity | discriminate]).
      unfold net.ReadFrom. rewrite net_Write_accepted by assumption.
      exists (mkWriter (w_buf b1) (w_size b1) None), (d1 ++ c :: bs).
      rewrite received_app.
      split_and!; simpl; try assumption; try reflexivity.
      * split_and!; simpl; [reflexivity | assumption..].
      * rewrite Hnil, app_nil_r, <- Hcat1, Hnil, app_nil_r. reflexivity.
    + destruct (IH (mkWriter (w_buf b1 ++ [c]) (w_size b1) (w_err b1)) (received wr d1) (n + 1))
        as (b' & d & -> & Hb' & Hsz & Hcat); [| assumption |].
      { split_and!; simpl; [assumption.. |]. rewrite len_app. len_lia. }
      simpl in Hsz, Hcat. exists b', (d1 ++ d). rewrite received_app.
      split_and!; try assumption; try congruence; try tuple_eq.
      rewrite <- List.app_assoc, Hcat, <- Hcat1, <- !List.app_assoc. reflexivity.
Qed.

Lemma ReadFull_enough (chunk rest buf : list byte) (e : error) :
  length buf = length chunk ->
  io.ReadFull (mkReader (chunk ++ rest) e) buf = (len chunk, None, chunk, mkReader rest e).
Proof.
  intros H. unfold io.ReadFull. simpl. rewrite H.
  rewrite take_app_length, drop_app_length, Nat.eqb_refl. reflexivity.
Qed.


Lemma CopyN_in_order (b : Writer) (wr : Conn) (chunk rest : list byte) (e : error) :
  in_order b -> accepts_writes wr ->
  exists b' d,
    io.CopyN b wr (mkReader (chunk ++ rest) e) (len chunk)
    = (len chunk, None, b', received wr d, mkReader rest e)
    /\ in_order b' /\ w_size b' = w_size b
    /\ d ++ w_buf b' = w_buf b ++ chunk.
Proof.
  intros Hb Hwr. unfold io.CopyN, bufio.ReadFrom. simpl.
  assert (Hup : upto (len chunk) (chunk ++ rest) = chunk).
  { unfold upto, len. rewrite Nat2Z.id. apply take_app_length. }
  assert (Hfrom : from (len chunk) (chunk ++ rest) = rest).
  { unfold from, len. rewrite Nat2Z.id. apply drop_app_length. }
  rewrite Hup, Hfrom, Z.ltb_irrefl. destruct Hb as (He & Hs & Hl). rewrite He.
  destruct (readFrom_loop_in_order chunk b wr 0 (conj He (conj Hs Hl)) Hwr)
    as (b' & d & -> & Hb' & Hsz & Hcat).
  rewrite Z.add_0_l, Z.eqb_refl. exists b', d. auto.
Qed.

End Output.

(** ** The chunk relay *)

Section Chunks.
Import Spec.

Lemma byteZ_range (b : byte) : 0 <= byteZ b < 256.
Proof. unfold byteZ. pose proof (Byte.to_N_bounded b). lia. Qed.

Lemma wrap_int_small (z : Z) : - 2 ^ 63 <= z < 2 ^ 63 -> wrap_int z = z.
Proof. intros H. unfold wrap_int. rewrite Z.mod_small; lia. Qed.

Lemma lor_shifted (a y k : Z) :
  0 <= k -> 0 <= y < 2 ^ k -> Z.lor (a * 2 ^ k) y = a * 2 ^ k + y.
Proof.
  intros Hk Hy. symmetry. apply Z.add_nocarry_lor.
  apply Z.bits_inj'. intros i Hi. rewrite Z.land_spec, Z.bits_0.
  destruct (Z.lt_ge_cases i k) as [Hlt | Hge].
  - now rewrite Z.mul_pow2_bits_low by lia.
  - rewrite <- (Z.mod_small y (2 ^ k)) by lia.
    rewrite Z.mod_pow2_bits_high by lia. apply andb_false_r.
Qed.

(** The shifts and ors of the code compute the big-endian number. *)
Lemma chunk_size_be32 (hdr : list byte) :
  length hdr = 4%nat -> chunk_size hdr = be32 hdr /\ 0 <= be32 hdr < 2 ^ 32.
Proof.
  destruct hdr as [|b0 [|b1 [|b2 [|b3 [|? ?]]]]]; try discriminate. intros _.
  unfold chunk_size, be32. cbn [nth].
  pose proof (byteZ_range b0). pose proof (byteZ_range b1).
  pose proof (byteZ_range b2). pose proof (byteZ_range b3).
  rewrite !Z.shiftl_mul_pow2 by lia.
  rewrite !wrap_int_small by lia.
  split; [| lia].
  rewrite (lor_shifted _ (byteZ b1 * 2 ^ 16) 24) by lia.
  replace (byteZ b0 * 2 ^ 24 + byteZ b1 * 2 ^ 16)
    with ((byteZ b0 * 2 ^ 8 + byteZ b1) * 2 ^ 16) by lia.
  rewrite (lor_shifted _ (byteZ b2 * 2 ^ 8) 16) by lia.
  replace ((byteZ b0 * 2 ^ 8 + byteZ b1) * 2 ^ 16 + byteZ b2 * 2 ^ 8)
    with (((byteZ b0 * 2 ^ 8 + byteZ b1) * 2 ^ 8 + byteZ b2) * 2 ^ 8) by lia.
  rewrite (lor_shifted _ (byteZ b3) 8) by lia.
  lia.
Qed.

Lemma Write_backend (p : ClamdProxy) (bs : list byte) :
  in_order (backendBuf p) -> accepts_writes (backend p) ->
  exists b' wr',
    bufio.Write (backendBuf p) (backend p) bs = (len bs, None, b', wr')
    /\ in_order b' /\ accepts_writes wr'
    /\ forwarded (set_backend p b' wr') = forwarded p ++ bs.
Proof.
  intros Hb Hwr. unfold bufio.Write.
  destruct (write_with_in_order true _ _ bs Hb Hwr) as (b' & d & -> & Hb' & _ & Hcat).
  exists b', (received (backend p) d).
  split_and!; [reflexivity | assumption | now apply received_accepts |].
  unfold forwarded. simpl. now rewrite <- !List.app_assoc, Hcat.
Qed.

Lemma Flush_backend (p : ClamdProxy) :
  in_order (backendBuf p) -> accepts_writes (backend p) ->
  exists b' wr',
    bufio.Flush (backendBuf p) (backend p) = (None, b', wr')
    /\ in_order b' /\ accepts_writes wr' /\ w_buf b' = []
    /\ forwarded (set_backend p b' wr') = forwarded p.
Proof.
  intros Hb Hwr. rewrite Flush_in_order by assumption.
  do 2 eexists. split_and!; [reflexivity | | now apply received_accepts | reflexivity |].
  - destruct Hb as (? & ? & ?). split_and!; simpl; [reflexivity | assumption | len_lia].
  - unfold forwarded. simpl. now rewrite app_nil_r.
Qed.

Lemma CopyN_backend (p : ClamdProxy) (chunk rest : list byte) (e : error) :
  in_order (backendBuf p) -> accepts_writes (backend p) ->
  exists b' wr',
    io.CopyN (backendBuf p) (backend p) (mkReader (chunk ++ rest) e) (len chunk)
    = (len chunk, None, b', wr', mkReader rest e)
    /\ in_order b' /\ accepts_writes wr'
    /\ forwarded (set_backend p b' wr') = forwarded p ++ chunk.
Proof.
  intros Hb Hwr.
  destruct (CopyN_in_order _ _ chunk rest e Hb Hwr) as (b' & d & -> & Hb' & _ & Hcat).
  exists b', (received (backend p) d).
  split_and!; [reflexivity | assumption | now apply received_accepts |].
  unfold forwarded. simpl. now rewrite <- !List.app_assoc, Hcat.
Qed.

Lemma pool_Get_sized (pools : Pools) :
  chunk_buffers_sized pools ->
  forall chunk idle,
    pool.Get pool.chunkBuf_New (chunkBufPool pools) = (chunk, idle) ->
    len chunk = 32 * 1024 /\ Forall (fun buf => len buf = 32 * 1024) idle.
Proof.
  unfold chunk_buffers_sized, pool.Get. intros H chunk idle.
  destruct (chunkBufPool pools) as [|buf rest].
  - intros [= <- <-]. split; [| constructor].
    unfold pool.chunkBuf_New, len. rewrite repeat_length. lia.
  - intros [= <- <-]. now inversion H.
Qed.

(** The zero-length terminator: the four bytes are forwarded and the loop
    is left by [break]. *)
Lemma handleInstream_body_end (st : InstreamState) (rest : list byte) :
  relay_ok st ->
  r_data (is_reader st) = [Byte.x00; Byte.x00; Byte.x00; Byte.x00] ++ rest ->
  exists st',
    handleInstream_body st = inl (None, st')
    /\ relay_ok st'
    /\ is_reader st' = mkReader rest (r_err (is_reader st))
    /\ forwarded (is_proxy st')
       = forwarded (is_proxy st) ++ [Byte.x00; Byte.x00; Byte.x00; Byte.x00]
    /\ client (is_proxy st') = client (is_proxy st)
    /\ clientBuf (is_proxy st') = clientBuf (is_proxy st).
Proof.
  intros (Hb & Hwr & Hsz & Hpools) Hdata.
  unfold handleInstream_body.
  destruct (is_reader st) as [data e]. cbn [r_data r_err] in *. subst data.
  rewrite ReadFull_enough by exact Hsz.
  destruct (Write_backend (is_proxy st) [Byte.x00; Byte.x00; Byte.x00; Byte.x00] Hb Hwr)
    as (b' & wr' & -> & Hb' & Hwr' & Hfw).
  cbv beta iota. change (chunk_size [Byte.x00; Byte.x00; Byte.x00; Byte.x00] =? 0) with true.
  cbv beta iota. eexists. split; [reflexivity |].
  split_and!; try assumption; try reflexivity.
  split_and!; simpl; try assumption. reflexivity.
Qed.

(** A chunk: the length prefix and the payload are forwarded and the loop
    goes round again, through the pooled buffer or through [io.CopyN]. *)
Lemma handleInstream_body_chunk (st : InstreamState) (hdr payload rest : list byte) :
  relay_ok st ->
  r_data (is_reader st) = hdr ++ payload ++ rest ->
  length hdr = 4%nat -> be32 hdr = len payload -> 0 < len payload ->
  exists st',
    handleInstream_body st = inr st'
    /\ relay_ok st'
    /\ is_reader st' = mkReader rest (r_err (is_reader st))
    /\ forwarded (is_proxy st') = forwarded (is_proxy st) ++ hdr ++ payload
    /\ client (is_proxy st') = client (is_proxy st)
    /\ clientBuf (is_proxy st') = clientBuf (is_proxy st).
Proof.
  intros (Hb & Hwr & Hsz & Hpools) Hdata Hhdr Hbe Hpos.
  unfold handleInstream_body.
  destruct (is_reader st) as [data e]. cbn [r_data r_err] in *. subst data.
  rewrite ReadFull_enough by congruence.
  destruct (Write_backend (is_proxy st) hdr Hb Hwr) as (b1 & wr1 & -> & Hb1 & Hwr1 & Hfw1).
  cbv beta iota.
  destruct (chunk_size_be32 hdr Hhdr) as [-> Hrange]. rewrite Hbe.
  destruct (len payload =? 0) eqn:E0; [apply Z.eqb_eq in E0; lia | clear E0].
  set (p1 := set_backend (is_proxy st) b1 wr1) in *.
  (* what follows a forwarded chunk *)
  assert (Hafter : forall (p2 : ClamdProxy) (reader : Reader) (pools : Pools),
             in_order (backendBuf p2) -> accepts_writes (backend p2) ->
             chunk_buffers_sized pools ->
             exists st',
               (let chunks := wrap_int (is_chunks st + 1) in
                if Z.rem chunks 10 =? 0
                then
                  let '(err, b, wr) := bufio.Flush (backendBuf p2) (backend p2) in
                  let p := set_backend p2 b wr in
                  match err with
                  | Some e0 =>
                      inl (Some (wrapError "failed to flush data" e0),
                           mkInstream p reader pools hdr chunks)
                  | None => inr (mkInstream p reader pools hdr chunks)
                  end
                else inr (mkInstream p2 reader pools hdr chunks))
               = inr st'
               /\ relay_ok st' /\ is_reader st' = reader
               /\ forwarded (is_proxy st') = forwarded p2
               /\ client (is_proxy st') = client p2
               /\ clientBuf (is_proxy st') = clientBuf p2).
  { intros p2 reader pools Hb2 Hwr2 Hp2. cbv zeta.
    destruct (Z.rem _ 10 =? 0).
    - destruct (Flush_backend p2 Hb2 Hwr2) as (b3 & wr3 & -> & Hb3 & Hwr3 & _ & Hfw3).
      eexists. split; [reflexivity |].
      split_and!; try assumption; try reflexivity.
      split_and!; simpl; assumption.
    - eexists. split; [reflexivity |].
      split_and!; try reflexivity. split_and!; simpl; assumption. }
  destruct (len payload <=? 32 * 1024) eqn:Esmall.
  - apply Z.leb_le in Esmall.
    destruct (pool.Get pool.chunkBuf_New (chunkBufPool (is_pools st))) as [chunk idle] eqn:Hget.
    destruct (pool_Get_sized _ Hpools _ _ Hget) as [Hchunk Hidle].
    rewrite (ReadFull_enough payload rest (upto (len payload) chunk) e).
    2:{ unfold upto, len in *. rewrite length_take. lia. }
    cbv beta iota.
    assert (Hcut : upto (len payload) (payload ++ from (len payload) chunk) = payload).
    { unfold upto, len. rewrite Nat2Z.id. apply take_app_length. }
    rewrite Hcut.
    destruct (Write_backend p1 payload Hb1 Hwr1) as (b2 & wr2 & Hw2 & Hb2 & Hwr2 & Hfw2).
    rewrite Hw2. cbv beta iota.
    edestruct (Hafter (set_backend p1 b2 wr2) (mkReader rest e)) as (st' & -> & Hok & Hrd & Hfw & Hcl & Hcb);
      [exact Hb2 | exact Hwr2 | |].
    { unfold chunk_buffers_sized, pool.Put. simpl. constructor; [| exact Hidle].
      rewrite len_app. unfold from, len in *. rewrite length_drop. lia. }
    exists st'. split; [reflexivity |].
    split_and!; try assumption.
    rewrite Hfw, Hfw2, Hfw1. now rewrite <- List.app_assoc.
  - apply Z.leb_gt in Esmall.
    destruct (CopyN_backend p1 payload rest e Hb1 Hwr1) as (b2 & wr2 & Hc2 & Hb2 & Hwr2 & Hfw2).
    rewrite Hc2. cbv beta iota.
    edestruct (Hafter (set_backend p1 b2 wr2) (mkReader rest e)) as (st' & -> & Hok & Hrd & Hfw & Hcl & Hcb);
      [exact Hb2 | exact Hwr2 | exact Hpools |].
    exists st'. split; [reflexivity |].
    split_and!; try assumption.
    rewrite Hfw, Hfw2, Hfw1. now rewrite <- List.app_assoc.
Qed.

Lemma chunk_stream_length (data : list byte) :
  chunk_stream data -> (4 <= length data)%nat.
Proof.
  induction 1 as [|hdr payload rest Hh _ _ _ IH]; simpl; [lia |].
  rewrite !length_app. lia.
Qed.

(** The loop on a well-formed chunk stream: by induction on the stream. *)
Lemma handleInstream_loop_stream (data : list byte) :
  chunk_stream data ->
  forall (st : InstreamState) (unread : list byte) (fuel : nat),
    relay_ok st ->
    r_data (is_reader st) = data ++ unread ->
    (length data < fuel)%nat ->
    exists st',
      handleInstream_loop fuel st = Some (None, st')
      /\ is_reader st' = mkReader unread (r_err (is_reader st))
      /\ c_sent (backend (is_proxy st')) = forwarded (is_proxy st) ++ data
      /\ w_buf (backendBuf (is_proxy st')) = []
      /\ client (is_proxy st') = client (is_proxy st)
      /\ clientBuf (is_proxy st') = clientBuf (is_proxy st)
      /\ chunk_buffers_sized (is_pools st').
Proof.
  induction 1 as [|hdr payload rest Hhdr Hbe Hpos Hrest IH];
    intros st unread fuel Hok Hdata Hfuel;
    (destruct fuel as [|fuel]; [lia |]); cbn [handleInstream_loop].
  - destruct (handleInstream_body_end st unread Hok Hdata)
      as (st1 & -> & (Hb1 & Hwr1 & Hsz1 & Hp1) & Hrd1 & Hfw1 & Hcl1 & Hcb1).
    destruct (Flush_backend (is_proxy st1) Hb1 Hwr1) as (b2 & wr2 & -> & _ & _ & Hnil & Hfw2).
    eexists. split; [reflexivity |]. cbn [is_proxy is_reader is_pools].
    split_and!; try assumption.
    + unfold forwarded in Hfw2. cbn [set_backend backend backendBuf] in *.
      rewrite Hnil, app_nil_r in Hfw2. rewrite Hfw2. exact Hfw1.
  - rewrite <- !List.app_assoc in Hdata.
    destruct (handleInstream_body_chunk st hdr payload (rest ++ unread) Hok Hdata Hhdr Hbe Hpos)
      as (st1 & -> & Hok1 & Hrd1 & Hfw1 & Hcl1 & Hcb1).
    destruct (IH st1 unread fuel Hok1) as (st' & -> & Hrd & Hsent & Hnil & Hcl & Hcb & Hp).
    { now rewrite Hrd1. }
    { rewrite !length_app in Hfuel. lia. }
    exists st'. split; [reflexivity |].
    split_and!; try assumption; try congruence.
    + now rewrite Hrd, Hrd1.
    + rewrite Hsent, Hfw1. now rewrite <- !List.app_assoc.
Qed.

(** C6: on a well-formed chunk stream (chunks of any positive length, then
    the zero-length terminator; the terminator alone included) and a working
    backend, the relay returns success, has read the stream and nothing
    after it, and the backend connection has received what was given to it
    before followed by exactly the bytes of the stream, with nothing left in
    the buffer.  The induction goes through the pooled-buffer path for
    chunks of at most 32 KiB and through [io.CopyN] above. *)
Theorem handleInstream_relays_stream
        (data unread : list byte) (e : error) (p : ClamdProxy) (pools : Pools) :
  chunk_stream data ->
  in_order (backendBuf p) -> accepts_writes (backend p) -> chunk_buffers_sized pools ->
  exists p' pools',
    handleInstream p (mkReader (data ++ unread) e) pools
    = Some (None, p', mkReader unread e, pools')
    /\ c_sent (backend p') = c_sent (backend p) ++ w_buf (backendBuf p) ++ data
    /\ w_buf (backendBuf p') = []
    /\ client p' = client p /\ clientBuf p' = clientBuf p
    /\ chunk_buffers_sized pools'.
Proof.
  intros Hdata Hb Hwr Hpools. unfold handleInstream.
  destruct (handleInstream_loop_stream data Hdata
              (mkInstream p (mkReader (data ++ unread) e) pools (repeat Byte.x00 4) 0)
              unread (S (length (data ++ unread))))
    as (st' & Hloop & Hrd & Hsent & Hnil & Hcl & Hcb & Hp).
  { split_and!; simpl; try assumption. reflexivity. }
  { reflexivity. }
  { rewrite length_app. lia. }
  cbn [r_data]. rewrite Hloop.
  exists (is_proxy st'), (is_pools st'). rewrite Hrd.
  split_and!; try assumption; try reflexivity.
  rewrite Hsent. unfold forwarded. simpl. now rewrite <- List.app_assoc.
Qed.

(** [TestHandleInstream_ZeroChunk]: the terminator alone. *)
Example handleInstream_test_zero_chunk :
  match handleInstream (mkProxy (sample_conn []) (sample_conn [])
                                (bufio.NewWriterSize bufio.defaultBufSize)
                                (bufio.NewWriterSize bufio.defaultBufSize))
                       (mkReader [Byte.x00; Byte.x00; Byte.x00; Byte.x00] EOF) no_pools with
  | Some (err, p', _, _) => (err, c_sent (backend p'))
  | None => (None, [])
  end = (None, [Byte.x00; Byte.x00; Byte.x00; Byte.x00]).
Proof. vm_compute. reflexivity. Qed.

Lemma handleInstream_relays_stream_witness :
  exists p' pools',
    handleInstream (sample_proxy [])
      (mkReader (([Byte.x00; Byte.x00; Byte.x00; Byte.x02] ++ [Byte.x41; Byte.x42]
                  ++ ([Byte.x00; Byte.x00; Byte.x80; Byte.x01]
                      ++ repeat Byte.x43 (Z.to_nat 32769)
                      ++ [Byte.x00; Byte.x00; Byte.x00; Byte.x00]))
                 ++ [Byte.x50]) EOF) no_pools
    = Some (None, p', mkReader [Byte.x50] EOF, pools')
    /\ c_sent (backend p')
       = c_sent (backend (sample_proxy [])) ++ w_buf (backendBuf (sample_proxy []))
         ++ ([Byte.x00; Byte.x00; Byte.x00; Byte.x02] ++ [Byte.x41; Byte.x42]
             ++ ([Byte.x00; Byte.x00; Byte.x80; Byte.x01]
                 ++ repeat Byte.x43 (Z.to_nat 32769)
                 ++ [Byte.x00; Byte.x00; Byte.x00; Byte.x00]))
    /\ w_buf (backendBuf p') = []
    /\ client p' = client (sample_proxy []) /\ clientBuf p' = clientBuf (sample_proxy [])
    /\ chunk_buffers_sized pools'.
Proof.
  apply handleInstream_relays_stream.
  - apply stream_chunk; [reflexivity | reflexivity | reflexivity |].
    apply stream_chunk; [reflexivity | vm_compute; reflexivity | vm_compute; reflexivity |].
    apply stream_end.
  - unfold in_order. split_and!; [reflexivity | simpl; lia | unfold len; simpl; lia].
  - split; reflexivity.
  - constructor.
Defined.

(** A flush that reports no error has emptied the buffer. *)
Lemma Flush_nil_empty (b b' : Writer) (wr wr' : Conn) :
  bufio.Flush b wr = (None, b', wr') -> w_buf b' = [] /\ w_err b' = None.
Proof.
  unfold bufio.Flush, bufio.Buffered. destruct (w_err b) as [e|] eqn:He; [discriminate |].
  destruct (len (w_buf b) =? 0) eqn:E.
  - intros [= <- _]. apply Z.eqb_eq in E. split; [| exact He].
    unfold len in E. destruct (w_buf b); [reflexivity | discriminate].
  - destruct (net.Write wr (w_buf b)) as [[n [e|]] wr1]; [discriminate |].
    destruct (n <? len (w_buf b)); [discriminate |].
    intros [= <- _]. split; reflexivity.
Qed.



(** The same after a complete chunk: the whole chunk is lost with it. *)
Example handleInstream_truncated_prefix :
  match handleInstream (sample_proxy [])
          (mkReader [Byte.x00; Byte.x00; Byte.x00; Byte.x01; Byte.x41; Byte.x00; Byte.x00] EOF)
          no_pools with
  | Some (err, p', _, _) => (err, w_buf (backendBuf p'), c_sent (backend p'))
  | None => (None, [], [])
  end
  = (Some (wrapError "failed to read chunk size" ErrUnexpectedEOF),
     [Byte.x00; Byte.x00; Byte.x00; Byte.x01; Byte.x41], []).
Proof. vm_compute. reflexivity. Qed.




End Chunks.

(** ** The client->backend loop *)

Section Session.
Import Spec.

Lemma readCommand_delimited (pre post : list byte) (d : byte) (e : error) (pools : Pools) :
  Forall (fun b => ~ delimiter b) pre -> delimiter d ->
  exists idle,
    readCommand (mkReader (pre ++ d :: post) e) pools
    = (String.string_of_list_byte pre, d, None, mkReader post e,
       mkPools idle (chunkBufPool pools)).
Proof.
  intros Hpre Hd. unfold readCommand.
  destruct (pool.Get _ _) as [bufPtr idle]. cbn [r_data r_err]. rewrite take_0.
  destruct (readCommand_loop_delimited e pre post [] bufPtr d Hpre Hd) as [buf' ->].
  eexists. reflexivity.
Qed.

(** A pass of the loop on a command that is not allowed: nothing goes to
    the backend side, the client connection receives the rejection after what
    was buffered for it, and the loop goes round again. *)
Lemma handleClientToBackend_body_rejected (s : Session) (pre post : list byte) (d : byte) :
  r_data (s_reader s) = pre ++ d :: post ->
  Forall (fun b => ~ delimiter b) pre -> delimiter d ->
  isCommandAllowed (String.string_of_list_byte pre) = false ->
  in_order (clientBuf (s_proxy s)) -> accepts_writes (client (s_proxy s)) ->
  exists s',
    handleClientToBackend_body s = inr s'
    /\ s_reader s' = mkReader post (r_err (s_reader s))
    /\ backend (s_proxy s') = backend (s_proxy s)
    /\ backendBuf (s_proxy s') = backendBuf (s_proxy s)
    /\ c_sent (client (s_proxy s'))
       = answered (s_proxy s) ++ String.list_byte_of_string response
    /\ w_buf (clientBuf (s_proxy s')) = []
    /\ in_order (clientBuf (s_proxy s')) /\ accepts_writes (client (s_proxy s'))
    /\ chunkBufPool (s_pools s') = chunkBufPool (s_pools s).
Proof.
  intros Hdata Hpre Hd Hno Hb Hwr. unfold handleClientToBackend_body.
  destruct (s_reader s) as [data e]. cbn [r_data r_err] in *. subst data.
  destruct (readCommand_delimited pre post d e (s_pools s) Hpre Hd) as [idle ->].
  cbv beta iota. rewrite Hno. unfold bufio.WriteString.
  destruct (write_with_in_order false _ _ (String.list_byte_of_string response) Hb Hwr)
    as (b1 & d1 & -> & Hb1 & Hsz1 & Hcat1).
  cbv beta iota.
  rewrite Flush_in_order; [| exact Hb1 | now apply received_accepts].
  cbv beta iota. eexists. split; [reflexivity |].
  cbn [s_proxy s_reader s_pools set_client client backend backendBuf clientBuf
       w_buf chunkBufPool].
  split_and!; try reflexivity.
  - unfold received, answered. simpl. now rewrite <- !List.app_assoc, Hcat1.
  - destruct Hb1 as (? & ? & ?). split_and!; simpl; [reflexivity | assumption | len_lia].
  - now apply received_accepts, received_accepts.
Qed.

(** A pass of the loop on an allowed command, up to the point where the
    command has been forwarded and flushed: [p1] is the session at that
    point.  Whatever reads the client next, the chunk relay or the next pass,
    starts from [p1] and from the input right after the delimiter. *)
Lemma handleClientToBackend_body_allowed (s : Session) (pre post : list byte) (d : byte) :
  r_data (s_reader s) = pre ++ d :: post ->
  Forall (fun b => ~ delimiter b) pre -> delimiter d ->
  isCommandAllowed (String.string_of_list_byte pre) = true ->
  in_order (backendBuf (s_proxy s)) -> accepts_writes (backend (s_proxy s)) ->
  exists p1 pools1,
    c_sent (backend p1) = forwarded (s_proxy s) ++ pre ++ [d]
    /\ w_buf (backendBuf p1) = []
    /\ in_order (backendBuf p1) /\ accepts_writes (backend p1)
    /\ client p1 = client (s_proxy s) /\ clientBuf p1 = clientBuf (s_proxy s)
    /\ chunkBufPool pools1 = chunkBufPool (s_pools s)
    /\ handleClientToBackend_body s
       = if isInstreamCommand (String.string_of_list_byte pre)
         then match handleInstream p1 (mkReader post (r_err (s_reader s))) pools1 with
              | None => inl (StillRunning, mkSession p1 (mkReader post (r_err (s_reader s))) pools1)
              | Some (Some e, p, reader, pools) => inl (InstreamFailed e, mkSession p reader pools)
              | Some (None, p, reader, pools) => inr (mkSession p reader pools)
              end
         else inr (mkSession p1 (mkReader post (r_err (s_reader s))) pools1).
Proof.
  intros Hdata Hpre Hd Hyes Hb Hwr. unfold handleClientToBackend_body.
  destruct (s_reader s) as [data e]. cbn [r_data r_err] in *. subst data.
  destruct (readCommand_delimited pre post d e (s_pools s) Hpre Hd) as [idle ->].
  cbv beta iota. rewrite Hyes. rewrite String.list_byte_of_string_of_list_byte.
  unfold bufio.Write.
  destruct (write_with_in_order true _ _ (pre ++ [d]) Hb Hwr)
    as (b1 & d1 & -> & Hb1 & Hsz1 & Hcat1).
  cbv beta iota.
  cbn [set_backend backend backendBuf].
  rewrite Flush_in_order; [| exact Hb1 | now apply received_accepts].
  cbv beta iota.
  eexists _, _. split_and!; [| | | | | | | reflexivity];
    cbn [set_backend backend backendBuf client clientBuf w_buf chunkBufPool];
    try reflexivity.
  - unfold received, forwarded. simpl. now rewrite <- !List.app_assoc, Hcat1.
  - destruct Hb1 as (? & ? & ?). split_and!; simpl; [reflexivity | assumption | len_lia].
  - now apply received_accepts, received_accepts.
Qed.

(** Scenario: [RELOAD\n] then [PING\n] on one connection.  The backend
    receives [PING\n] only, the client receives the rejection, and the loop
    ends when the client is done, closing the backend connection. *)
Example handleClientToBackend_reload_then_ping :
  let '(ex, s) :=
    handleClientToBackend
      (sample_proxy (String.list_byte_of_string "RELOAD" ++ [Byte.x0a]
                     ++ String.list_byte_of_string "PING" ++ [Byte.x0a]))
      no_pools in
  (ex, c_sent (backend (s_proxy s)), c_sent (client (s_proxy s)),
   c_closed (backend (s_proxy s)))
  = (ReadCommandFailed EOF,
     String.list_byte_of_string "PING" ++ [Byte.x0a],
     String.list_byte_of_string "ERROR: Command not allowed" ++ [Byte.x0a],
     true).
Proof. vm_compute. reflexivity. Qed.

(** C8: a command that is not allowed is not forwarded (the backend
    connection and its buffer are untouched); the client connection receives
    what was buffered for it and then exactly [ERROR: Command not allowed]
    and a newline, with nothing left in the buffer; the loop goes round
    again, and an allowed command that follows on the same connection is
    forwarded to the backend. *)
Theorem rejected_command_answered_loop_continues
        (s : Session) (pre post : list byte) (d : byte) :
  r_data (s_reader s) = pre ++ d :: post ->
  Forall (fun b => ~ delimiter b) pre -> delimiter d ->
  isCommandAllowed (String.string_of_list_byte pre) = false ->
  in_order (clientBuf (s_proxy s)) -> accepts_writes (client (s_proxy s)) ->
  exists s',
    handleClientToBackend_body s = inr s'
    /\ (forall fuel, handleClientToBackend_loop (S fuel) s = handleClientToBackend_loop fuel s')
    /\ s_reader s' = mkReader post (r_err (s_reader s))
    /\ backend (s_proxy s') = backend (s_proxy s)
    /\ backendBuf (s_proxy s') = backendBuf (s_proxy s)
    /\ c_sent (client (s_proxy s'))
       = c_sent (client (s_proxy s)) ++ w_buf (clientBuf (s_proxy s))
         ++ String.list_byte_of_string "ERROR: Command not allowed" ++ [Byte.x0a]
    /\ w_buf (clientBuf (s_proxy s')) = []
    /\ (forall (pre2 post2 : list byte) (d2 : byte),
           post = pre2 ++ d2 :: post2 ->
           Forall (fun b => ~ delimiter b) pre2 -> delimiter d2 ->
           isCommandAllowed (String.string_of_list_byte pre2) = true ->
           isInstreamCommand (String.string_of_list_byte pre2) = false ->
           in_order (backendBuf (s_proxy s)) -> accepts_writes (backend (s_proxy s)) ->
           exists s'',
             handleClientToBackend_body s' = inr s''
             /\ c_sent (backend (s_proxy s'')) = forwarded (s_proxy s) ++ pre2 ++ [d2]
             /\ w_buf (backendBuf (s_proxy s'')) = []).
Proof.
  intros Hdata Hpre Hd Hno Hb Hwr.
  destruct (handleClientToBackend_body_rejected s pre post d Hdata Hpre Hd Hno Hb Hwr)
    as (s' & Hbody & Hrd & Hbk & Hbb & Hsent & Hnil & _ & _ & _).
  exists s'. split_and!; try assumption.
  - intros fuel. cbn [handleClientToBackend_loop]. now rewrite Hbody.
  - rewrite Hsent. unfold answered. now rewrite <- List.app_assoc.
  - intros pre2 post2 d2 Hpost Hpre2 Hd2 Hyes Hplain Hbb2 Hbk2.
    destruct (handleClientToBackend_body_allowed s' pre2 post2 d2)
      as (p1 & pools1 & Hs1 & Hn1 & _ & _ & _ & _ & _ & Hbody2);
      try assumption; try congruence.
    { now rewrite Hrd, Hpost. }
    rewrite Hplain in Hbody2. eexists. split; [exact Hbody2 |].
    cbn [s_proxy]. split; [| assumption].
    rewrite Hs1. unfold forwarded. now rewrite Hbk, Hbb.
Qed.

Lemma rejected_command_answered_loop_continues_witness :
  exists s',
    handleClientToBackend_body
      (mkSession (sample_proxy [])
                 (mkReader ([Byte.x52; Byte.x45] ++ Byte.x0a
                            :: [Byte.x50; Byte.x49; Byte.x4e; Byte.x47; Byte.x0a]) EOF)
                 no_pools) = inr s'.
Proof.
  destruct (rejected_command_answered_loop_continues
              (mkSession (sample_proxy [])
                         (mkReader ([Byte.x52; Byte.x45] ++ Byte.x0a
                                    :: [Byte.x50; Byte.x49; Byte.x4e; Byte.x47; Byte.x0a]) EOF)
                         no_pools)
              [Byte.x52; Byte.x45] [Byte.x50; Byte.x49; Byte.x4e; Byte.x47; Byte.x0a] Byte.x0a)
    as (s' & Hbody & _).
  - reflexivity.
  - repeat constructor; intros [H | H]; discriminate H.
  - right. reflexivity.
  - vm_compute. reflexivity.
  - unfold in_order. split_and!; [reflexivity | simpl; lia | unfold len; simpl; lia].
  - split; reflexivity.
  - exists s'. exact Hbody.
Defined.

(** Scenario: [PING\n] reaches the backend as it is. *)
Example handleClientToBackend_ping :
  let '(ex, s) :=
    handleClientToBackend (sample_proxy (String.list_byte_of_string "PING" ++ [Byte.x0a]))
                          no_pools in
  (ex, c_sent (backend (s_proxy s)), c_sent (client (s_proxy s)))
  = (ReadCommandFailed EOF, String.list_byte_of_string "PING" ++ [Byte.x0a], []).
Proof. vm_compute. reflexivity. Qed.

(** C9: for an allowed command the loop forwards the command followed by
    its delimiter and flushes at once.  [p1] is the session when that is
    done: the backend connection has received what was given to it before and
    then the command and its delimiter, and the buffer is empty.  Nothing
    after the delimiter has been read by then: the chunk relay (for a
    streaming command) or the next pass of the loop starts from [p1] with the
    input that follows the delimiter. *)
Theorem allowed_command_forwarded_and_flushed
        (s : Session) (pre post : list byte) (d : byte) :
  r_data (s_reader s) = pre ++ d :: post ->
  Forall (fun b => ~ delimiter b) pre -> delimiter d ->
  isCommandAllowed (String.string_of_list_byte pre) = true ->
  in_order (backendBuf (s_proxy s)) -> accepts_writes (backend (s_proxy s)) ->
  exists p1 pools1,
    c_sent (backend p1)
    = c_sent (backend (s_proxy s)) ++ w_buf (backendBuf (s_proxy s)) ++ pre ++ [d]
    /\ w_buf (backendBuf p1) = []
    /\ client p1 = client (s_proxy s) /\ clientBuf p1 = clientBuf (s_proxy s)
    /\ handleClientToBackend_body s
       = if isInstreamCommand (String.string_of_list_byte pre)
         then match handleInstream p1 (mkReader post (r_err (s_reader s))) pools1 with
              | None => inl (StillRunning, mkSession p1 (mkReader post (r_err (s_reader s))) pools1)
              | Some (Some e, p, reader, pools) => inl (InstreamFailed e, mkSession p reader pools)
              | Some (None, p, reader, pools) => inr (mkSession p reader pools)
              end
         else inr (mkSession p1 (mkReader post (r_err (s_reader s))) pools1).
Proof.
  intros Hdata Hpre Hd Hyes Hb Hwr.
  destruct (handleClientToBackend_body_allowed s pre post d Hdata Hpre Hd Hyes Hb Hwr)
    as (p1 & pools1 & Hsent & Hnil & _ & _ & Hcl & Hcb & _ & Hbody).
  exists p1, pools1. split_and!; try assumption.
  rewrite Hsent. unfold forwarded. now rewrite <- List.app_assoc.
Qed.

Lemma allowed_command_forwarded_and_flushed_witness :
  exists p1 pools1,
    c_sent (backend p1) = [] ++ [] ++ [Byte.x50; Byte.x49; Byte.x4e; Byte.x47] ++ [Byte.x0a]
    /\ w_buf (backendBuf p1) = []
    /\ handleClientToBackend_body
         (mkSession (sample_proxy [])
                    (mkReader ([Byte.x50; Byte.x49; Byte.x4e; Byte.x47] ++ Byte.x0a
                               :: [Byte.x52; Byte.x45; Byte.x0a]) EOF)
                    no_pools)
       = inr (mkSession p1 (mkReader [Byte.x52; Byte.x45; Byte.x0a] EOF) pools1).
Proof.
  destruct (allowed_command_forwarded_and_flushed
              (mkSession (sample_proxy [])
                         (mkReader ([Byte.x50; Byte.x49; Byte.x4e; Byte.x47] ++ Byte.x0a
                                    :: [Byte.x52; Byte.x45; Byte.x0a]) EOF)
                         no_pools)
              [Byte.x50; Byte.x49; Byte.x4e; Byte.x47] [Byte.x52; Byte.x45; Byte.x0a] Byte.x0a)
    as (p1 & pools1 & Hsent & Hnil & _ & _ & Hbody).
  - reflexivity.
  - repeat constructor; intros [H | H]; discriminate H.
  - right. reflexivity.
  - vm_compute. reflexivity.
  - unfold in_order. split_and!; [reflexivity | simpl; lia | unfold len; simpl; lia].
  - split; reflexivity.
  - exists p1, pools1. split_and!; [exact Hsent | exact Hnil | exact Hbody].
Defined.

(** *** Where the loop closes the backend connection *)

Lemma Close_closed (c : Conn) : c_closed (snd (net.Close c)) = true.
Proof. unfold net.Close. destruct (c_closed c) eqn:E; simpl; [exact E | reflexivity]. Qed.

(** The exit on a command-read error closes the backend connection. *)
Lemma handleClientToBackend_read_error_closes (fuel : nat) :
  forall (s s' : Session) (e : error),
    handleClientToBackend_loop fuel s = (ReadCommandFailed e, s') ->
    c_closed (backend (s_proxy s')) = true.
Proof.
  induction fuel as [|fuel IH]; intros s s' e; [discriminate |].
  cbn [handleClientToBackend_loop].
  destruct (handleClientToBackend_body s) as [[ex s1] | s1] eqn:Hbody; [| apply IH].
  intros [= -> ->]. revert Hbody. unfold handleClientToBackend_body.
  destruct (readCommand _ _) as [[[[cmd delim] [e1|]] reader] pools].
  - pose proof (Close_closed (backend (s_proxy s))) as Hc.
    destruct (net.Close _) as [x wr]. intros [= _ <-]. exact Hc.
  - destruct (isCommandAllowed cmd).
    + destruct (bufio.Write _ _ _) as [[[n [e2|]] b] wr]; [discriminate |].
      cbv beta iota.
      destruct (bufio.Flush _ _) as [[[e3|] b3] wr3]; [discriminate |].
      destruct (isInstreamCommand cmd); [| discriminate].
      destruct (handleInstream _ _ _) as [[[[[e4|] p4] r4] pl4]|]; discriminate.
    + destruct (bufio.WriteString _ _ _) as [[[n [e2|]] b] wr]; [discriminate |].
      cbv beta iota.
      destruct (bufio.Flush _ _) as [[[e3|] b3] wr3]; discriminate.
Qed.

(** C3, the failing input: the client sends [zINSTREAM\0] and two bytes of
    a length prefix, then closes.  The direction ends on the relay's error
    and the backend connection is left open. *)
Theorem handleClientToBackend_instream_failure_leaves_backend_open :
  let '(ex, s) :=
    handleClientToBackend
      (sample_proxy (String.list_byte_of_string "zINSTREAM"
                     ++ [Byte.x00; Byte.x00; Byte.x00])) no_pools in
  (ex, c_closed (backend (s_proxy s)))
  = (InstreamFailed (wrapError "failed to read chunk size" ErrUnexpectedEOF), false).
Proof. vm_compute. reflexivity. Qed.

(** The same on the other exits that do not come from reading a command:
    a backend that takes no more bytes (the flush of the command fails), and
    a client that takes no more bytes (the rejection cannot be sent). *)
Example handleClientToBackend_write_failures_leave_backend_open :
  (let '(ex, s) :=
     handleClientToBackend
       (sample_proxy_backend_down (String.list_byte_of_string "PING" ++ [Byte.x0a]))
       no_pools in
   (ex, c_closed (backend (s_proxy s))))
  = (FlushCommandFailed (OpError "write" (SyscallError "write" (Errno syscall.EPIPE))), false)
  /\ (let '(ex, s) :=
        handleClientToBackend
          (NewClamdProxy
             (mkConn (String.list_byte_of_string "RELOAD" ++ [Byte.x0a]) EOF []
                     (Some 0) (OpError "write" (SyscallError "write" (Errno syscall.ECONNRESET)))
                     false true)
             (sample_conn []))
          no_pools in
      (ex, c_closed (backend (s_proxy s))))
     = (FlushResponseFailed
          (OpError "write" (SyscallError "write" (Errno syscall.ECONNRESET))), false).
Proof. split; vm_compute; reflexivity. Qed.

(** *** No other exit closes it *)

Lemma net_Write_closed (c : Conn) (p : list byte) :
  c_closed (snd (net.Write c p)) = c_closed c.
Proof.
  unfold net.Write. destruct (c_closed c) eqn:E; [exact E |].
  destruct (c_room c) as [k|]; [destruct (len p <=? k) |]; exact E.
Qed.

Lemma Flush_closed (b : Writer) (wr : Conn) :
  c_closed (snd (bufio.Flush b wr)) = c_closed wr.
Proof.
  unfold bufio.Flush. destruct (w_err b); [reflexivity |].
  destruct (bufio.Buffered b =? 0); [reflexivity |].
  pose proof (net_Write_closed wr (w_buf b)) as H.
  destruct (net.Write wr (w_buf b)) as [[n [e|]] wr']; [exact H |].
  destruct (n <? bufio.Buffered b); exact H.
Qed.

Lemma write_loop_closed (direct : bool) (fuel : nat) :
  forall (b : Writer) (wr : Conn) (p : list byte) (nn : Z),
    let '(_, wr', _, _) := bufio.write_loop direct fuel b wr p nn in
    c_closed wr' = c_closed wr.
Proof.
  induction fuel as [|fuel IH]; intros b wr p nn; cbn [bufio.write_loop]; [reflexivity |].
  destruct ((bufio.Available b <? len p) && _); [| reflexivity].
  destruct ((bufio.Buffered b =? 0) && direct).
  - pose proof (net_Write_closed wr p) as H.
    destruct (net.Write wr p) as [[n err] wr1]. cbn [snd] in H.
    specialize (IH (mkWriter (w_buf b) (w_size b) err) wr1 (from n p) (nn + n)).
    destruct (bufio.write_loop _ _ _ _ _ _) as [[[? wr'] ?] ?]. congruence.
  - set (n := Z.min (bufio.Available b) (len p)).
    pose proof (Flush_closed (mkWriter (w_buf b ++ upto n p) (w_size b) (w_err b)) wr) as H.
    destruct (bufio.Flush _ wr) as [[x b'] wr1]. cbn [snd] in H.
    specialize (IH b' wr1 (from n p) (nn + n)).
    destruct (bufio.write_loop _ _ _ _ _ _) as [[[? wr'] ?] ?]. congruence.
Qed.

Lemma write_with_closed (direct : bool) (b : Writer) (wr : Conn) (p : list byte) :
  c_closed (snd (bufio.write_with direct b wr p)) = c_closed wr.
Proof.
  unfold bufio.write_with.
  pose proof (write_loop_closed direct (2 + length p) b wr p 0) as H.
  destruct (bufio.write_loop _ _ _ _ _ _) as [[[b' wr'] p'] nn].
  destruct (w_err b'); exact H.
Qed.

Lemma readFrom_loop_closed (bs : list byte) :
  forall (b : Writer) (wr : Conn) (srcErr : option error) (n : Z),
    let '(_, _, _, wr', _) := bufio.readFrom_loop b wr bs srcErr n in
    c_closed wr' = c_closed wr.
Proof.
  assert (Hstep : forall (b : Writer) (wr : Conn),
             c_closed (snd (if bufio.Available b =? 0 then bufio.Flush b wr else (None, b, wr)))
             = c_closed wr).
  { intros b wr. destruct (bufio.Available b =? 0); [apply Flush_closed | reflexivity]. }
  assert (Hdirect : forall (wr : Conn) (l : list byte) (srcErr : option error),
             c_closed (snd (net.ReadFrom wr l srcErr)) = c_closed wr).
  { intros wr l srcErr. unfold net.ReadFrom. destruct l as [|c l]; [reflexivity |].
    pose proof (net_Write_closed wr (c :: l)) as H.
    destruct (net.Write wr (c :: l)) as [[n err] wr']. exact H. }
  induction bs as [|c bs IH]; intros b wr srcErr n; cbn [bufio.readFrom_loop];
    specialize (Hstep b wr);
    destruct (if bufio.Available b =? 0 then _ else _) as [[[e|] b1] wr1];
    cbn [snd] in Hstep; try exact Hstep.
  - destruct (c_readerFrom wr1 && _).
    + specialize (Hdirect wr1 [] srcErr).
      destruct (net.ReadFrom _ _ _) as [[? ?] wr2]. cbn [snd] in Hdirect. congruence.
    + destruct srcErr; [exact Hstep |].
      destruct (bufio.Available b1 =? 0); [| exact Hstep].
      pose proof (Flush_closed b1 wr1) as H.
      destruct (bufio.Flush _ _) as [[? ?] wr2]. cbn [snd] in H. congruence.
  - destruct (c_readerFrom wr1 && _).
    + specialize (Hdirect wr1 (c :: bs) srcErr).
      destruct (net.ReadFrom _ _ _) as [[? ?] wr2]. cbn [snd] in Hdirect. congruence.
    + specialize (IH (mkWriter (w_buf b1 ++ [c]) (w_size b1) (w_err b1)) wr1 srcErr (n + 1)).
      destruct (bufio.readFrom_loop _ _ _ _ _) as [[[[? ?] ?] wr'] ?]. congruence.
Qed.

Lemma CopyN_closed (dst : Writer) (wr : Conn) (src : Reader) (n : Z) :
  let '(_, _, _, wr', _) := io.CopyN dst wr src n in
  c_closed wr' = c_closed wr.
Proof.
  unfold io.CopyN, bufio.ReadFrom.
  set (bs := upto n (r_data src)). set (srcErr := if len bs <? n then _ else _).
  destruct (w_err dst).
  - destruct (0 =? n); reflexivity.
  - pose proof (readFrom_loop_closed bs dst wr srcErr 0) as H.
    destruct (bufio.readFrom_loop _ _ _ _ _) as [[[[written err] dst'] wr'] unread].
    destruct (written =? n); exact H.
Qed.

Lemma handleInstream_body_closed (st : InstreamState) :
  match handleInstream_body st with
  | inl (_, st') | inr st' =>
      c_closed (backend (is_proxy st')) = c_closed (backend (is_proxy st))
  end.
Proof.
  unfold handleInstream_body.
  destruct (io.ReadFull (is_reader st) (is_sizeBytes st)) as [[[n1 [e1|]] sizeBytes] reader1];
    [reflexivity |].
  pose proof (write_with_closed true (backendBuf (is_proxy st)) (backend (is_proxy st))
                                sizeBytes) as H2.
  unfold bufio.Write.
  destruct (bufio.write_with true _ _ sizeBytes) as [[[n2 err2] b2] wr2]. cbn [snd] in H2.
  destruct err2 as [e2|]; [exact H2 |]. cbv beta iota.
  destruct (chunk_size sizeBytes =? 0); [exact H2 |].
  assert (Hafter : forall (p2 : ClamdProxy) (reader : Reader) (pools : Pools),
             c_closed (backend p2) = c_closed (backend (is_proxy st)) ->
             match (let chunks := wrap_int (is_chunks st + 1) in
                    if Z.rem chunks 10 =? 0
                    then
                      let '(err, b, wr) := bufio.Flush (backendBuf p2) (backend p2) in
                      let p := set_backend p2 b wr in
                      match err with
                      | Some e0 =>
                          inl (Some (wrapError "failed to flush data" e0),
                               mkInstream p reader pools sizeBytes chunks)
                      | None => inr (mkInstream p reader pools sizeBytes chunks)
                      end
                    else inr (mkInstream p2 reader pools sizeBytes chunks))
             with
             | inl (_, st') | inr st' =>
                 c_closed (backend (is_proxy st')) = c_closed (backend (is_proxy st))
             end).
  { intros p2 reader pools Hp2. cbv zeta. destruct (Z.rem _ 10 =? 0); [| exact Hp2].
    pose proof (Flush_closed (backendBuf p2) (backend p2)) as H.
    destruct (bufio.Flush _ _) as [[[e|] b] wr]; cbn [snd] in H;
      cbn [is_proxy set_backend backend]; congruence. }
  destruct (chunk_size sizeBytes <=? 32 * 1024).
  - destruct (pool.Get _ _) as [chunk idle].
    destruct (io.ReadFull reader1 _) as [[[n3 [e3|]] filled] reader3]; cbv beta iota;
      [exact H2 |].
    set (p1 := set_backend (is_proxy st) b2 wr2).
    pose proof (write_with_closed true (backendBuf p1) (backend p1)
                  (upto (chunk_size sizeBytes) (filled ++ from (chunk_size sizeBytes) chunk)))
      as H4.
    destruct (bufio.write_with true _ _ _) as [[[n4 err4] b4] wr4]. cbn [snd] in H4.
    subst p1. destruct err4 as [e4|]; cbv beta iota.
    + cbn [is_proxy set_backend backend] in *. congruence.
    + apply Hafter. cbn [set_backend backend] in *. congruence.
  - set (p1 := set_backend (is_proxy st) b2 wr2).
    pose proof (CopyN_closed (backendBuf p1) (backend p1) reader1 (chunk_size sizeBytes)) as H3.
    destruct (io.CopyN _ _ _ _) as [[[[n3 err3] b3] wr3] reader3].
    subst p1. destruct err3 as [e3|]; cbv beta iota.
    + cbn [is_proxy set_backend backend] in *. congruence.
    + apply Hafter. cbn [set_backend backend] in *. congruence.
Qed.

Lemma handleInstream_closed (p : ClamdProxy) (reader : Reader) (pools : Pools) :
  match handleInstream p reader pools with
  | Some (_, p', _, _) => c_closed (backend p') = c_closed (backend p)
  | None => True
  end.
Proof.
  unfold handleInstream.
  assert (Hloop : forall fuel st,
             match handleInstream_loop fuel st with
             | Some (_, st') =>
                 c_closed (backend (is_proxy st')) = c_closed (backend (is_proxy st))
             | None => True
             end).
  { induction fuel as [|fuel IH]; intros st; cbn [handleInstream_loop]; [exact I |].
    pose proof (handleInstream_body_closed st) as Hbody.
    destruct (handleInstream_body st) as [[[e|] st1] | st1].
    - exact Hbody.
    - pose proof (Flush_closed (backendBuf (is_proxy st1)) (backend (is_proxy st1))) as H.
      destruct (bufio.Flush _ _) as [[[e|] b] wr]; cbn [snd] in H;
        cbn [is_proxy set_backend backend]; congruence.
    - specialize (IH st1). destruct (handleInstream_loop fuel st1) as [[err st']|];
        [congruence | exact I]. }
  specialize (Hloop (S (length (r_data reader)))
                    (mkInstream p reader pools (repeat Byte.x00 4) 0)).
  destruct (handleInstream_loop _ _) as [[err st']|]; [exact Hloop | exact I].
Qed.

(** A pass of the loop leaves the backend connection as open or closed as
    it was, except on the exit for a command-read error. *)
Lemma handleClientToBackend_body_closed (s : Session) :
  match handleClientToBackend_body s with
  | inl (ReadCommandFailed _, s') => c_closed (backend (s_proxy s')) = true
  | inl (_, s') | inr s' =>
      c_closed (backend (s_proxy s')) = c_closed (backend (s_proxy s))
  end.
Proof.
  unfold handleClientToBackend_body.
  destruct (readCommand _ _) as [[[[cmd delim] [e1|]] reader] pools].
  - pose proof (Close_closed (backend (s_proxy s))) as Hc.
    destruct (net.Close _) as [x wr]. exact Hc.
  - destruct (isCommandAllowed cmd).
    + pose proof (write_with_closed true (backendBuf (s_proxy s)) (backend (s_proxy s))
                    (String.list_byte_of_string cmd ++ [delim])) as H1.
      unfold bufio.Write.
      destruct (bufio.write_with true _ _ _) as [[[n [e2|]] b] wr]; cbn [snd] in H1;
        [exact H1 |].
      cbv beta iota. set (p1 := set_backend (s_proxy s) b wr).
      pose proof (Flush_closed (backendBuf p1) (backend p1)) as H2.
      destruct (bufio.Flush _ _) as [[[e3|] b3] wr3]; cbn [snd] in H2; subst p1;
        [cbn [s_proxy set_backend backend] in *; congruence |].
      destruct (isInstreamCommand cmd);
        [| cbn [s_proxy set_backend backend] in *; congruence].
      pose proof (handleInstream_closed
                    (set_backend (set_backend (s_proxy s) b wr) b3 wr3) reader pools) as H3.
      destruct (handleInstream _ _ _) as [[[[[e4|] p4] r4] pl4]|];
        cbn [s_proxy set_backend backend] in *; congruence.
    + unfold bufio.WriteString.
      destruct (bufio.write_with false _ _ _) as [[[n [e2|]] b] wr]; [reflexivity |].
      cbv beta iota.
      destruct (bufio.Flush _ _) as [[[e3|] b3] wr3]; reflexivity.
Qed.

(** Of all the exits of the loop, the one for a command-read error is the
    only one that closes the backend connection. *)
Lemma handleClientToBackend_closes_only_on_read_error (p : ClamdProxy) (pools : Pools) :
  c_closed (backend p) = false ->
  let '(ex, s) := handleClientToBackend p pools in
  c_closed (backend (s_proxy s)) = true <-> exists e, ex = ReadCommandFailed e.
Proof.
  intros Hopen. unfold handleClientToBackend.
  assert (Hloop : forall fuel s,
             c_closed (backend (s_proxy s)) = false ->
             let '(ex, s') := handleClientToBackend_loop fuel s in
             c_closed (backend (s_proxy s')) = true <-> exists e, ex = ReadCommandFailed e).
  { induction fuel as [|fuel IH]; intros s Hs; cbn [handleClientToBackend_loop].
    - rewrite Hs. split; [discriminate | intros [e He]; discriminate He].
    - pose proof (handleClientToBackend_body_closed s) as Hbody.
      destruct (handleClientToBackend_body s) as [[ex s1] | s1].
      + destruct ex; try (rewrite Hbody, Hs; split;
                          [discriminate | intros [e0 He]; discriminate He]).
        split; [eauto | intros _; exact Hbody].
      + apply IH. congruence. }
  apply Hloop. exact Hopen.
Qed.

End Session.

(** ** Termination *)

Section Termination.
Import Spec.

(** *** The loop of [Write] ends within the passes it is given *)

Lemma net_Write_count (c : Conn) (p : list byte) :
  let '(n, err, _) := net.Write c p in
  err = None -> n = len p.
Proof.
  unfold net.Write. destruct (c_closed c); [discriminate |].
  destruct (c_room c) as [k|]; [| reflexivity].
  destruct (len p <=? k); [reflexivity | discriminate].
Qed.

Lemma Flush_shape (b : Writer) (wr : Conn) :
  len (w_buf b) <= w_size b ->
  let '(_, b', _) := bufio.Flush b wr in
  w_size b' = w_size b /\ len (w_buf b') <= w_size b'
  /\ (w_err b' = None -> w_err b = None /\ w_buf b' = []).
Proof.
  intros Hl. unfold bufio.Flush, bufio.Buffered.
  destruct (w_err b) as [e|] eqn:He.
  - split_and!; [reflexivity | assumption |]. congruence.
  - destruct (len (w_buf b) =? 0) eqn:E.
    + apply Z.eqb_eq in E. split_and!; [reflexivity | assumption |].
      intros _. split; [reflexivity |].
      unfold len in E. destruct (w_buf b); [reflexivity | discriminate].
    + destruct (net.Write wr (w_buf b)) as [[n err] wr'].
      destruct (match err with
                | Some e => Some e
                | None => if n <? len (w_buf b) then Some ErrShortWrite else None
                end) as [e|]; cbn [w_size w_buf w_err].
      * split_and!; [reflexivity | | discriminate].
        unfold from, len in *. rewrite length_drop. lia.
      * split_and!; [reflexivity | len_lia | auto].
Qed.

Lemma write_loop_exits (direct : bool) (fuel : nat) :
  forall (b : Writer) (wr : Conn) (p : list byte) (nn : Z),
    0 < w_size b -> len (w_buf b) <= w_size b ->
    (w_err b <> None /\ 1 <= fuel)%nat
    \/ (length p + (if (bufio.Available b =? 0)%Z then 2 else 1) <= fuel)%nat ->
    let '(b', _, p', _) := bufio.write_loop direct fuel b wr p nn in
    (bufio.Available b' <? len p') && bool_decide (w_err b' = None) = false.
Proof.
  induction fuel as [|fuel IH]; intros b wr p nn Hs Hl Hfuel.
  { destruct Hfuel as [[_ ?] | ?]; [lia |]. destruct (bufio.Available b =? 0); lia. }
  cbn [bufio.write_loop].
  destruct ((bufio.Available b <? len p) && bool_decide (w_err b = None)) eqn:Hguard;
    [| exact Hguard].
  apply andb_true_iff in Hguard as [Hfull%Z.ltb_lt He%bool_decide_eq_true_1].
  destruct Hfuel as [[Hne _] | Hfuel]; [congruence |].
  assert (Hp : (1 <= length p)%nat) by len_lia.
  destruct ((bufio.Buffered b =? 0) && direct) eqn:Hdirect.
  - apply andb_true_iff in Hdirect as [Hempty%Z.eqb_eq _].
    pose proof (net_Write_count wr p) as Hn.
    destruct (net.Write wr p) as [[n [e|]] wr'].
    + apply IH; cbn [w_size w_buf w_err]; try assumption.
      left. split; [discriminate |]. destruct (bufio.Available b =? 0); lia.
    + rewrite (Hn eq_refl), from_all by lia.
      apply IH; cbn [w_size w_buf w_err]; try assumption.
      right. unfold bufio.Available, bufio.Buffered in *. cbn [w_size w_buf].
      destruct (w_size b - len (w_buf b) =? 0) eqn:E; [apply Z.eqb_eq in E; lia |].
      simpl. lia.
  - rewrite Z.min_l by lia. set (n := bufio.Available b) in *.
    assert (Hn : 0 <= n < len p) by (unfold n, bufio.Available in *; lia).
    pose proof (Flush_shape (mkWriter (w_buf b ++ upto n p) (w_size b) (w_err b)) wr) as Hflush.
    destruct (bufio.Flush _ wr) as [[x b'] wr'].
    cbn [w_size w_buf w_err] in Hflush.
    destruct Hflush as (Hsz & Hl' & Hempty).
    { rewrite len_app, len_upto by lia. unfold n, bufio.Available. lia. }
    apply IH; [lia | assumption |].
    destruct (w_err b') as [e|] eqn:He'.
    + left. split; [discriminate |]. destruct (n =? 0); lia.
    + right. destruct (Hempty eq_refl) as [_ Hnil].
      unfold bufio.Available at 1. rewrite Hnil, Hsz.
      destruct (w_size b - len [] =? 0) eqn:E; [apply Z.eqb_eq in E; len_lia |].
      pose proof (len_from n p ltac:(lia)) as Hlf.
      destruct (n =? 0) eqn:En; unfold len in *; lia.
Qed.

(** [Write] and [WriteString] leave their loop because its condition is
    false, not because the passes ran out. *)
Lemma write_with_passes_suffice (direct : bool) (b : Writer) (wr : Conn) (p : list byte) :
  0 < w_size b -> len (w_buf b) <= w_size b ->
  let '(b', _, p', _) := bufio.write_loop direct (2 + length p) b wr p 0 in
  (bufio.Available b' <? len p') && bool_decide (w_err b' = None) = false.
Proof.
  intros Hs Hl. apply write_loop_exits; try assumption.
  right. destruct (bufio.Available b =? 0); lia.
Qed.

(** *** The loops end *)

Lemma ReadFull_reader (r : Reader) (buf : list byte) :
  let '(_, err, buf', r') := io.ReadFull r buf in
  (length (r_data r') <= length (r_data r))%nat
  /\ (err = None ->
      (length (r_data r') + length buf = length (r_data r))%nat
      /\ length buf' = length buf).
Proof.
  unfold io.ReadFull.
  destruct (length (firstn (length buf) (r_data r)) =? length buf)%nat eqn:E.
  - apply Nat.eqb_eq in E. cbn [r_data]. rewrite length_drop.
    rewrite length_take in E. split; [lia |]. intros _. rewrite length_take. lia.
  - cbn [r_data]. split; [simpl; lia | discriminate].
Qed.

Lemma readFrom_loop_unread (bs : list byte) :
  forall (b : Writer) (wr : Conn) (srcErr : option error) (n : Z),
    let '(_, _, _, _, unread) := bufio.readFrom_loop b wr bs srcErr n in
    (length unread <= length bs)%nat.
Proof.
  induction bs as [|c bs IH]; intros b wr srcErr n; cbn [bufio.readFrom_loop].
  - destruct (if bufio.Available b =? 0 then _ else _) as [[[e|] b1] wr1]; [reflexivity |].
    destruct (c_readerFrom wr1 && _).
    + destruct (net.ReadFrom _ _ _) as [[? ?] ?]. reflexivity.
    + destruct srcErr; [reflexivity |].
      destruct (bufio.Available b1 =? 0); [| reflexivity].
      destruct (bufio.Flush _ _) as [[? ?] ?]. reflexivity.
  - destruct (if bufio.Available b =? 0 then _ else _) as [[[e|] b1] wr1]; [reflexivity |].
    destruct (c_readerFrom wr1 && _).
    + destruct (net.ReadFrom _ _ _) as [[? ?] ?]. simpl. lia.
    + specialize (IH (mkWriter (w_buf b1 ++ [c]) (w_size b1) (w_err b1)) wr1 srcErr (n + 1)).
      destruct (bufio.readFrom_loop _ _ _ _ _) as [[[[? ?] ?] ?] unread]. simpl. lia.
Qed.

Lemma CopyN_reader (dst : Writer) (wr : Conn) (src : Reader) (n : Z) :
  let '(_, _, _, _, src') := io.CopyN dst wr src n in
  (length (r_data src') <= length (r_data src))%nat.
Proof.
  unfold io.CopyN, bufio.ReadFrom.
  set (bs := upto n (r_data src)). set (srcErr := if len bs <? n then _ else _).
  assert (Hsplit : (length bs + length (from n (r_data src)) = length (r_data src))%nat).
  { unfold bs. rewrite <- length_app, upto_from. reflexivity. }
  destruct (w_err dst) as [e|].
  - destruct (0 =? n); cbn [r_data]; rewrite length_app; lia.
  - pose proof (readFrom_loop_unread bs dst wr srcErr 0) as H.
    destruct (bufio.readFrom_loop _ _ _ _ _) as [[[[written err] dst'] wr'] unread].
    destruct (written =? n); cbn [r_data]; rewrite length_app; lia.
Qed.

(** A pass through the chunk loop never gives bytes back to the reader,
    and a pass after which the loop goes round again has read the four bytes
    of a length prefix. *)
Lemma handleInstream_body_progress (st : InstreamState) :
  length (is_sizeBytes st) = 4%nat ->
  match handleInstream_body st with
  | inl (_, st') => (length (r_data (is_reader st')) <= length (r_data (is_reader st)))%nat
  | inr st' =>
      (length (r_data (is_reader st')) + 4 <= length (r_data (is_reader st)))%nat
      /\ length (is_sizeBytes st') = 4%nat
  end.
Proof.
  intros Hsz. unfold handleInstream_body.
  pose proof (ReadFull_reader (is_reader st) (is_sizeBytes st)) as H1.
  destruct (io.ReadFull (is_reader st) (is_sizeBytes st)) as [[[n1 [e1|]] sizeBytes] reader1];
    destruct H1 as [Hle1 Hok1]; [exact Hle1 |].
  destruct (Hok1 eq_refl) as [Heq1 Hlen1]. rewrite Hsz in *.
  destruct (bufio.Write _ _ _) as [[[n2 [e2|]] b2] wr2]; cbv beta iota;
    [cbn [is_reader]; lia |].
  destruct (chunk_size sizeBytes =? 0); [cbn [is_reader]; lia |].
  assert (Hafter : forall (p2 : ClamdProxy) (reader : Reader) (pools : Pools),
             (length (r_data reader) <= length (r_data reader1))%nat ->
             match (let chunks := wrap_int (is_chunks st + 1) in
                    if Z.rem chunks 10 =? 0
                    then
                      let '(err, b, wr) := bufio.Flush (backendBuf p2) (backend p2) in
                      let p := set_backend p2 b wr in
                      match err with
                      | Some e0 =>
                          inl (Some (wrapError "failed to flush data" e0),
                               mkInstream p reader pools sizeBytes chunks)
                      | None => inr (mkInstream p reader pools sizeBytes chunks)
                      end
                    else inr (mkInstream p2 reader pools sizeBytes chunks))
             with
             | inl (_, st') =>
                 (length (r_data (is_reader st')) <= length (r_data (is_reader st)))%nat
             | inr st' =>
                 (length (r_data (is_reader st')) + 4 <= length (r_data (is_reader st)))%nat
                 /\ length (is_sizeBytes st') = 4%nat
             end).
  { intros p2 reader pools Hle. cbv zeta. destruct (Z.rem _ 10 =? 0).
    - destruct (bufio.Flush _ _) as [[[e|] b] wr]; cbn [is_reader is_sizeBytes]; [lia |].
      split; [lia | assumption].
    - cbn [is_reader is_sizeBytes]. split; [lia | assumption]. }
  destruct (chunk_size sizeBytes <=? 32 * 1024).
  - destruct (pool.Get _ _) as [chunk idle].
    pose proof (ReadFull_reader reader1 (upto (chunk_size sizeBytes) chunk)) as H3.
    destruct (io.ReadFull reader1 _) as [[[n3 [e3|]] filled] reader3];
      destruct H3 as [Hle3 _]; cbv beta iota; [cbn [is_reader]; lia |].
    destruct (bufio.Write _ _ _) as [[[n4 [e4|]] b4] wr4]; cbv beta iota;
      [cbn [is_reader]; lia |].
    apply Hafter. exact Hle3.
  - pose proof (CopyN_reader (backendBuf (set_backend (is_proxy st) b2 wr2))
                             (backend (set_backend (is_proxy st) b2 wr2))
                             reader1 (chunk_size sizeBytes)) as H3.
    destruct (io.CopyN _ _ _ _) as [[[[n3 [e3|]] b3] wr3] reader3]; cbv beta iota;
      [cbn [is_reader]; lia |].
    apply Hafter. exact H3.
Qed.

Lemma handleInstream_loop_ends (fuel : nat) :
  forall st : InstreamState,
    length (is_sizeBytes st) = 4%nat ->
    (length (r_data (is_reader st)) < 4 * fuel)%nat ->
    exists err st',
      handleInstream_loop fuel st = Some (err, st')
      /\ (length (r_data (is_reader st')) <= length (r_data (is_reader st)))%nat.
Proof.
  induction fuel as [|fuel IH]; intros st Hsz Hfuel; [lia |].
  cbn [handleInstream_loop].
  pose proof (handleInstream_body_progress st Hsz) as Hstep.
  destruct (handleInstream_body st) as [[[e|] st1] | st1].
  - eauto.
  - destruct (bufio.Flush _ _) as [[[e|] b] wr]; eexists _, _; (split; [reflexivity |]);
      cbn [is_reader]; exact Hstep.
  - destruct Hstep as [Hle Hsz1].
    destruct (IH st1 Hsz1) as (err & st' & -> & Hle'); [lia |].
    exists err, st'. split; [reflexivity | lia].
Qed.

(** [handleInstream] always returns: the passes it is given suffice. *)
Lemma handleInstream_total (p : ClamdProxy) (reader : Reader) (pools : Pools) :
  exists err p' reader' pools',
    handleInstream p reader pools = Some (err, p', reader', pools')
    /\ (length (r_data reader') <= length (r_data reader))%nat.
Proof.
  unfold handleInstream.
  destruct (handleInstream_loop_ends (S (length (r_data reader)))
              (mkInstream p reader pools (repeat Byte.x00 4) 0))
    as (err & st' & -> & Hle); [reflexivity | cbn [is_reader]; lia |].
  eexists _, _, _, _. split; [reflexivity | exact Hle].
Qed.

Lemma readCommand_loop_reader (e : error) (data : list byte) :
  forall acc buf : list byte,
    let '(_, _, err, rest, _) := readCommand_loop e data acc buf in
    match err with
    | None => (length rest < length data)%nat
    | Some _ => (length rest <= length data)%nat
    end.
Proof.
  induction data as [|b data IH]; intros acc buf; simpl; [lia |].
  destruct (Byte.eqb b nullDelimiter || Byte.eqb b newlineDelimiter); [lia |].
  specialize (IH (acc ++ [b]) (acc ++ [b])).
  destruct (readCommand_loop _ _ _ _) as [[[[? ?] [?|]] rest] ?]; lia.
Qed.

(** A pass after which the loop goes round again has read at least the
    delimiter of a command, and no pass ends as [StillRunning]. *)
Lemma handleClientToBackend_body_progress (s : Session) :
  match handleClientToBackend_body s with
  | inl (ex, _) => ex <> StillRunning
  | inr s' => (length (r_data (s_reader s')) < length (r_data (s_reader s)))%nat
  end.
Proof.
  unfold handleClientToBackend_body, readCommand.
  destruct (pool.Get _ _) as [bufPtr idle].
  pose proof (readCommand_loop_reader (r_err (s_reader s)) (r_data (s_reader s))
                                      (firstn 0 bufPtr) bufPtr) as Hread.
  destruct (readCommand_loop _ _ _ _) as [[[[cmd delim] [e|]] rest] buf'].
  - destruct (net.Close _) as [? wr]. discriminate.
  - destruct (isCommandAllowed cmd).
    + destruct (bufio.Write _ _ _) as [[[n [e2|]] b] wr]; [discriminate |].
      cbv beta iota.
      destruct (bufio.Flush _ _) as [[[e3|] b3] wr3]; [discriminate |].
      destruct (isInstreamCommand cmd); [| cbn [s_reader r_data]; exact Hread].
      destruct (handleInstream_total (set_backend (set_backend (s_proxy s) b wr) b3 wr3)
                  (mkReader rest (r_err (s_reader s)))
                  (mkPools (pool.Put buf' idle) (chunkBufPool (s_pools s))))
        as (err & p' & reader' & pools' & -> & Hle).
      destruct err; [discriminate |]. cbn [s_reader r_data] in *. lia.
    + destruct (bufio.WriteString _ _ _) as [[[n [e2|]] b] wr]; [discriminate |].
      cbv beta iota.
      destruct (bufio.Flush _ _) as [[[e3|] b3] wr3]; [discriminate |].
      cbn [s_reader r_data]. exact Hread.
Qed.

Lemma handleClientToBackend_loop_ends (fuel : nat) :
  forall s : Session,
    (length (r_data (s_reader s)) < fuel)%nat ->
    fst (handleClientToBackend_loop fuel s) <> StillRunning.
Proof.
  induction fuel as [|fuel IH]; intros s Hfuel; [lia |].
  cbn [handleClientToBackend_loop].
  pose proof (handleClientToBackend_body_progress s) as Hstep.
  destruct (handleClientToBackend_body s) as [[ex s1] | s1]; [exact Hstep |].
  apply IH. lia.
Qed.

(** [handleClientToBackend] always ends, by one of the exits of the source. *)
Lemma handleClientToBackend_total (p : ClamdProxy) (pools : Pools) :
  fst (handleClientToBackend p pools) <> StillRunning.
Proof.
  unfold handleClientToBackend. apply handleClientToBackend_loop_ends.
  cbn [s_reader]. lia.
Qed.

End Termination.

(** ** The relay, whatever the connections do *)

Section Relay.
Import Spec.

Lemma net_Write_sent (c : Conn) (p : list byte) :
  let '(n, err, c') := net.Write c p in
  c_sent c' = c_sent c ++ upto n p /\ n <= len p /\ (err = None -> n = len p).
Proof.
  unfold net.Write. pose proof (len_nonneg p). destruct (c_closed c).
  - split_and!; [| lia | discriminate]. unfold upto. simpl. now rewrite app_nil_r.
  - destruct (c_room c) as [k|].
    + destruct (len p <=? k) eqn:E; simpl.
      * split_and!; [now rewrite upto_all by lia | lia | reflexivity].
      * apply Z.leb_gt in E. split_and!; [reflexivity | lia | discriminate].
    + simpl. split_and!; [now rewrite upto_all by lia | lia | reflexivity].
Qed.

(** [Flush] moves bytes from the buffer to the connection and changes
    nothing else. *)
Lemma Flush_stream (b : Writer) (wr : Conn) :
  let '(_, b', wr') := bufio.Flush b wr in
  stream b' wr' = stream b wr.
Proof.
  unfold bufio.Flush, stream. destruct (w_err b); [reflexivity |].
  destruct (bufio.Buffered b =? 0); [reflexivity |].
  pose proof (net_Write_sent wr (w_buf b)) as H.
  destruct (net.Write wr (w_buf b)) as [[n err] wr']. destruct H as (Hsent & _ & Hall).
  destruct err as [e|]; cbn [w_buf].
  - rewrite Hsent, <- List.app_assoc. now rewrite upto_from.
  - rewrite (Hall eq_refl) in *. rewrite Z.ltb_irrefl. cbn [w_buf].
    rewrite Hsent, upto_all by lia. now rewrite app_nil_r.
Qed.

Lemma Flush_well_formed (b : Writer) (wr : Conn) :
  well_formed b ->
  let '(_, b', _) := bufio.Flush b wr in
  well_formed b' /\ (w_err b' = None -> w_buf b' = []).
Proof.
  intros [Hs Hl]. pose proof (Flush_shape b wr Hl) as H.
  destruct (bufio.Flush b wr) as [[x b'] wr']. destruct H as (Hsz & Hl' & Hempty).
  split; [split; [lia | assumption] |]. intros He. now apply Hempty.
Qed.

Lemma write_loop_stream (direct : bool) (fuel : nat) :
  forall (b : Writer) (wr : Conn) (p : list byte) (nn : Z),
    well_formed b ->
    let '(b', wr', p', _) := bufio.write_loop direct fuel b wr p nn in
    well_formed b'
    /\ exists q, stream b' wr' = stream b wr ++ q /\ q ++ p' = p.
Proof.
  induction fuel as [|fuel IH]; intros b wr p nn Hwf; cbn [bufio.write_loop].
  { split; [assumption |]. exists []. now rewrite app_nil_r. }
  destruct ((bufio.Available b <? len p) && bool_decide (w_err b = None)) eqn:Hguard.
  2:{ split; [assumption |]. exists []. now rewrite app_nil_r. }
  apply andb_true_iff in Hguard as [Hfull%Z.ltb_lt He%bool_decide_eq_true_1].
  destruct ((bufio.Buffered b =? 0) && direct) eqn:Hdirect.
  - apply andb_true_iff in Hdirect as [Hempty%Z.eqb_eq _].
    assert (Hnil : w_buf b = []).
    { unfold bufio.Buffered, len in Hempty. destruct (w_buf b); [reflexivity | discriminate]. }
    pose proof (net_Write_sent wr p) as Hw.
    destruct (net.Write wr p) as [[n err] wr1]. destruct Hw as (Hsent & _ & _).
    specialize (IH (mkWriter (w_buf b) (w_size b) err) wr1 (from n p) (nn + n) Hwf).
    destruct (bufio.write_loop _ _ _ _ _ _) as [[[b' wr'] p'] nn'].
    destruct IH as (Hwf' & q & Hq & Hcat). split; [assumption |].
    exists (upto n p ++ q). split.
    + rewrite Hq. unfold stream. cbn [w_buf]. rewrite Hsent, Hnil.
      now rewrite !app_nil_r, <- List.app_assoc.
    + rewrite <- List.app_assoc, Hcat. apply upto_from.
  - set (n := Z.min (bufio.Available b) (len p)).
    assert (Hn : 0 <= n <= len p).
    { destruct Hwf. unfold n, bufio.Available in *. lia. }
    pose proof (Flush_stream (mkWriter (w_buf b ++ upto n p) (w_size b) (w_err b)) wr) as Hst.
    pose proof (Flush_well_formed (mkWriter (w_buf b ++ upto n p) (w_size b) (w_err b)) wr) as Hfw.
    destruct (bufio.Flush _ wr) as [[x b1] wr1].
    destruct Hfw as [Hwf1 _].
    { destruct Hwf. split; cbn [w_size w_buf]; [assumption |].
      rewrite len_app, len_upto by lia. unfold n, bufio.Available. lia. }
    specialize (IH b1 wr1 (from n p) (nn + n) Hwf1).
    destruct (bufio.write_loop _ _ _ _ _ _) as [[[b' wr'] p'] nn'].
    destruct IH as (Hwf' & q & Hq & Hcat). split; [assumption |].
    exists (upto n p ++ q). split.
    + rewrite Hq, Hst. unfold stream. cbn [w_buf]. now rewrite <- !List.app_assoc.
    + rewrite <- List.app_assoc, Hcat. apply upto_from.
Qed.

(** [Write] and [WriteString] on any connection: what they add to the
    stream is a prefix of [p], and all of [p] when they report no error. *)
Lemma write_with_stream (direct : bool) (b : Writer) (wr : Conn) (p : list byte) :
  well_formed b ->
  let '(_, err, b', wr') := bufio.write_with direct b wr p in
  well_formed b'
  /\ exists q, stream b' wr' = stream b wr ++ q /\ q `prefix_of` p
               /\ (err = None -> q = p).
Proof.
  intros Hwf. unfold bufio.write_with.
  pose proof (write_loop_stream direct (2 + length p) b wr p 0 Hwf) as Hloop.
  pose proof (write_with_passes_suffice direct b wr p (proj1 Hwf) (proj2 Hwf)) as Hexit.
  destruct (bufio.write_loop _ _ _ _ _ _) as [[[b' wr'] p'] nn].
  destruct Hloop as (Hwf' & q & Hq & Hcat).
  destruct (w_err b') as [e|] eqn:He.
  - split; [assumption |]. exists q. split_and!; [assumption | | discriminate].
    exists p'. now rewrite Hcat.
  - rewrite andb_false_iff in Hexit. destruct Hexit as [Hfit%Z.ltb_ge | Hne].
    2:{ rewrite bool_decide_eq_false in Hne. congruence. }
    rewrite Z.min_r by lia. rewrite upto_all by lia.
    split.
    + destruct Hwf'. split; cbn [w_size w_buf]; [assumption |].
      rewrite len_app. unfold bufio.Available in Hfit. lia.
    + exists p. split_and!; [| reflexivity | reflexivity].
      unfold stream in *. cbn [w_buf]. rewrite List.app_assoc, Hq.
      now rewrite <- List.app_assoc, Hcat.
Qed.

Lemma net_ReadFrom_sent (c : Conn) (bs : list byte) (srcErr : option error) :
  let '(n, _, c') := net.ReadFrom c bs srcErr in
  exists q, c_sent c' = c_sent c ++ q /\ q `prefix_of` bs /\ n <= len q.
Proof.
  unfold net.ReadFrom. destruct bs as [|c0 bs].
  - exists []. split_and!; [now rewrite app_nil_r | reflexivity | reflexivity].
  - pose proof (net_Write_sent c (c0 :: bs)) as H.
    destruct (net.Write c (c0 :: bs)) as [[n err] c']. destruct H as (Hsent & Hle & _).
    exists (upto n (c0 :: bs)). split_and!; [assumption | |].
    + exists (from n (c0 :: bs)). symmetry. apply upto_from.
    + unfold upto, len in *. rewrite length_take. lia.
Qed.

Lemma readFrom_loop_stream (bs : list byte) :
  forall (b : Writer) (wr : Conn) (srcErr : option error) (n : Z),
    well_formed b ->
    let '(written, _, b', wr', unread) := bufio.readFrom_loop b wr bs srcErr n in
    well_formed b'
    /\ exists q, stream b' wr' = stream b wr ++ q /\ q `prefix_of` bs
                 /\ written - n <= len q /\ len q + len unread <= len bs.
Proof.
  assert (Hstep : forall (b : Writer) (wr : Conn),
             well_formed b ->
             let '(err1, b1, wr1) :=
               if bufio.Available b =? 0 then bufio.Flush b wr else (None, b, wr) in
             well_formed b1 /\ stream b1 wr1 = stream b wr
             /\ (err1 = None -> 0 < bufio.Available b1)).
  { intros b wr Hwf. destruct (bufio.Available b =? 0) eqn:E.
    - pose proof (Flush_stream b wr) as Hs. pose proof (Flush_well_formed b wr Hwf) as Hw.
      destruct (bufio.Flush b wr) as [[err1 b1] wr1] eqn:Hf. destruct Hw as [Hw _].
      split_and!; [assumption.. |]. intros ->.
      destruct (Flush_nil_empty _ _ _ _ Hf) as [Hnil _]. destruct Hw.
      unfold bufio.Available. rewrite Hnil. len_lia.
    - apply Z.eqb_neq in E. split_and!; [assumption | reflexivity |].
      intros _. destruct Hwf. unfold bufio.Available in *. lia. }
  induction bs as [|c bs IH]; intros b wr srcErr n Hwf; cbn [bufio.readFrom_loop];
    specialize (Hstep b wr Hwf);
    destruct (if bufio.Available b =? 0 then _ else _) as [[[e|] b1] wr1];
    destruct Hstep as (Hwf1 & Hst1 & Hav).
  - split; [assumption |]. exists []. rewrite app_nil_r.
    split_and!; [assumption | reflexivity | len_lia | len_lia].
  - destruct (c_readerFrom wr1 && _).
    + pose proof (net_ReadFrom_sent wr1 [] srcErr) as Hd.
      destruct (net.ReadFrom _ _ _) as [[nn err] wr2].
      destruct Hd as (q & Hsent & Hpre & Hnn).
      split; [exact Hwf1 |]. exists q. split_and!; [| assumption | lia | ].
      * unfold stream in *. cbn [w_buf]. rewrite Hsent, <- Hst1.
        destruct Hpre as [k Hk]. symmetry in Hk. apply app_eq_nil in Hk as [-> _].
        now rewrite !app_nil_r.
      * destruct Hpre as [k Hk]. symmetry in Hk. apply app_eq_nil in Hk as [-> _]. len_lia.
    + destruct srcErr as [e|].
      * split; [assumption |]. exists []. rewrite app_nil_r.
        split_and!; [assumption | reflexivity | len_lia | len_lia].
      * destruct (bufio.Available b1 =? 0).
        -- pose proof (Flush_stream b1 wr1) as Hs.
           pose proof (Flush_well_formed b1 wr1 Hwf1) as Hw.
           destruct (bufio.Flush b1 wr1) as [[err2 b2] wr2]. destruct Hw as [Hw _].
           split; [assumption |]. exists []. rewrite app_nil_r.
           split_and!; [congruence | reflexivity | len_lia | len_lia].
        -- split; [assumption |]. exists []. rewrite app_nil_r.
           split_and!; [assumption | reflexivity | len_lia | len_lia].
  - split; [assumption |]. exists []. rewrite app_nil_r.
    split_and!; [assumption | apply prefix_nil | len_lia | len_lia].
  - destruct (c_readerFrom wr1 && (bufio.Buffered b1 =? 0)) eqn:Hd.
    + apply andb_true_iff in Hd as [_ Hempty%Z.eqb_eq].
      assert (Hnil : w_buf b1 = []).
      { unfold bufio.Buffered, len in Hempty. destruct (w_buf b1); [reflexivity | discriminate]. }
      pose proof (net_ReadFrom_sent wr1 (c :: bs) srcErr) as Hdir.
      destruct (net.ReadFrom _ _ _) as [[nn err] wr2].
      destruct Hdir as (q & Hsent & Hpre & Hnn).
      split; [exact Hwf1 |]. exists q. split_and!; [| assumption | lia |].
      * unfold stream in *. cbn [w_buf]. rewrite Hsent, <- Hst1, Hnil.
        now rewrite !app_nil_r.
      * destruct Hpre as [k ->]. rewrite len_app. len_lia.
    + specialize (IH (mkWriter (w_buf b1 ++ [c]) (w_size b1) (w_err b1)) wr1 srcErr (n + 1)).
      destruct (bufio.readFrom_loop _ _ _ _ _) as [[[[written err] b'] wr'] unread].
      destruct IH as (Hwf' & q & Hq & Hpre & Hw & Hu).
      { destruct Hwf1. split; cbn [w_size w_buf]; [assumption |].
        rewrite len_app. specialize (Hav eq_refl). len_lia. }
      split; [assumption |]. exists (c :: q). split_and!.
      * rewrite Hq. unfold stream in *. cbn [w_buf].
        rewrite List.app_assoc, Hst1. now rewrite <- !List.app_assoc.
      * now apply prefix_cons.
      * len_lia.
      * len_lia.
Qed.

(** [io.CopyN] on any connection: what it adds to the stream is a prefix
    of the source, and when it reports no error it has read exactly [n]
    bytes and added them all. *)
Lemma CopyN_stream (dst : Writer) (wr : Conn) (src : Reader) (n : Z) :
  well_formed dst -> 0 <= n ->
  let '(_, err, dst', wr', src') := io.CopyN dst wr src n in
  well_formed dst'
  /\ exists q, stream dst' wr' = stream dst wr ++ q /\ q `prefix_of` r_data src
               /\ (err = None ->
                   len q = n /\ r_data src = q ++ r_data src').
Proof.
  intros Hwf Hn. unfold io.CopyN, bufio.ReadFrom.
  set (bs := upto n (r_data src)). set (srcErr := if len bs <? n then _ else _).
  assert (Hbs : bs `prefix_of` r_data src /\ len bs <= n).
  { split; [exists (from n (r_data src)); symmetry; apply upto_from |].
    unfold bs, upto, len. rewrite length_take. lia. }
  destruct Hbs as [Hbs Hlen].
  destruct (w_err dst) as [e|].
  - assert (Hnone : exists q, stream dst wr = stream dst wr ++ q /\ q `prefix_of` r_data src
                              /\ q = []).
    { exists []. split_and!; [now rewrite app_nil_r | apply prefix_nil | reflexivity]. }
    destruct Hnone as (q & Hq & Hpre & ->).
    destruct (0 =? n) eqn:E.
    + apply Z.eqb_eq in E. split; [assumption |]. exists [].
      split_and!; [assumption.. |]. intros _. split; [len_lia |].
      cbn [r_data app]. subst n. unfold bs, upto, from. simpl. reflexivity.
    + split; [assumption |]. exists []. split_and!; [assumption.. | discriminate].
  - pose proof (readFrom_loop_stream bs dst wr srcErr 0 Hwf) as H.
    destruct (bufio.readFrom_loop _ _ _ _ _) as [[[[written err] dst'] wr'] unread].
    destruct H as (Hwf' & q & Hq & Hpre & Hw & Hu).
    assert (Hall : written = n -> len q = n /\ r_data src = q ++ unread ++ from n (r_data src)).
    { intros ->. pose proof (len_nonneg unread).
      assert (Hqn : len q = len bs) by lia.
      assert (unread = []) as -> by (destruct unread; [reflexivity | len_lia]).
      destruct Hpre as [k Hk].
      assert (k = []) as ->.
      { rewrite Hk, len_app in Hqn. destruct k; [reflexivity | len_lia]. }
      rewrite app_nil_r in Hk. subst q. split; [lia |]. cbn [app].
      symmetry. apply upto_from. }
    destruct (written =? n) eqn:E.
    + apply Z.eqb_eq in E. split; [assumption |]. exists q.
      split_and!; [assumption | exact (transitivity Hpre Hbs) | intros _; now apply Hall].
    + apply Z.eqb_neq in E. split; [assumption |]. exists q.
      split_and!; [assumption | exact (transitivity Hpre Hbs) |].
      destruct err as [e|]; [discriminate |].
      destruct (written <? n) eqn:E2; [discriminate |].
      apply Z.ltb_ge in E2. pose proof (len_nonneg unread). lia.
Qed.

Lemma ReadFull_cases (r : Reader) (buf : list byte) :
  let '(_, err, buf', r') := io.ReadFull r buf in
  length buf' = length buf
  /\ (err = None -> r_data r = buf' ++ r_data r').
Proof.
  unfold io.ReadFull.
  destruct (length (firstn (length buf) (r_data r)) =? length buf)%nat eqn:E.
  - apply Nat.eqb_eq in E. split; [exact E |]. intros _. cbn [r_data].
    symmetry. apply firstn_skipn.
  - split; [| discriminate]. apply Nat.eqb_neq in E.
    rewrite length_app, length_drop. rewrite length_take in *. lia.
Qed.

Lemma byteZ_zero (b : byte) : byteZ b = 0 -> b = Byte.x00.
Proof. destruct b; intros H; try reflexivity; discriminate H. Qed.

Lemma be32_zero (hdr : list byte) :
  length hdr = 4%nat -> be32 hdr = 0 -> hdr = [Byte.x00; Byte.x00; Byte.x00; Byte.x00].
Proof.
  destruct hdr as [|b0 [|b1 [|b2 [|b3 [|? ?]]]]]; try discriminate. intros _.
  unfold be32.
  pose proof (byteZ_range b0). pose proof (byteZ_range b1).
  pose proof (byteZ_range b2). pose proof (byteZ_range b3).
  intros Hz.
  assert (byteZ b0 = 0 /\ byteZ b1 = 0 /\ byteZ b2 = 0 /\ byteZ b3 = 0) as (Z0 & Z1 & Z2 & Z3)
    by lia.
  now rewrite (byteZ_zero b0 Z0), (byteZ_zero b1 Z1), (byteZ_zero b2 Z2), (byteZ_zero b3 Z3).
Qed.

Lemma handleInstream_body_general (st : InstreamState) :
  well_formed (backendBuf (is_proxy st)) ->
  length (is_sizeBytes st) = 4%nat ->
  chunk_buffers_sized (is_pools st) ->
  match handleInstream_body st with
  | inl (err, st') =>
      pass_invariant st st'
      /\ exists q,
          forwarded (is_proxy st') = forwarded (is_proxy st) ++ q
          /\ q `prefix_of` r_data (is_reader st)
          /\ (err = None ->
              q = [Byte.x00; Byte.x00; Byte.x00; Byte.x00]
              /\ r_data (is_reader st) = q ++ r_data (is_reader st'))
  | inr st' =>
      pass_invariant st st'
      /\ length (is_sizeBytes st') = 4%nat
      /\ exists hdr payload,
          length hdr = 4%nat /\ be32 hdr = len payload /\ 0 < len payload
          /\ r_data (is_reader st) = hdr ++ payload ++ r_data (is_reader st')
          /\ forwarded (is_proxy st') = forwarded (is_proxy st) ++ hdr ++ payload
  end.
Proof.
  intros Hwf Hsz Hpools. unfold handleInstream_body.
  set (p := is_proxy st) in *. set (data := r_data (is_reader st)).
  assert (Hinv0 : pass_invariant st st).
  { unfold pass_invariant. fold p. auto. }
  pose proof (ReadFull_cases (is_reader st) (is_sizeBytes st)) as H1.
  destruct (io.ReadFull (is_reader st) (is_sizeBytes st)) as [[[n1 err1] hdr] reader1].
  destruct H1 as [Hhdr Hdata1]. rewrite Hsz in Hhdr.
  destruct err1 as [e1|].
  { split; [exact Hinv0 |]. exists []. cbn [is_proxy]. fold p.
    split_and!; [now rewrite app_nil_r | apply prefix_nil | discriminate]. }
  specialize (Hdata1 eq_refl). fold data in Hdata1.
  pose proof (write_with_stream true (backendBuf p) (backend p) hdr Hwf) as H2.
  unfold bufio.Write.
  destruct (bufio.write_with true _ _ hdr) as [[[n2 err2] b2] wr2].
  destruct H2 as (Hwf2 & q2 & Hq2 & Hpre2 & Hall2). cbv beta iota.
  set (p2 := set_backend p b2 wr2).
  assert (Hfw2 : forwarded p2 = forwarded p ++ q2) by exact Hq2.
  destruct err2 as [e2|].
  { split; [unfold pass_invariant; cbn [is_proxy is_pools]; auto |].
    exists q2. cbn [is_proxy]. split_and!; [assumption | | discriminate].
    rewrite Hdata1. now apply prefix_app_r. }
  specialize (Hall2 eq_refl). subst q2.
  destruct (chunk_size_be32 hdr Hhdr) as [Hcs Hrange]. rewrite Hcs.
  destruct (be32 hdr =? 0) eqn:Ezero.
  { apply Z.eqb_eq in Ezero.
    split; [unfold pass_invariant; cbn [is_proxy is_pools]; auto |].
    exists hdr. cbn [is_proxy is_reader].
    split_and!; [assumption | rewrite Hdata1; now apply prefix_app_r |].
    intros _. split; [now apply be32_zero | exact Hdata1]. }
  apply Z.eqb_neq in Ezero.
  (* what follows a forwarded chunk *)
  assert (Hafter : forall (p3 : ClamdProxy) (reader : Reader) (pools : Pools) (payload : list byte),
             well_formed (backendBuf p3) -> chunk_buffers_sized pools ->
             cmdBufPool pools = cmdBufPool (is_pools st) ->
             client p3 = client p -> clientBuf p3 = clientBuf p ->
             be32 hdr = len payload ->
             data = hdr ++ payload ++ r_data reader ->
             forwarded p3 = forwarded p ++ hdr ++ payload ->
             match (let chunks := wrap_int (is_chunks st + 1) in
                    if Z.rem chunks 10 =? 0
                    then
                      let '(err, b, wr) := bufio.Flush (backendBuf p3) (backend p3) in
                      let p := set_backend p3 b wr in
                      match err with
                      | Some e0 =>
                          inl (Some (wrapError "failed to flush data" e0),
                               mkInstream p reader pools hdr chunks)
                      | None => inr (mkInstream p reader pools hdr chunks)
                      end
                    else inr (mkInstream p3 reader pools hdr chunks))
             with
             | inl (err, st') =>
                 pass_invariant st st'
                 /\ exists q,
                     forwarded (is_proxy st') = forwarded p ++ q
                     /\ q `prefix_of` data
                     /\ (err = None ->
                         q = [Byte.x00; Byte.x00; Byte.x00; Byte.x00]
                         /\ data = q ++ r_data (is_reader st'))
             | inr st' =>
                 pass_invariant st st'
                 /\ length (is_sizeBytes st') = 4%nat
                 /\ exists hdr payload,
                     length hdr = 4%nat /\ be32 hdr = len payload /\ 0 < len payload
                     /\ data = hdr ++ payload ++ r_data (is_reader st')
                     /\ forwarded (is_proxy st') = forwarded p ++ hdr ++ payload
             end).
  { intros p3 reader pools payload Hwf3 Hp3 Hcmd Hcl Hcb Hbe Hd Hfw. cbv zeta.
    assert (Hpos : 0 < len payload) by (pose proof (len_nonneg payload); lia).
    destruct (Z.rem _ 10 =? 0).
    - pose proof (Flush_stream (backendBuf p3) (backend p3)) as Hs.
      pose proof (Flush_well_formed (backendBuf p3) (backend p3) Hwf3) as Hw.
      destruct (bufio.Flush _ _) as [[[e|] b] wr]; destruct Hw as [Hw _].
      + split; [unfold pass_invariant; cbn [is_proxy is_pools set_backend backendBuf
                                              client clientBuf]; auto |].
        exists (hdr ++ payload). cbn [is_proxy].
        split_and!; [| | discriminate].
        * change (forwarded (set_backend p3 b wr)) with (stream b wr). rewrite Hs. exact Hfw.
        * rewrite Hd, List.app_assoc. now apply prefix_app_r.
      + split; [unfold pass_invariant; cbn [is_proxy is_pools set_backend backendBuf
                                              client clientBuf]; auto |].
        split; [exact Hhdr |]. exists hdr, payload. cbn [is_proxy is_reader].
        split_and!; try assumption.
        change (forwarded (set_backend p3 b wr)) with (stream b wr). rewrite Hs. exact Hfw.
    - split; [unfold pass_invariant; cbn [is_proxy is_pools]; auto |].
      split; [exact Hhdr |]. exists hdr, payload. cbn [is_proxy is_reader].
      split_and!; assumption. }
  destruct (be32 hdr <=? 32 * 1024) eqn:Esmall.
  - apply Z.leb_le in Esmall.
    destruct (pool.Get pool.chunkBuf_New (chunkBufPool (is_pools st))) as [chunk idle] eqn:Hget.
    destruct (pool_Get_sized _ Hpools _ _ Hget) as [Hchunk Hidle].
    assert (Hcut : length (upto (be32 hdr) chunk) = Z.to_nat (be32 hdr)).
    { unfold upto, len in *. rewrite length_take. lia. }
    pose proof (ReadFull_cases reader1 (upto (be32 hdr) chunk)) as H3.
    destruct (io.ReadFull reader1 _) as [[[n3 err3] filled] reader3].
    destruct H3 as [Hfilled Hdata3]. rewrite Hcut in Hfilled. cbv beta iota.
    assert (Hsized' : chunk_buffers_sized
                        (mkPools (cmdBufPool (is_pools st))
                                 (pool.Put (filled ++ from (be32 hdr) chunk) idle))).
    { unfold chunk_buffers_sized, pool.Put. cbn [chunkBufPool].
      constructor; [| exact Hidle].
      rewrite len_app. unfold from, len in *. rewrite length_drop. lia. }
    destruct err3 as [e3|].
    { split; [unfold pass_invariant; cbn [is_proxy is_pools cmdBufPool]; auto |].
      exists hdr. cbn [is_proxy].
      split_and!; [assumption | rewrite Hdata1; now apply prefix_app_r | discriminate]. }
    specialize (Hdata3 eq_refl).
    assert (Hsame : upto (be32 hdr) (filled ++ from (be32 hdr) chunk) = filled).
    { unfold upto. rewrite <- Hfilled. apply take_app_length. }
    rewrite Hsame.
    pose proof (write_with_stream true (backendBuf p2) (backend p2) filled Hwf2) as H4.
    destruct (bufio.write_with true _ _ filled) as [[[n4 err4] b4] wr4].
    destruct H4 as (Hwf4 & q4 & Hq4 & Hpre4 & Hall4). cbv beta iota.
    assert (Hfw4 : forwarded (set_backend p2 b4 wr4) = forwarded p ++ hdr ++ q4).
    { change (forwarded (set_backend p2 b4 wr4)) with (stream b4 wr4).
      change (stream (backendBuf p2) (backend p2)) with (forwarded p2) in Hq4.
      rewrite Hq4, Hfw2. now rewrite <- List.app_assoc. }
    destruct err4 as [e4|].
    { split; [unfold pass_invariant; cbn [is_proxy is_pools cmdBufPool]; auto |].
      exists (hdr ++ q4). cbn [is_proxy].
      split_and!; [assumption | | discriminate].
      rewrite Hdata1, Hdata3. apply prefix_app. now apply prefix_app_r. }
    specialize (Hall4 eq_refl). subst q4.
    apply (Hafter (set_backend p2 b4 wr4) reader3 _ filled); try assumption; try reflexivity.
    + unfold len. lia.
    + now rewrite Hdata1, Hdata3.
  - apply Z.leb_gt in Esmall.
    pose proof (CopyN_stream (backendBuf p2) (backend p2) reader1 (be32 hdr) Hwf2
                             ltac:(lia)) as H3.
    destruct (io.CopyN _ _ _ _) as [[[[n3 err3] b3] wr3] reader3].
    destruct H3 as (Hwf3 & q3 & Hq3 & Hpre3 & Hall3). cbv beta iota.
    assert (Hfw3 : forwarded (set_backend p2 b3 wr3) = forwarded p ++ hdr ++ q3).
    { change (forwarded (set_backend p2 b3 wr3)) with (stream b3 wr3).
      change (stream (backendBuf p2) (backend p2)) with (forwarded p2) in Hq3.
      rewrite Hq3, Hfw2. now rewrite <- List.app_assoc. }
    destruct err3 as [e3|].
    { split; [unfold pass_invariant; cbn [is_proxy is_pools]; auto |].
      exists (hdr ++ q3). cbn [is_proxy].
      split_and!; [assumption | | discriminate].
      rewrite Hdata1. now apply prefix_app. }
    destruct (Hall3 eq_refl) as [Hlen3 Hdata3].
    apply (Hafter (set_backend p2 b3 wr3) reader3 _ q3); try assumption; try reflexivity.
    + lia.
    + now rewrite Hdata1, Hdata3.
Qed.

Lemma pass_invariant_trans (st1 st2 st3 : InstreamState) :
  pass_invariant st1 st2 -> pass_invariant st2 st3 -> pass_invariant st1 st3.
Proof.
  unfold pass_invariant. intros (_ & _ & A1 & A2 & A3) (B0 & B1 & B2 & B3 & B4).
  split_and!; congruence.
Qed.

Lemma handleInstream_loop_general (fuel : nat) :
  forall (st st' : InstreamState) (err : option error),
    well_formed (backendBuf (is_proxy st)) ->
    length (is_sizeBytes st) = 4%nat ->
    chunk_buffers_sized (is_pools st) ->
    handleInstream_loop fuel st = Some (err, st') ->
    pass_invariant st st'
    /\ exists q,
        forwarded (is_proxy st') = forwarded (is_proxy st) ++ q
        /\ q `prefix_of` r_data (is_reader st)
        /\ (err = None ->
            chunk_stream q
            /\ r_data (is_reader st) = q ++ r_data (is_reader st')
            /\ w_buf (backendBuf (is_proxy st')) = []).
Proof.
  induction fuel as [|fuel IH]; intros st st' err Hwf Hsz Hpools; [discriminate |].
  cbn [handleInstream_loop].
  pose proof (handleInstream_body_general st Hwf Hsz Hpools) as Hbody.
  destruct (handleInstream_body st) as [[[e|] st1] | st1].
  - intros [= <- <-]. destruct Hbody as (Hinv & q & Hq & Hpre & _).
    split; [exact Hinv |]. exists q. split_and!; [assumption | assumption | discriminate].
  - destruct Hbody as (Hinv & q & Hq & Hpre & Hend).
    destruct (Hend eq_refl) as [Hzero Hdata].
    destruct Hinv as (Hwf1 & Hp1 & Hc1 & Hcl1 & Hcb1).
    pose proof (Flush_stream (backendBuf (is_proxy st1)) (backend (is_proxy st1))) as Hs.
    pose proof (Flush_well_formed (backendBuf (is_proxy st1)) (backend (is_proxy st1)) Hwf1) as Hw.
    destruct (bufio.Flush _ _) as [[ferr b] wr] eqn:Hflush. destruct Hw as [Hw _].
    assert (Hinv' : pass_invariant st
                      (mkInstream (set_backend (is_proxy st1) b wr) (is_reader st1)
                                  (is_pools st1) (is_sizeBytes st1) (is_chunks st1))).
    { unfold pass_invariant.
      cbn [is_proxy is_pools set_backend backendBuf client clientBuf]. auto. }
    assert (Hfw : forwarded (set_backend (is_proxy st1) b wr) = forwarded (is_proxy st) ++ q).
    { change (forwarded (set_backend (is_proxy st1) b wr)) with (stream b wr).
      rewrite Hs. exact Hq. }
    destruct ferr as [e|]; intros [= <- <-]; (split; [exact Hinv' |]); exists q;
      cbn [is_proxy is_reader]; (split_and!; [assumption | assumption |]); [discriminate |].
    intros _. split_and!.
    + rewrite Hzero. constructor.
    + exact Hdata.
    + cbn [set_backend backendBuf]. now apply (Flush_nil_empty _ _ _ _ Hflush).
  - destruct Hbody as (Hinv & Hsz1 & hdr & payload & Hhdr & Hbe & Hpos & Hdata & Hfw).
    intros Hloop.
    destruct (IH st1 st' err ltac:(apply Hinv) Hsz1 ltac:(apply Hinv) Hloop)
      as (Hinv' & q & Hq & Hpre & Hok).
    split; [exact (pass_invariant_trans _ _ _ Hinv Hinv') |].
    exists (hdr ++ payload ++ q). split_and!.
    + rewrite Hq, Hfw. now rewrite <- !List.app_assoc.
    + rewrite Hdata. apply prefix_app, prefix_app. exact Hpre.
    + intros Hnone. destruct (Hok Hnone) as (Hcs & Hd & Hempty). split_and!.
      * now constructor.
      * rewrite Hdata, Hd. now rewrite <- !List.app_assoc.
      * exact Hempty.
Qed.

Lemma repeat_zero_4 : length (repeat Byte.x00 4) = 4%nat.
Proof. reflexivity. Qed.

(** X1: whatever the client sends and whatever happens to the backend
    connection, what [handleInstream] gives to the backend is a prefix of
    what the client sent. *)
Theorem handleInstream_forwards_prefix (p : ClamdProxy) (reader : Reader) (pools : Pools) :
  well_formed (backendBuf p) ->
  chunk_buffers_sized pools ->
  exists err p' reader' pools' q,
    handleInstream p reader pools = Some (err, p', reader', pools')
    /\ forwarded p' = forwarded p ++ q
    /\ q `prefix_of` r_data reader.
Proof.
  intros Hwf Hpools.
  destruct (handleInstream_total p reader pools) as (err & p' & reader' & pools' & Hrun & _).
  pose proof Hrun as Hrun'. unfold handleInstream in Hrun'.
  destruct (handleInstream_loop _ _) as [[err1 st']|] eqn:Hloop; [| discriminate].
  injection Hrun' as <- <- <- <-.
  destruct (handleInstream_loop_general
              _ (mkInstream p reader pools (repeat Byte.x00 4) 0) _ _
              Hwf repeat_zero_4 Hpools Hloop)
    as (_ & q & Hq & Hpre & _).
  exists err1, (is_proxy st'), (is_reader st'), (is_pools st'), q. auto.
Qed.

Lemma handleInstream_forwards_prefix_witness :
  exists err p' reader' pools' q,
    handleInstream (sample_proxy_backend_down [])
      (mkReader [Byte.x00; Byte.x00; Byte.x00; Byte.x02; Byte.x41] EOF) no_pools
    = Some (err, p', reader', pools')
    /\ forwarded p' = forwarded (sample_proxy_backend_down []) ++ q
    /\ q `prefix_of` [Byte.x00; Byte.x00; Byte.x00; Byte.x02; Byte.x41].
Proof.
  apply (handleInstream_forwards_prefix (sample_proxy_backend_down [])
           (mkReader [Byte.x00; Byte.x00; Byte.x00; Byte.x02; Byte.x41] EOF) no_pools).
  - split; vm_compute; [reflexivity | discriminate].
  - constructor.
Defined.

(** X2: [handleInstream] reports success only if the client's input began
    with a complete chunk stream; that stream, and nothing after it, was
    consumed, and all of it is on the backend connection. *)
Theorem handleInstream_success_complete_stream
        (p p' : ClamdProxy) (reader reader' : Reader) (pools pools' : Pools) :
  well_formed (backendBuf p) ->
  chunk_buffers_sized pools ->
  handleInstream p reader pools = Some (None, p', reader', pools') ->
  exists data,
    chunk_stream data
    /\ r_data reader = data ++ r_data reader'
    /\ c_sent (backend p') = forwarded p ++ data
    /\ w_buf (backendBuf p') = [].
Proof.
  intros Hwf Hpools Hrun. unfold handleInstream in Hrun.
  destruct (handleInstream_loop _ _) as [[err1 st']|] eqn:Hloop; [| discriminate].
  injection Hrun as -> <- <- <-.
  destruct (handleInstream_loop_general
              _ (mkInstream p reader pools (repeat Byte.x00 4) 0) _ _
              Hwf repeat_zero_4 Hpools Hloop)
    as (_ & q & Hq & _ & Hok).
  destruct (Hok eq_refl) as (Hcs & Hdata & Hempty).
  exists q. split_and!; try assumption.
  unfold forwarded in Hq at 1. now rewrite Hempty, app_nil_r in Hq.
Qed.

Lemma handleInstream_success_complete_stream_witness :
  exists data,
    chunk_stream data
    /\ [Byte.x00; Byte.x00; Byte.x00; Byte.x00; Byte.x50] = data ++ [Byte.x50]
    /\ c_sent (backend (set_backend (sample_proxy [])
                                    (mkWriter [] (64 * 1024) None)
                                    (received (sample_conn [])
                                       [Byte.x00; Byte.x00; Byte.x00; Byte.x00])))
       = forwarded (sample_proxy []) ++ data
    /\ w_buf (mkWriter [] (64 * 1024) None) = [].
Proof.
  apply (handleInstream_success_complete_stream
           (sample_proxy [])
           (set_backend (sample_proxy []) (mkWriter [] (64 * 1024) None)
                        (received (sample_conn [])
                           [Byte.x00; Byte.x00; Byte.x00; Byte.x00]))
           (mkReader [Byte.x00; Byte.x00; Byte.x00; Byte.x00; Byte.x50] EOF)
           (mkReader [Byte.x50] EOF)
           no_pools no_pools).
  - split; vm_compute; [reflexivity | discriminate].
  - constructor.
  - vm_compute. reflexivity.
Defined.

(** X3: [handleInstream] touches the backend side and the chunk buffers only:
    the client connection, the client writer and the command buffers are as
    before, the backend connection is not closed, and every idle chunk buffer
    still has its 32 KiB. *)
Theorem handleInstream_leaves_rest_alone
        (p p' : ClamdProxy) (reader reader' : Reader) (pools pools' : Pools)
        (err : option error) :
  well_formed (backendBuf p) ->
  chunk_buffers_sized pools ->
  handleInstream p reader pools = Some (err, p', reader', pools') ->
  client p' = client p /\ clientBuf p' = clientBuf p
  /\ c_closed (backend p') = c_closed (backend p)
  /\ cmdBufPool pools' = cmdBufPool pools
  /\ chunk_buffers_sized pools'
  /\ well_formed (backendBuf p').
Proof.
  intros Hwf Hpools Hrun.
  pose proof (handleInstream_closed p reader pools) as Hclosed. rewrite Hrun in Hclosed.
  unfold handleInstream in Hrun.
  destruct (handleInstream_loop _ _) as [[err1 st']|] eqn:Hloop; [| discriminate].
  injection Hrun as <- <- <- <-.
  destruct (handleInstream_loop_general
              _ (mkInstream p reader pools (repeat Byte.x00 4) 0) _ _
              Hwf repeat_zero_4 Hpools Hloop)
    as ((Hwf' & Hp' & Hc & Hcl & Hcb) & _).
  cbn [is_proxy is_pools] in *. split_and!; assumption.
Qed.

Lemma handleInstream_leaves_rest_alone_witness :
  client (set_backend (sample_proxy []) (mkWriter [] (64 * 1024) None)
            (received (sample_conn [])
               [Byte.x00; Byte.x00; Byte.x00; Byte.x02; Byte.x41; Byte.x42;
                Byte.x00; Byte.x00; Byte.x00; Byte.x00]))
  = client (sample_proxy [])
  /\ clientBuf (set_backend (sample_proxy []) (mkWriter [] (64 * 1024) None)
                  (received (sample_conn [])
                     [Byte.x00; Byte.x00; Byte.x00; Byte.x02; Byte.x41; Byte.x42;
                      Byte.x00; Byte.x00; Byte.x00; Byte.x00]))
     = clientBuf (sample_proxy [])
  /\ c_closed (backend (set_backend (sample_proxy []) (mkWriter [] (64 * 1024) None)
                          (received (sample_conn [])
                             [Byte.x00; Byte.x00; Byte.x00; Byte.x02; Byte.x41; Byte.x42;
                              Byte.x00; Byte.x00; Byte.x00; Byte.x00])))
     = c_closed (backend (sample_proxy []))
  /\ cmdBufPool (mkPools [] [[Byte.x41; Byte.x42] ++ from 2 pool.chunkBuf_New])
     = cmdBufPool no_pools
  /\ chunk_buffers_sized (mkPools [] [[Byte.x41; Byte.x42] ++ from 2 pool.chunkBuf_New])
  /\ well_formed (mkWriter [] (64 * 1024) None).
Proof.
  (* the chunk AB and the terminator: the relay succeeds, the backend
     connection has taken the ten bytes, and the chunk buffer, made for this
     chunk, is back in the pool with the chunk in it *)
  apply (handleInstream_leaves_rest_alone
           (sample_proxy [])
           (set_backend (sample_proxy []) (mkWriter [] (64 * 1024) None)
              (received (sample_conn [])
                 [Byte.x00; Byte.x00; Byte.x00; Byte.x02; Byte.x41; Byte.x42;
                  Byte.x00; Byte.x00; Byte.x00; Byte.x00]))
           (mkReader [Byte.x00; Byte.x00; Byte.x00; Byte.x02; Byte.x41; Byte.x42;
                      Byte.x00; Byte.x00; Byte.x00; Byte.x00; Byte.x50] EOF)
           (mkReader [Byte.x50] EOF)
           no_pools
           (mkPools [] [[Byte.x41; Byte.x42] ++ from 2 pool.chunkBuf_New])
           None).
  - split; vm_compute; [reflexivity | discriminate].
  - constructor.
  - reflexivity.
Defined.

End Relay.

(** ** More on the command reader *)

Section ReadCommandMore.
Import Spec.

Lemma readCommand_loop_inverse (e : error) (data : list byte) :
  forall acc buf : list byte,
    let '(cmd, delim, err, rest, _) := readCommand_loop e data acc buf in
    match err with
    | None => acc ++ data = String.list_byte_of_string cmd ++ delim :: rest
    | Some _ => Forall (fun b => ~ delimiter b) data /\ rest = []
    end.
Proof.
  induction data as [|b data IH]; intros acc buf; simpl.
  - split; constructor.
  - destruct (Byte.eqb b nullDelimiter || Byte.eqb b newlineDelimiter) eqn:Hb.
    + now rewrite String.list_byte_of_string_of_list_byte.
    + specialize (IH (acc ++ [b]) (acc ++ [b])).
      destruct (readCommand_loop _ _ _ _) as [[[[cmd delim] [e'|]] rest] buf'].
      * destruct IH as [Hdata ->]. split; [| reflexivity].
        constructor; [now apply not_delimiter_eqb | exact Hdata].
      * now rewrite <- List.app_assoc in IH.
Qed.

Lemma readCommand_loop_buffer (e : error) (data : list byte) :
  forall acc buf1 buf2 : list byte,
    let '(cmd1, delim1, err1, rest1, _) := readCommand_loop e data acc buf1 in
    let '(cmd2, delim2, err2, rest2, _) := readCommand_loop e data acc buf2 in
    (cmd1, delim1, err1, rest1) = (cmd2, delim2, err2, rest2).
Proof.
  destruct data as [|b data]; intros acc buf1 buf2; simpl; [reflexivity |].
  destruct (Byte.eqb b nullDelimiter || Byte.eqb b newlineDelimiter); [reflexivity |].
  now destruct (readCommand_loop _ _ _ _) as [[[[cmd delim] err] rest] buf'].
Qed.

(** X4: [readCommand] loses nothing and stops where it should: on success
    the command, the delimiter and the unread input make up the input it
    was given; it fails only if the input has no NUL and no LF byte, and
    then all of the input has been consumed.  The reader's pending error and
    the chunk buffers are as before. *)
Theorem readCommand_lossless (reader : Reader) (pools : Pools) :
  let '(cmd, delim, err, reader', pools') := readCommand reader pools in
  r_err reader' = r_err reader
  /\ chunkBufPool pools' = chunkBufPool pools
  /\ match err with
     | None => r_data reader = String.list_byte_of_string cmd ++ delim :: r_data reader'
     | Some _ => Forall (fun b => ~ delimiter b) (r_data reader) /\ r_data reader' = []
     end.
Proof.
  unfold readCommand. destruct (pool.Get _ _) as [bufPtr idle]. rewrite take_0.
  pose proof (readCommand_loop_inverse (r_err reader) (r_data reader) [] bufPtr) as H.
  destruct (readCommand_loop _ _ _ _) as [[[[cmd delim] err] rest] buf'].
  cbn [r_err r_data chunkBufPool]. auto.
Qed.

(** X5: what [readCommand] returns does not depend on the pooled command
    buffers: whatever earlier commands left in them, the command, the
    delimiter, the error and the unread input are the same. *)
Theorem readCommand_ignores_pool_contents (reader : Reader) (pools1 pools2 : Pools) :
  let '(cmd1, delim1, err1, reader1, _) := readCommand reader pools1 in
  let '(cmd2, delim2, err2, reader2, _) := readCommand reader pools2 in
  (cmd1, delim1, err1, reader1) = (cmd2, delim2, err2, reader2).
Proof.
  unfold readCommand.
  destruct (pool.Get _ (cmdBufPool pools1)) as [buf1 idle1].
  destruct (pool.Get _ (cmdBufPool pools2)) as [buf2 idle2]. rewrite !take_0.
  pose proof (readCommand_loop_buffer (r_err reader) (r_data reader) [] buf1 buf2) as H.
  destruct (readCommand_loop _ _ _ buf1) as [[[[cmd1 delim1] err1] rest1] buf1'].
  destruct (readCommand_loop _ _ _ buf2) as [[[[cmd2 delim2] err2] rest2] buf2'].
  now injection H as -> -> -> ->.
Qed.

End ReadCommandMore.

(** ** When the proxy streams *)

Section StreamingMode.
Import Spec GoStrings GoStringsFacts.

Lemma first_token_single (cmd : string) :
  cmd <> EmptyString -> Forall plain (String.list_byte_of_string cmd) ->
  first_token cmd = Some cmd.
Proof.
  intros Hne Hplain. unfold first_token.
  assert (Hascii : Forall (fun b => byteZ b < 0x80) (String.list_byte_of_string cmd)).
  { eapply List.Forall_impl; [| exact Hplain]. intros b [H _]. exact H. }
  rewrite <- (app_nil_r (String.list_byte_of_string cmd)).
  rewrite runes_ascii_prefix by exact Hascii. change (utf8.runes []) with (@nil (Z * list byte)).
  rewrite first_token_plain; [| | exact Hplain | exact I].
  - now rewrite String.string_of_list_byte_of_string.
  - intros H. apply Hne. rewrite <- (String.string_of_list_byte_of_string cmd), H.
    reflexivity.
Qed.

Lemma INSTREAM_only_allowed_suffix (mid : string) :
  In (mid +:+ "INSTREAM") allowed_names -> mid = EmptyString.
Proof.
  intros Hin.
  assert (Hsuf : HasSuffix (mid +:+ "INSTREAM") "INSTREAM" = true)
    by (apply HasSuffix_iff; now exists mid).
  unfold allowed_names in Hin. simpl in Hin.
  destruct Hin as [H | [H | [H | [H | []]]]]; rewrite <- H in Hsuf; try discriminate Hsuf.
  destruct mid as [|a mid]; [reflexivity |].
  apply (f_equal String.length) in H. rewrite str_length_app in H. simpl in H. lia.
Qed.

(** X6: a command without white space and non-ASCII bytes passes the
    allow-list and is taken for a streaming command exactly if it is
    zINSTREAM or nINSTREAM. *)
Theorem streaming_mode_single_token (cmd : string) :
  Forall plain (String.list_byte_of_string cmd) ->
  isCommandAllowed cmd = true /\ isInstreamCommand cmd = true
  <-> cmd = "zINSTREAM" \/ cmd = "nINSTREAM".
Proof.
  intros Hplain. split; [| intros [-> | ->]; split; reflexivity].
  intros [Hallowed Hstream].
  destruct cmd as [|a rest]; [discriminate Hallowed |].
  rewrite isCommandAllowed_first_token, first_token_single in Hallowed
    by (discriminate || exact Hplain).
  apply map_index_allowedCommands in Hallowed.
  unfold isInstreamCommand in Hstream. apply orb_true_iff in Hstream.
  rewrite !prefixed_INSTREAM in Hstream by discriminate.
  destruct Hstream as [[mid H] | [mid H]]; injection H as -> ->;
    cbn [strip_variant] in Hallowed;
    change (("z" =? "z")%char) with true in Hallowed;
    change (("n" =? "z")%char) with false in Hallowed;
    change (("n" =? "n")%char) with true in Hallowed;
    cbn [orb] in Hallowed;
    apply INSTREAM_only_allowed_suffix in Hallowed; subst mid; auto.
Qed.

Lemma streaming_mode_single_token_witness :
  isCommandAllowed "nINSTREAM" = true /\ isInstreamCommand "nINSTREAM" = true
  <-> "nINSTREAM" = "zINSTREAM" \/ "nINSTREAM" = "nINSTREAM".
Proof.
  apply streaming_mode_single_token.
  repeat constructor; vm_compute; congruence.
Defined.

End StreamingMode.

(** ** The filter, end to end *)

Section Filter.
Import Spec.


Lemma Close_sent (c : Conn) : c_sent (snd (net.Close c)) = c_sent c.
Proof. unfold net.Close. now destruct (c_closed c). Qed.




End Filter.

(** ** The backend->client direction *)

Section StartFacts.
Import Spec.

Lemma set_in_same (c : Conn) : net.set_in c (c_in c) = c.
Proof. now destruct c. Qed.

Lemma net_Read_cases (c : Conn) (size k : Z) :
  0 < size ->
  let '(buf, er, c') := net.Read c size k in
  c' = net.set_in c (c_in c')
  /\ c_in c = buf ++ c_in c'
  /\ match er with
     | None => 0 < len buf /\ c_closed c = false
     | Some e =>
         buf = []
         /\ e = (if c_closed c then OpError "read" ErrClosed else c_rerr c)
         /\ (c_closed c = false -> c_in c = [])
     end.
Proof.
  intros Hsize. unfold net.Read. destruct (c_closed c) eqn:Hc.
  - split_and!; [now rewrite set_in_same | reflexivity | reflexivity | reflexivity | discriminate].
  - destruct (c_in c) as [|x l] eqn:Hin.
    + rewrite set_in_same, Hin. split_and!; reflexivity.
    + cbn [c_in net.set_in]. split_and!; [reflexivity | now rewrite upto_from | | reflexivity].
      rewrite len_upto; [lia |].
      assert (0 < len (x :: l)) by (unfold len; simpl; lia). lia.
Qed.

(** What a pass through the loop of [Start] does, whatever the state of the
    client connection. *)
Lemma Start_body_general (k : Z) (p : ClamdProxy) (bytesWritten : Z) :
  well_formed (clientBuf p) ->
  let r := Start_body k p bytesWritten in
  let p' := match r with inl (_, p', _) => p' | inr (p', _) => p' end in
  well_formed (clientBuf p')
  /\ backendBuf p' = backendBuf p
  /\ backend p' = net.set_in (backend p) (c_in (backend p'))
  /\ c_closed (client p') = c_closed (client p)
  /\ exists taken q,
      c_in (backend p) = taken ++ c_in (backend p')
      /\ answered p' = answered p ++ q
      /\ q `prefix_of` taken
      /\ match r with inr _ => taken <> [] /\ q = taken | inl _ => True end.
Proof.
  intros Hwf. unfold Start_body.
  pose proof (net_Read_cases (backend p) (64 * 1024) k ltac:(lia)) as HR.
  destruct (net.Read _ _ _) as [[buf er] bk]. destruct HR as (Hbk & Hin & Her).
  cbn [set_backend clientBuf client].
  destruct (0 <? len buf) eqn:Hnr.
  - apply Z.ltb_lt in Hnr.
    pose proof (write_with_stream true (clientBuf p) (client p) buf Hwf) as HW.
    pose proof (write_with_closed true (clientBuf p) (client p) buf) as HC.
    unfold bufio.Write.
    destruct (bufio.write_with true _ _ buf) as [[[nw ew] b] wr].
    destruct HW as (Hwf1 & q & Hq & Hpre & Hall). cbn [snd] in HC.
    assert (Hne : buf <> []) by (intros ->; unfold len in Hnr; simpl in Hnr; lia).
    destruct ew as [e|].
    { cbv zeta. cbn [set_client clientBuf backendBuf backend client].
      split_and!; try assumption; try reflexivity.
      exists buf, q. split_and!; [assumption | exact Hq | assumption | exact I]. }
    specialize (Hall eq_refl). subst q.
    destruct (negb (len buf =? nw)).
    { cbv zeta. cbn [set_client clientBuf backendBuf backend client].
      split_and!; try assumption; try reflexivity.
      exists buf, buf. split_and!; [assumption | exact Hq | reflexivity | exact I]. }
    destruct er as [e|].
    { cbv zeta. cbn [set_client clientBuf backendBuf backend client].
      split_and!; try assumption; try reflexivity.
      exists buf, buf. split_and!; [assumption | exact Hq | reflexivity | exact I]. }
    cbn [set_client clientBuf client].
    destruct (32 * 1024 <? bufio.Buffered b).
    + pose proof (Flush_stream b wr) as HS.
      pose proof (Flush_well_formed b wr Hwf1) as HF.
      pose proof (Flush_closed b wr) as HC2.
      destruct (bufio.Flush b wr) as [[ferr b2] wr2]. destruct HF as [HF _].
      cbn [snd] in HC2. cbv zeta. cbn [set_client clientBuf backendBuf backend client].
      split_and!; try assumption; try reflexivity; try congruence.
      exists buf, buf. split_and!; [assumption | | reflexivity | assumption | reflexivity].
      change (stream b2 wr2 = stream (clientBuf p) (client p) ++ buf). now rewrite HS.
    + cbv zeta. cbn [set_client clientBuf backendBuf backend client].
      split_and!; try assumption; try reflexivity.
      exists buf, buf.
      split_and!; [assumption | exact Hq | reflexivity | assumption | reflexivity].
  - apply Z.ltb_ge in Hnr.
    destruct er as [e|]; [| lia].
    cbv zeta. cbn [set_client clientBuf backendBuf backend client].
    split_and!; try assumption; try reflexivity.
    exists buf, []. split_and!; [assumption | | apply prefix_nil | exact I].
    now rewrite app_nil_r.
Qed.

Lemma Start_loop_general (fuel : nat) (arrived : nat -> Z) :
  forall (pass : nat) (p : ClamdProxy) (bytesWritten : Z),
    well_formed (clientBuf p) ->
    (length (c_in (backend p)) < fuel)%nat ->
    exists err p' n q,
      Start_loop fuel arrived pass p bytesWritten = Some (err, p', n)
      /\ well_formed (clientBuf p')
      /\ backendBuf p' = backendBuf p
      /\ backend p' = net.set_in (backend p) (c_in (backend p'))
      /\ c_closed (client p') = c_closed (client p)
      /\ answered p' = answered p ++ q
      /\ q `prefix_of` c_in (backend p).
Proof.
  induction fuel as [|fuel IH]; intros pass p bw Hwf Hfuel; [lia |].
  cbn [Start_loop].
  pose proof (Start_body_general (arrived pass) p bw Hwf) as HB. cbv zeta in HB.
  destruct (Start_body _ _ _) as [[[err p1] n1] | [p1 n1]];
    destruct HB as (Hwf1 & Hbb & Hbk & Hcl & taken & q & Hin & Han & Hpre & Hne).
  - exists err, p1, n1, q. split_and!; try assumption; try reflexivity.
    rewrite Hin. now apply prefix_app_r.
  - destruct (IH (S pass) p1 n1 Hwf1) as (err & p' & n & q' & -> & Hwf' & Hbb' & Hbk' & Hcl'
                                          & Han' & Hpre').
    { rewrite Hin, length_app in Hfuel. destruct Hne as [Hne _].
      destruct taken; [congruence |]. simpl in Hfuel. lia. }
    exists err, p', n, (taken ++ q'). split_and!; try assumption; try congruence.
    + rewrite Hbk', Hbk. reflexivity.
    + rewrite Han', Han. destruct Hne as [_ ->]. now rewrite <- List.app_assoc.
    + rewrite Hin. now apply prefix_app.
Qed.

(** X8: whatever the backend sends, however its bytes arrive and whatever
    happens to the client connection, [Start] always finishes; what it has
    given to the client by then is a prefix of what the backend sent; it
    writes nothing to the backend and closes neither connection. *)
Theorem Start_relays_prefix (arrived : nat -> Z) (p : ClamdProxy) :
  well_formed (clientBuf p) ->
  exists log p' q,
    Start arrived p = Some (log, p')
    /\ answered p' = answered p ++ q
    /\ q `prefix_of` c_in (backend p)
    /\ backendBuf p' = backendBuf p
    /\ c_sent (backend p') = c_sent (backend p)
    /\ c_closed (backend p') = c_closed (backend p)
    /\ c_closed (client p') = c_closed (client p).
Proof.
  intros Hwf. unfold Start.
  destruct (Start_loop_general (S (length (c_in (backend p)))) arrived 0 p 0 Hwf ltac:(lia))
    as (err & p1 & n & q & -> & Hwf1 & Hbb & Hbk & Hcl & Han & Hpre).
  pose proof (Flush_stream (clientBuf p1) (client p1)) as HS.
  pose proof (Flush_closed (clientBuf p1) (client p1)) as HC.
  destruct (bufio.Flush _ _) as [[ferr b] wr]. cbn [snd] in HC.
  eexists _, _, q. split; [reflexivity |].
  cbn [set_client clientBuf backendBuf backend client].
  split_and!; try assumption; try congruence.
  - change (stream b wr = answered p ++ q). now rewrite HS.
  - now rewrite Hbk.
  - now rewrite Hbk.
Qed.

Lemma Start_relays_prefix_witness :
  exists log p' q,
    Start (fun _ => 2) (mkProxy (sample_conn [])
                                (sample_conn [Byte.x4f; Byte.x4b; Byte.x0a])
                                (bufio.NewWriterSize (64 * 1024))
                                (bufio.NewWriterSize (64 * 1024)))
    = Some (log, p')
    /\ answered p' = [] ++ q
    /\ q `prefix_of` [Byte.x4f; Byte.x4b; Byte.x0a]
    /\ backendBuf p' = bufio.NewWriterSize (64 * 1024)
    /\ c_sent (backend p') = []
    /\ c_closed (backend p') = false
    /\ c_closed (client p') = false.
Proof.
  apply (Start_relays_prefix (fun _ => 2)
           (mkProxy (sample_conn []) (sample_conn [Byte.x4f; Byte.x4b; Byte.x0a])
                    (bufio.NewWriterSize (64 * 1024)) (bufio.NewWriterSize (64 * 1024)))).
  split; vm_compute; [reflexivity | discriminate].
Defined.

(** X9: a pass of the loop of [Start] with a client connection in working
    order loses nothing.  When nothing is pending on the backend the pass
    leaves the loop, with the read error as [err], end-of-stream counting as
    none, and changes nothing.  Otherwise every byte it has read is given to
    the client writer, in order, and counted; the writer and the connection
    stay in working order, and the buffer is flushed when it holds more than
    32 KiB, so that no more than 32 KiB are left in it. *)
Theorem Start_body_relays_pass (k : Z) (p : ClamdProxy) (bytesWritten : Z) :
  in_order (clientBuf p) -> accepts_writes (client p) ->
  c_closed (backend p) = false ->
  match c_in (backend p) with
  | [] =>
      Start_body k p bytesWritten
      = inl (if errors.eq_target (c_rerr (backend p)) EOF then None
             else Some (c_rerr (backend p)), p, bytesWritten)
  | _ =>
      exists taken p',
        Start_body k p bytesWritten = inr (p', wrap_int (bytesWritten + len taken))
        /\ taken <> []
        /\ c_in (backend p) = taken ++ c_in (backend p')
        /\ answered p' = answered p ++ taken
        /\ in_order (clientBuf p') /\ accepts_writes (client p')
        /\ bufio.Buffered (clientBuf p') <= 32 * 1024
  end.
Proof.
  intros Hb Hwr Hopen. unfold Start_body, net.Read. rewrite Hopen.
  destruct (c_in (backend p)) as [|x l] eqn:Hin.
  - cbn [len length Z.of_nat Z.ltb Z.compare]. now destruct p.
  - set (n := Z.min (64 * 1024) (Z.max 1 (Z.min k (len (x :: l))))).
    assert (Hpos : 0 < len (x :: l)) by (unfold len; simpl; lia).
    assert (Hn : 0 < n <= len (x :: l)) by lia.
    assert (Hlen : len (upto n (x :: l)) = n) by (apply len_upto; lia).
    rewrite Hlen. replace (0 <? n) with true by (symmetry; apply Z.ltb_lt; lia).
    cbn [set_backend clientBuf client]. unfold bufio.Write.
    destruct (write_with_in_order true _ _ (upto n (x :: l)) Hb Hwr)
      as (b1 & d & -> & Hb1 & Hsz1 & Hcat).
    rewrite Hlen. replace (0 <? n) with true by (symmetry; apply Z.ltb_lt; lia).
    rewrite Z.eqb_refl. cbn [negb set_client clientBuf client].
    assert (Hne : upto n (x :: l) <> []).
    { intros E. rewrite E in Hlen. unfold len in Hlen. simpl in Hlen. lia. }
    destruct (32 * 1024 <? bufio.Buffered b1) eqn:Hfull.
    + rewrite Flush_in_order by (try assumption; now apply received_accepts).
      exists (upto n (x :: l)), (set_client
                 (mkProxy (client p) (net.set_in (backend p) (from n (x :: l)))
                          (backendBuf p) (clientBuf p))
                 (mkWriter [] (w_size b1) None) (received (received (client p) d) (w_buf b1))).
      rewrite Hlen. cbn [set_client clientBuf client backend c_in net.set_in].
      split_and!; try assumption; try reflexivity; try (now rewrite upto_from);
        try (unfold bufio.Buffered; cbn [w_buf]; rewrite len_nil; lia).
      * unfold answered. cbn [set_client client clientBuf received net.set_out c_sent w_buf].
        rewrite app_nil_r, <- !List.app_assoc. now rewrite Hcat.
      * destruct Hb1 as (? & ? & ?). split_and!; simpl; [reflexivity | assumption | len_lia].
    + exists (upto n (x :: l)), (set_client
                 (mkProxy (client p) (net.set_in (backend p) (from n (x :: l)))
                          (backendBuf p) (clientBuf p))
                 b1 (received (client p) d)).
      rewrite Hlen. cbn [set_client clientBuf client backend c_in net.set_in].
      split_and!; try assumption; try reflexivity; try (now rewrite upto_from);
        try (now apply Z.ltb_ge in Hfull).
      unfold answered. cbn [set_client client clientBuf received net.set_out c_sent].
      rewrite <- !List.app_assoc. now rewrite Hcat.
Qed.

Lemma Start_body_relays_pass_witness :
  exists taken p',
    Start_body 2 (mkProxy (sample_conn [])
                          (sample_conn [Byte.x4f; Byte.x4b; Byte.x0a])
                          (bufio.NewWriterSize (64 * 1024))
                          (bufio.NewWriterSize (64 * 1024))) 0
    = inr (p', wrap_int (0 + len taken))
    /\ taken <> []
    /\ [Byte.x4f; Byte.x4b; Byte.x0a] = taken ++ c_in (backend p')
    /\ answered p' = [] ++ taken
    /\ in_order (clientBuf p') /\ accepts_writes (client p')
    /\ bufio.Buffered (clientBuf p') <= 32 * 1024.
Proof.
  apply (Start_body_relays_pass 2
           (mkProxy (sample_conn []) (sample_conn [Byte.x4f; Byte.x4b; Byte.x0a])
                    (bufio.NewWriterSize (64 * 1024)) (bufio.NewWriterSize (64 * 1024))) 0).
  - split_and!; [reflexivity | reflexivity | vm_compute; discriminate].
  - split; reflexivity.
  - reflexivity.
Defined.

(** X10: once the backend connection is closed on the proxy's side, as
    [handleClientToBackend] does when the client goes away, [Start] reads
    nothing more: it flushes what is buffered for the client, gives no
    further byte to it, and logs the backend connection as closed. *)
Theorem Start_ends_on_closed_backend (arrived : nat -> Z) (p : ClamdProxy) :
  c_closed (backend p) = true ->
  exists p',
    Start arrived p = Some (BackendConnectionClosed (OpError "read" ErrClosed), p')
    /\ answered p' = answered p
    /\ backend p' = backend p.
Proof.
  intros Hclosed. unfold Start. cbn [Start_loop]. unfold Start_body, net.Read.
  rewrite Hclosed. change (0 <? len (@nil byte)) with false. cbv beta iota.
  cbn [errors.eq_target set_backend clientBuf client].
  pose proof (Flush_stream (clientBuf p) (client p)) as HS.
  destruct (bufio.Flush _ _) as [[ferr b] wr].
  eexists. split_and!; [reflexivity | exact HS | reflexivity].
Qed.

Lemma Start_ends_on_closed_backend_witness :
  exists p',
    Start (fun _ => 2)
          (mkProxy (sample_conn [])
                   (mkConn [Byte.x4f; Byte.x4b] EOF [] None ErrClosed true true)
                   (bufio.NewWriterSize (64 * 1024)) (bufio.NewWriterSize (64 * 1024)))
    = Some (BackendConnectionClosed (OpError "read" ErrClosed), p')
    /\ answered p' = []
    /\ backend p' = mkConn [Byte.x4f; Byte.x4b] EOF [] None ErrClosed true true.
Proof.
  apply (Start_ends_on_closed_backend (fun _ => 2)
           (mkProxy (sample_conn [])
                    (mkConn [Byte.x4f; Byte.x4b] EOF [] None ErrClosed true true)
                    (bufio.NewWriterSize (64 * 1024)) (bufio.NewWriterSize (64 * 1024)))).
  reflexivity.
Defined.

End StartFacts.

(** ** The filter, whatever the connections do *)

Section FilterSafety.
Import Spec.

Lemma readCommand_cases (reader : Reader) (pools : Pools) :
  let '(cmd, delim, err, reader', pools') := readCommand reader pools in
  chunkBufPool pools' = chunkBufPool pools
  /\ (err = None ->
      r_data reader = String.list_byte_of_string cmd ++ delim :: r_data reader'
      /\ Forall (fun b => ~ delimiter b) (String.list_byte_of_string cmd)
      /\ delimiter delim).
Proof.
  unfold readCommand. destruct (pool.Get _ _) as [bufPtr idle]. rewrite take_0.
  pose proof (readCommand_loop_inverse (r_err reader) (r_data reader) [] bufPtr) as H1.
  pose proof (readCommand_loop_result (r_err reader) (r_data reader) [] bufPtr
                (List.Forall_nil _)) as H2.
  destruct (readCommand_loop _ _ _ _) as [[[[cmd delim] [e|]] rest] buf'];
    (split; [reflexivity |]); [discriminate |].
  intros _. cbn [r_data]. destruct H2 as [H2 H3]. auto.
Qed.

Lemma handleClientToBackend_loop_relayed (fuel : nat) :
  forall (s s' : Session) (ex : exit),
    well_formed (backendBuf (s_proxy s)) ->
    well_formed (clientBuf (s_proxy s)) ->
    chunk_buffers_sized (s_pools s) ->
    handleClientToBackend_loop fuel s = (ex, s') ->
    exists out ans,
      forwarded (s_proxy s') = forwarded (s_proxy s) ++ out
      /\ answered (s_proxy s') = answered (s_proxy s) ++ ans
      /\ relayed (r_data (s_reader s)) out ans.
Proof.
  induction fuel as [|fuel IH]; intros s s' ex Hwb Hwc Hpools; cbn [handleClientToBackend_loop].
  { intros [= _ <-]. exists [], []. rewrite !app_nil_r. split_and!; auto. constructor. }
  unfold handleClientToBackend_body.
  pose proof (readCommand_cases (s_reader s) (s_pools s)) as HR.
  destruct (readCommand _ _) as [[[[cmd delim] err] reader] pools].
  destruct HR as [Hchunks HR].
  assert (Hpools1 : chunk_buffers_sized pools).
  { unfold chunk_buffers_sized. now rewrite Hchunks. }
  destruct err as [e|].
  { pose proof (Close_sent (backend (s_proxy s))) as Hsent.
    destruct (net.Close _) as [x wr]. cbn [snd] in Hsent. intros [= _ <-].
    exists [], []. cbn [s_proxy]. unfold forwarded, answered.
    cbn [set_backend backend backendBuf client clientBuf].
    rewrite Hsent, !app_nil_r. split_and!; auto. constructor. }
  destruct (HR eq_refl) as (Hdata & Hcmd & Hd). rewrite Hdata.
  set (bs := String.list_byte_of_string cmd) in *.
  assert (Hstr : String.string_of_list_byte bs = cmd)
    by apply String.string_of_list_byte_of_string.
  destruct (isCommandAllowed cmd) eqn:Hallowed.
  - (* allowed *)
    pose proof (write_with_stream true (backendBuf (s_proxy s)) (backend (s_proxy s))
                                  (bs ++ [delim]) Hwb) as HW.
    unfold bufio.Write.
    destruct (bufio.write_with true _ _ _) as [[[n1 err1] b1] wr1].
    destruct HW as (Hwb1 & q & Hq & Hpre & Hall).
    destruct err1 as [e1|].
    { intros [= _ <-]. exists q, []. cbn [s_proxy]. rewrite app_nil_r.
      split_and!; [exact Hq | reflexivity |].
      apply relayed_forwarded_cut; try assumption. now rewrite Hstr. }
    specialize (Hall eq_refl). subst q. cbn [set_backend backendBuf backend].
    pose proof (Flush_stream b1 wr1) as HS.
    pose proof (Flush_well_formed b1 wr1 Hwb1) as HF.
    destruct (bufio.Flush b1 wr1) as [[err2 b2] wr2]. destruct HF as [Hwb2 _].
    assert (Hfw2 : stream b2 wr2 = forwarded (s_proxy s) ++ bs ++ [delim]).
    { rewrite HS. exact Hq. }
    destruct err2 as [e2|].
    { intros [= _ <-]. exists (bs ++ [delim]), []. cbn [s_proxy]. rewrite app_nil_r.
      split_and!; [exact Hfw2 | reflexivity |].
      apply relayed_forwarded_cut; try assumption; try reflexivity; now rewrite Hstr. }
    destruct (isInstreamCommand cmd) eqn:Hstream.
    + unfold handleInstream.
      set (st := mkInstream _ reader pools (repeat Byte.x00 4) 0).
      destruct (handleInstream_loop _ st) as [[err3 st3]|] eqn:Hloop.
      * destruct (handleInstream_loop_general _ st st3 err3 Hwb2 repeat_zero_4 Hpools1 Hloop)
          as ((Hwb3 & Hp3 & _ & Hcl3 & Hcb3) & q & Hq3 & Hpre3 & Hok).
        change (forwarded (is_proxy st)) with (stream b2 wr2) in Hq3.
        change (client (is_proxy st)) with (client (s_proxy s)) in Hcl3.
        change (clientBuf (is_proxy st)) with (clientBuf (s_proxy s)) in Hcb3.
        change (r_data (is_reader st)) with (r_data reader) in Hpre3, Hok.
        destruct err3 as [e3|].
        { intros [= _ <-]. exists (bs ++ delim :: q), []. cbn [s_proxy]. rewrite app_nil_r.
          split_and!.
          - rewrite Hq3, Hfw2. now rewrite <- !List.app_assoc.
          - unfold answered. now rewrite Hcl3, Hcb3.
          - apply relayed_streamed_cut; try assumption; now rewrite Hstr. }
        destruct (Hok eq_refl) as (Hcs & Hsplit & _).
        intros Hrest.
        destruct (IH (mkSession (is_proxy st3) (is_reader st3) (is_pools st3)) s' ex)
          as (out & ans & Hfw & Han & Hrel);
          [exact Hwb3 | cbn [s_proxy]; now rewrite Hcb3 | exact Hp3 | exact Hrest |].
        cbn [s_proxy s_reader] in *.
        exists (bs ++ delim :: q ++ out), ans. split_and!.
        -- rewrite Hfw, Hq3, Hfw2. now rewrite <- !List.app_assoc.
        -- rewrite Han. unfold answered. now rewrite Hcl3, Hcb3.
        -- rewrite Hsplit. apply relayed_streamed; try assumption; now rewrite Hstr.
      * intros [= _ <-]. exists (bs ++ [delim]), []. cbn [s_proxy]. rewrite app_nil_r.
        split_and!; [exact Hfw2 | reflexivity |].
        apply relayed_forwarded_cut; try assumption; try reflexivity; now rewrite Hstr.
    + intros Hrest.
      destruct (IH (mkSession (set_backend (set_backend (s_proxy s) b1 wr1) b2 wr2)
                              reader pools) s' ex)
        as (out & ans & Hfw & Han & Hrel);
        [exact Hwb2 | exact Hwc | exact Hpools1 | exact Hrest |].
      cbn [s_proxy s_reader] in *.
      exists (bs ++ delim :: out), ans. split_and!.
      * rewrite Hfw.
        change (forwarded (set_backend (set_backend (s_proxy s) b1 wr1) b2 wr2))
          with (stream b2 wr2).
        rewrite Hfw2. now rewrite <- !List.app_assoc.
      * exact Han.
      * apply relayed_forwarded; try assumption; now rewrite Hstr.
  - (* not allowed *)
    pose proof (write_with_stream false (clientBuf (s_proxy s)) (client (s_proxy s))
                                  (String.list_byte_of_string response) Hwc) as HW.
    unfold bufio.WriteString.
    destruct (bufio.write_with false _ _ _) as [[[n1 err1] b1] wr1].
    destruct HW as (Hwc1 & q & Hq & Hpre & Hall).
    destruct err1 as [e1|].
    { intros [= _ <-]. exists [], q. cbn [s_proxy]. rewrite app_nil_r.
      split_and!; [reflexivity | exact Hq |].
      apply relayed_rejected_cut; try assumption. now rewrite Hstr. }
    specialize (Hall eq_refl). subst q. cbn [set_client clientBuf client].
    pose proof (Flush_stream b1 wr1) as HS.
    pose proof (Flush_well_formed b1 wr1 Hwc1) as HF.
    destruct (bufio.Flush b1 wr1) as [[err2 b2] wr2]. destruct HF as [Hwc2 _].
    assert (Han2 : stream b2 wr2
                   = answered (s_proxy s) ++ String.list_byte_of_string response).
    { rewrite HS. exact Hq. }
    destruct err2 as [e2|].
    { intros [= _ <-]. exists [], (String.list_byte_of_string response).
      cbn [s_proxy]. rewrite app_nil_r.
      split_and!; [reflexivity | exact Han2 |].
      apply relayed_rejected_cut; try assumption; try reflexivity; now rewrite Hstr. }
    intros Hrest.
    destruct (IH (mkSession (set_client (set_client (s_proxy s) b1 wr1) b2 wr2)
                            reader pools) s' ex)
      as (out & ans & Hfw & Han & Hrel);
      [exact Hwb | exact Hwc2 | exact Hpools1 | exact Hrest |].
    cbn [s_proxy s_reader] in *.
    exists out, (String.list_byte_of_string response ++ ans). split_and!.
    + exact Hfw.
    + rewrite Han.
      change (answered (set_client (set_client (s_proxy s) b1 wr1) b2 wr2))
        with (stream b2 wr2).
      rewrite Han2. now rewrite <- !List.app_assoc.
    + apply relayed_rejected; try assumption; now rewrite Hstr.
Qed.

(** X11: the filter is safe whatever the connections do.  For any input
    and any failure of a read or a write, what [handleClientToBackend] has
    given to the backend is made of allowed commands with their delimiters
    and of bytes that follow a streaming command, in the order of the input
    (the last item possibly cut short), so no byte of a command that is not
    allowed reaches the backend; and what it has given to the client is
    made of rejection lines, one for each such command. *)
Theorem handleClientToBackend_relays_allowed_only (p : ClamdProxy) (pools : Pools) :
  well_formed (backendBuf p) ->
  well_formed (clientBuf p) ->
  chunk_buffers_sized pools ->
  exists ex s' out ans,
    handleClientToBackend p pools = (ex, s')
    /\ forwarded (s_proxy s') = forwarded p ++ out
    /\ answered (s_proxy s') = answered p ++ ans
    /\ relayed (c_in (client p)) out ans.
Proof.
  intros Hwb Hwc Hpools. unfold handleClientToBackend.
  destruct (handleClientToBackend_loop _ _) as [ex s'] eqn:Hloop.
  destruct (handleClientToBackend_loop_relayed
              _ (mkSession p (bufio.NewReader (client p)) pools) s' ex
              Hwb Hwc Hpools Hloop)
    as (out & ans & Hfw & Han & Hrel).
  exists ex, s', out, ans. auto.
Qed.

Lemma handleClientToBackend_relays_allowed_only_witness :
  exists ex s' out ans,
    handleClientToBackend
      (sample_proxy_backend_down (String.list_byte_of_string "SHUTDOWN" ++ [Byte.x0a]))
      no_pools
    = (ex, s')
    /\ forwarded (s_proxy s') = [] ++ out
    /\ answered (s_proxy s') = [] ++ ans
    /\ relayed (String.list_byte_of_string "SHUTDOWN" ++ [Byte.x0a]) out ans.
Proof.
  apply (handleClientToBackend_relays_allowed_only
           (sample_proxy_backend_down (String.list_byte_of_string "SHUTDOWN" ++ [Byte.x0a]))
           no_pools).
  - split; vm_compute; [reflexivity | discriminate].
  - split; vm_compute; [reflexivity | discriminate].
  - constructor.
Defined.

Lemma first_delimiter_unique (cmd cmd' rest rest' : list byte) (d d' : byte) :
  Forall (fun b => ~ delimiter b) cmd -> Forall (fun b => ~ delimiter b) cmd' ->
  delimiter d -> delimiter d' ->
  cmd ++ d :: rest = cmd' ++ d' :: rest' ->
  cmd = cmd' /\ d = d' /\ rest = rest'.
Proof.
  intros Hcmd. revert cmd'.
  induction Hcmd as [|b cmd Hb _ IH]; intros cmd' Hcmd' Hd Hd' E.
  - destruct cmd' as [|b' cmd']; simpl in E.
    + injection E as -> ->. auto.
    + injection E as -> _. inversion Hcmd'; subst. contradiction.
  - destruct cmd' as [|b' cmd']; simpl in E.
    + injection E as -> _. contradiction.
    + injection E as -> E. inversion Hcmd'; subst.
      destruct (IH cmd' ltac:(assumption) Hd Hd' E) as (-> & -> & ->). auto.
Qed.

Lemma relayed_after_rejected (cmd rest out ans : list byte) (d : byte) :
  Forall (fun b => ~ delimiter b) cmd -> delimiter d ->
  isCommandAllowed (String.string_of_list_byte cmd) = false ->
  relayed (cmd ++ d :: rest) out ans ->
  exists ans', relayed rest out ans'
               /\ (ans = String.list_byte_of_string response ++ ans'
                   \/ ans `prefix_of` String.list_byte_of_string response).
Proof.
  intros Hcmd Hd Hno Hrel.
  inversion Hrel as [input
                    | cmd' rest' out' ans' d' Hcmd' Hd' Hno' Hrest E
                    | cmd' rest' q d' Hcmd' Hd' Hno' Hq E
                    | cmd' rest' out' ans' d' Hcmd' Hd' Hyes' Hplain Hrest E
                    | cmd' rest' q d' Hcmd' Hd' Hyes' Hq E
                    | cmd' data rest' out' ans' d' Hcmd' Hd' Hyes' Hstream Hcs Hrest E
                    | cmd' rest' q d' Hcmd' Hd' Hyes' Hstream Hq E]; subst.
  - exists []. split; [constructor | right; apply prefix_nil].
  - destruct (first_delimiter_unique _ _ _ _ _ _ Hcmd' Hcmd Hd' Hd E) as (-> & -> & ->).
    exists ans'. auto.
  - exists []. split; [constructor | now right].
  - destruct (first_delimiter_unique _ _ _ _ _ _ Hcmd' Hcmd Hd' Hd E) as (-> & -> & ->).
    congruence.
  - destruct (first_delimiter_unique _ _ _ _ _ _ Hcmd' Hcmd Hd' Hd E) as (-> & -> & ->).
    congruence.
  - destruct (first_delimiter_unique _ _ _ _ _ _ Hcmd' Hcmd Hd' Hd E) as (-> & -> & _).
    congruence.
  - destruct (first_delimiter_unique _ _ _ _ _ _ Hcmd' Hcmd Hd' Hd E) as (-> & -> & ->).
    congruence.
Qed.

(** X12: a command that is not allowed leaves no trace at the backend,
    whatever the connections do: when the client's input begins with such a
    command, what [handleClientToBackend] gives to the backend is what the
    rest of the input accounts for, and the client is given the rejection
    (all of it if anything follows it). *)
Theorem handleClientToBackend_rejected_leaves_no_trace
        (p : ClamdProxy) (pools : Pools) (cmd rest : list byte) (d : byte) :
  well_formed (backendBuf p) ->
  well_formed (clientBuf p) ->
  chunk_buffers_sized pools ->
  c_in (client p) = cmd ++ d :: rest ->
  Forall (fun b => ~ delimiter b) cmd -> delimiter d ->
  isCommandAllowed (String.string_of_list_byte cmd) = false ->
  exists ex s' out ans ans',
    handleClientToBackend p pools = (ex, s')
    /\ forwarded (s_proxy s') = forwarded p ++ out
    /\ answered (s_proxy s') = answered p ++ ans
    /\ relayed rest out ans'
    /\ (ans = String.list_byte_of_string response ++ ans'
        \/ ans `prefix_of` String.list_byte_of_string response).
Proof.
  intros Hwb Hwc Hpools Hin Hcmd Hd Hno. unfold handleClientToBackend.
  destruct (handleClientToBackend_loop _ _) as [ex s'] eqn:Hloop.
  destruct (handleClientToBackend_loop_relayed
              _ (mkSession p (bufio.NewReader (client p)) pools) s' ex
              Hwb Hwc Hpools Hloop)
    as (out & ans & Hfw & Han & Hrel).
  cbn [s_proxy s_reader bufio.NewReader r_data] in *. rewrite Hin in Hrel.
  destruct (relayed_after_rejected cmd rest out ans d Hcmd Hd Hno Hrel) as (ans' & Hrest & Hans).
  exists ex, s', out, ans, ans'. auto.
Qed.

Lemma handleClientToBackend_rejected_leaves_no_trace_witness :
  exists ex s' out ans ans',
    handleClientToBackend
      (sample_proxy (String.list_byte_of_string "SHUTDOWN" ++ Byte.x0a
                     :: String.list_byte_of_string "PING"))
      no_pools
    = (ex, s')
    /\ forwarded (s_proxy s') = [] ++ out
    /\ answered (s_proxy s') = [] ++ ans
    /\ relayed (String.list_byte_of_string "PING") out ans'
    /\ (ans = String.list_byte_of_string response ++ ans'
        \/ ans `prefix_of` String.list_byte_of_string response).
Proof.
  apply (handleClientToBackend_rejected_leaves_no_trace
           (sample_proxy (String.list_byte_of_string "SHUTDOWN" ++ Byte.x0a
                          :: String.list_byte_of_string "PING"))
           no_pools (String.list_byte_of_string "SHUTDOWN")
           (String.list_byte_of_string "PING") Byte.x0a).
  - split; vm_compute; [reflexivity | discriminate].
  - split; vm_compute; [reflexivity | discriminate].
  - constructor.
  - reflexivity.
  - repeat constructor; intros [E | E]; discriminate E.
  - now right.
  - reflexivity.
Defined.

End FilterSafety.

(** ** The test client and the proxy *)

Section ClientFacts.
Import Spec.

Lemma byteZ_to_byte (x : Z) : byteZ (binary.to_byte x) = x mod 256.
Proof.
  unfold byteZ, binary.to_byte.
  pose proof (Z.mod_pos_bound x 256 ltac:(lia)) as Hr.
  destruct (Byte.of_N (Z.to_N (x mod 256))) as [b|] eqn:E.
  - apply Byte.to_of_N in E. rewrite E. lia.
  - apply Byte.of_N_None_iff in E. lia.
Qed.

Lemma be32_PutUint32 (v : Z) : 0 <= v < 2 ^ 32 -> be32 (binary.PutUint32 v) = v.
Proof.
  intros Hv. unfold be32, binary.PutUint32. rewrite !byteZ_to_byte.
  rewrite !Z.shiftr_div_pow2 by lia.
  change (2 ^ 24) with (256 * (256 * 256)). change (2 ^ 16) with (256 * 256).
  change (2 ^ 8) with 256.
  rewrite <- !Z.div_div by lia.
  set (a := v / 256). set (b := a / 256). set (c := b / 256).
  assert (c mod 256 = c).
  { apply Z.mod_small. subst a b c.
    rewrite !Z.div_div by lia. split; [apply Z.div_pos; lia |].
    apply Z.div_lt_upper_bound; lia. }
  pose proof (Z.div_mod v 256 ltac:(lia)). pose proof (Z.div_mod a 256 ltac:(lia)).
  pose proof (Z.div_mod b 256 ltac:(lia)).
  fold a in H0. fold b in H1. fold c in H2. lia.
Qed.
(** X13: the proxy decodes the chunk size as the test client encodes it:
    [chunk_size], the shifts and ors of [handleInstream], gives back every
    32-bit value that [binary.BigEndian.PutUint32] has written. *)
Theorem chunk_size_PutUint32 (v : Z) :
  0 <= v < 2 ^ 32 -> chunk_size (binary.PutUint32 v) = v.
Proof.
  intros Hv. destruct (chunk_size_be32 (binary.PutUint32 v) eq_refl) as [-> _].
  now apply be32_PutUint32.
Qed.

Lemma chunk_size_PutUint32_witness : chunk_size (binary.PutUint32 68) = 68.
Proof. apply chunk_size_PutUint32. lia. Defined.

(** X14: the proxy reads back the command the test client sends: for a
    command without NUL and LF bytes, [readCommand] applied to what
    [testCommand] writes returns that command, with NUL as the delimiter if
    the command starts with 'z' and LF otherwise, and leaves what follows
    unread. *)
Theorem readCommand_fullCmd (cmd : string) (rest : list byte) (e : error) (pools : Pools) :
  Forall (fun b => ~ delimiter b) (String.list_byte_of_string cmd) ->
  exists pools',
    readCommand (mkReader (String.list_byte_of_string (test_client.fullCmd cmd) ++ rest) e)
                pools
    = (cmd, if GoStrings.HasPrefix cmd "z" then Byte.x00 else Byte.x0a, None,
       mkReader rest e, pools').
Proof.
  intros Hcmd. unfold test_client.fullCmd.
  assert (Hread : forall d : byte,
             delimiter d ->
             exists pools',
               readCommand
                 (mkReader (String.list_byte_of_string
                              (String.append cmd (String (Ascii.ascii_of_byte d) EmptyString))
                            ++ rest) e) pools
               = (cmd, d, None, mkReader rest e, pools')).
  { intros d Hd. rewrite list_byte_of_string_app.
    change (String.list_byte_of_string (String (Ascii.ascii_of_byte d) EmptyString))
      with [Ascii.byte_of_ascii (Ascii.ascii_of_byte d)].
    rewrite Ascii.byte_of_ascii_of_byte, <- List.app_assoc. cbn [app].
    destruct (readCommand_delimited _ rest d e pools Hcmd Hd) as [idle ->].
    rewrite String.string_of_list_byte_of_string. eexists. reflexivity. }
  destruct (GoStrings.HasPrefix cmd "z"); [apply Hread; now left |].
  destruct (GoStrings.HasPrefix cmd "n"); apply Hread; now right.
Qed.

Lemma readCommand_fullCmd_witness :
  exists pools',
    readCommand (mkReader (String.list_byte_of_string (test_client.fullCmd "zPING")
                           ++ [Byte.x51]) EOF) no_pools
    = ("zPING", if GoStrings.HasPrefix "zPING" "z" then Byte.x00 else Byte.x0a, None,
       mkReader [Byte.x51] EOF, pools').
Proof.
  apply readCommand_fullCmd.
  repeat constructor; intros [E | E]; discriminate E.
Defined.



End ClientFacts.

(** ** What [Start] holds back *)

Section StartHolds.
Import Spec.

(** A write that fits the free part of the buffer is appended to it. *)
Lemma write_with_fits (direct : bool) (b : Writer) (wr : Conn) (p : list byte) :
  w_err b = None -> len p <= bufio.Available b ->
  bufio.write_with direct b wr p
  = (len p, None, mkWriter (w_buf b ++ p) (w_size b) None, wr).
Proof.
  intros He Hfit. unfold bufio.write_with. cbn [Nat.add bufio.write_loop].
  replace (bufio.Available b <? len p) with false by (symmetry; apply Z.ltb_ge; lia).
  cbn [andb]. rewrite He. rewrite Z.min_r by lia. rewrite upto_all by lia.
  reflexivity.
Qed.

(** X18: [Start] holds small responses back.  A pass of its loop that
    finds bytes pending on the backend, and after which no more than 32 KiB
    are buffered, writes nothing to the client connection: the bytes read
    are appended to the buffer and wait there, until more than 32 KiB have
    accumulated or the backend's side ends. *)
Theorem Start_body_holds_back (k : Z) (p : ClamdProxy) (bytesWritten : Z) :
  w_err (clientBuf p) = None ->
  c_closed (backend p) = false ->
  c_in (backend p) <> [] ->
  len (w_buf (clientBuf p)) + len (c_in (backend p)) <= 32 * 1024 ->
  32 * 1024 <= w_size (clientBuf p) ->
  exists taken p',
    Start_body k p bytesWritten = inr (p', wrap_int (bytesWritten + len taken))
    /\ taken <> []
    /\ c_in (backend p) = taken ++ c_in (backend p')
    /\ client p' = client p
    /\ w_buf (clientBuf p') = w_buf (clientBuf p) ++ taken
    /\ w_err (clientBuf p') = None.
Proof.
  intros He Hopen Hne Hfit Hsize. unfold Start_body, net.Read. rewrite Hopen.
  destruct (c_in (backend p)) as [|x l] eqn:Hin; [congruence |].
  set (n := Z.min (64 * 1024) (Z.max 1 (Z.min k (len (x :: l))))).
  assert (Hpos : 0 < len (x :: l)) by (unfold len; simpl; lia).
  assert (Hn : 0 < n <= len (x :: l)) by lia.
  assert (Hlen : len (upto n (x :: l)) = n) by (apply len_upto; lia).
  pose proof (len_nonneg (w_buf (clientBuf p))) as Hbuf.
  rewrite Hlen. replace (0 <? n) with true by (symmetry; apply Z.ltb_lt; lia).
  cbn [set_backend clientBuf client]. unfold bufio.Write.
  rewrite write_with_fits by (try assumption; unfold bufio.Available; lia).
  rewrite Hlen. replace (0 <? n) with true by (symmetry; apply Z.ltb_lt; lia).
  rewrite Z.eqb_refl. cbn [negb set_client clientBuf client].
  unfold bufio.Buffered. cbn [w_buf].
  replace (32 * 1024 <? len (w_buf (clientBuf p) ++ upto n (x :: l))) with false
    by (symmetry; apply Z.ltb_ge; rewrite len_app; lia).
  eexists (upto n (x :: l)), _. rewrite Hlen. split; [reflexivity |].
  cbn [set_client set_backend backend client clientBuf c_in net.set_in w_buf w_err].
  split_and!; try reflexivity.
  - intros E. rewrite E in Hlen. unfold len in Hlen. simpl in Hlen. lia.
  - now rewrite upto_from.
Qed.

Lemma Start_body_holds_back_witness :
  exists taken p',
    Start_body 4 (NewClamdProxy (sample_conn [])
                                (sample_conn [Byte.x50; Byte.x4f; Byte.x4e; Byte.x47; Byte.x0a]))
               0
    = inr (p', wrap_int (0 + len taken))
    /\ taken <> []
    /\ [Byte.x50; Byte.x4f; Byte.x4e; Byte.x47; Byte.x0a] = taken ++ c_in (backend p')
    /\ client p' = sample_conn []
    /\ w_buf (clientBuf p') = [] ++ taken
    /\ w_err (clientBuf p') = None.
Proof.
  apply (Start_body_holds_back 4
           (NewClamdProxy (sample_conn [])
                          (sample_conn [Byte.x50; Byte.x4f; Byte.x4e; Byte.x47; Byte.x0a])) 0).
  - reflexivity.
  - reflexivity.
  - discriminate.
  - vm_compute. discriminate.
  - vm_compute. discriminate.
Defined.

End StartHolds.

(** ** The periodic flush of the chunk loop *)

Section PeriodicFlush.
Import Spec.


End PeriodicFlush.
